(** * pwnlib.elf.corefile: a shallow embedding and its properties

    The file follows [src/pwnlib/elf/corefile.py]: the note iterator
    [iter_notes], the [Mapping] objects, and the [Core] class with its
    constructor, [_parse_nt_file], [_parse_auxv], [_parse_stack] and
    [getenv].  Python exceptions are values of [exn]; a Python [dict] is a
    [gmap]; [Mapping] objects live in a store addressed by object identity,
    since the code mutates them through several references. *)

From Stdlib Require Import ZArith Lia List String Ascii Sorting.Sorted Permutation.
From Stdlib Require Import Init.Byte.
From stdpp Require Import base gmap strings list.

Local Open Scope Z_scope.

(** ** Exceptions and results *)

(** The exceptions the modelled code can raise. *)
Inductive exn : Type :=
| AssertionError
| ValueError
| EOFError
| ConstructError
| NameError
| AttributeError
| KeyError
| IndexError
| PwnlibException.

(** The outcome of running a piece of code: it returns, it raises, or the
    model's loop bound was too small to decide.  [OutOfFuel] is never the
    behaviour of the program; it only says "ask again with more fuel". *)
Inductive result (A : Type) : Type :=
| Ok (a : A)
| Raise (e : exn)
| OutOfFuel.

Arguments Ok {A} a.
Arguments Raise {A} e.
Arguments OutOfFuel {A}.

Definition bind {A B} (r : result A) (k : A -> result B) : result B :=
  match r with
  | Ok a => k a
  | Raise e => Raise e
  | OutOfFuel => OutOfFuel
  end.

Notation "x <- r ;; k" := (bind r (fun x => k))
  (at level 100, r at next level, right associativity).

(** [assert c] *)
Definition py_assert (c : bool) : result unit :=
  if c then Ok tt else Raise AssertionError.

(** ** Bytes and words *)

Definition byte_val (b : byte) : Z := Z.of_N (Byte.to_N b).

(** Unsigned little-endian value of a byte string (both supported
    architectures, i386 and amd64, are little-endian). *)
Fixpoint le_uint (bs : list byte) : Z :=
  match bs with
  | [] => 0
  | b :: r => byte_val b + 256 * le_uint r
  end.

(** pyelftools' [roundup(num, bits)]: [(num - 1 | (1 << bits) - 1) + 1]. *)
Definition roundup (num bits : Z) : Z :=
  Z.lor (num - 1) (Z.shiftl 1 bits - 1) + 1.

(** A Python 2 [str] made of the given bytes. *)
Definition bytes2str (bs : list byte) : string := string_of_list_byte bs.

(** [stream.seek(pos); stream.read(n)] on the file's byte stream: a read that
    reaches the end of the file returns what is left, it does not fail. *)
Definition stream_read (stream : list byte) (pos n : Z) : list byte :=
  take (Z.to_nat n) (drop (Z.to_nat pos) stream).

(** construct's [CString('').parse(data)]: the bytes before the first NUL;
    a missing terminator is a [ConstructError]. *)
Fixpoint CString_parse (data : list byte) : result (list byte) :=
  match data with
  | [] => Raise ConstructError
  | b :: r =>
      if (byte_val b =? 0) then Ok []
      else s <- CString_parse r ;; Ok (b :: s)
  end.

(** ** Notes *)

(** pyelftools decodes [n_type] through [ENUM_NOTE_N_TYPE]: the values 1 to 4
    become enum names, every other value stays an integer. *)
Inductive note_type : Type :=
| NT_GNU_ABI_TAG
| NT_GNU_HWCAP
| NT_GNU_BUILD_ID
| NT_GNU_GOLD_VERSION
| NT_int (v : Z).

Definition decode_n_type (v : Z) : note_type :=
  if v =? 1 then NT_GNU_ABI_TAG
  else if v =? 2 then NT_GNU_HWCAP
  else if v =? 3 then NT_GNU_BUILD_ID
  else if v =? 4 then NT_GNU_GOLD_VERSION
  else NT_int v.

(** [note.n_type == c] for an integer constant [c]: an enum name is a string
    and never equals an integer. *)
Definition n_type_is (t : note_type) (c : Z) : bool :=
  match t with
  | NT_int v => v =? c
  | _ => false
  end.

Definition n_type_is_ABI_TAG (t : note_type) : bool :=
  match t with
  | NT_GNU_ABI_TAG => true
  | _ => false
  end.

Record Note : Type := mkNote {
  n_namesz : Z;
  n_descsz : Z;
  n_type : note_type;
  n_offset : Z;
  n_name : string;
  n_desc : list byte;
  n_size : Z
}.

(** [Elf_Nhdr.sizeof()]: three 32-bit words. *)
Definition Elf_Nhdr_sizeof : Z := 12.

(** [struct_parse(Elf_Nhdr, stream, stream_pos=offset)]: three words; fewer
    than twelve bytes left in the file is a parse error. *)
Definition parse_Elf_Nhdr (stream : list byte) (offset : Z)
  : result (Z * Z * note_type) :=
  let bs := stream_read stream offset Elf_Nhdr_sizeof in
  if (Z.of_nat (length bs) <? Elf_Nhdr_sizeof) then Raise ConstructError
  else Ok (le_uint (take 4 bs),
           le_uint (take 4 (drop 4 bs)),
           decode_n_type (le_uint (take 4 (drop 8 bs)))).

(** One turn of the [while] loop of [iter_notes]: the note at [offset] and the
    offset after it. *)
Definition read_note (stream : list byte) (offset : Z) : result (Note * Z) :=
  let n_offset := offset in
  hdr <- parse_Elf_Nhdr stream offset ;;
  let '(namesz, descsz, ty) := hdr in
  let offset := offset + Elf_Nhdr_sizeof in
  let disk_namesz := roundup namesz 2 in
  name <- CString_parse (stream_read stream offset disk_namesz) ;;
  let offset := offset + disk_namesz in
  let desc_data := stream_read stream offset descsz in
  let offset := offset + roundup descsz 2 in
  Ok (mkNote namesz descsz ty n_offset (bytes2str name) desc_data
        (offset - n_offset), offset).

(** A generator run to its end: the values it yielded, and the exception that
    ended it, if one did. *)
Definition generated (A : Type) : Type := (list A * option exn)%type.

Fixpoint iter_notes_loop (fuel : nat) (stream : list byte) (offset end_ : Z)
  : generated Note :=
  match fuel with
  | O => ([], None)
  | S fuel =>
      if (offset <? end_) then
        match read_note stream offset with
        | Ok (note, offset') =>
            let '(notes, e) := iter_notes_loop fuel stream offset' end_ in
            (note :: notes, e)
        | Raise e => ([], Some e)
        | OutOfFuel => ([], None)
        end
      else ([], None)
  end.

(** [iter_notes(segment)] for a segment at [p_offset] of [p_filesz] bytes.
    Every turn moves [offset] forward by at least the header size, so
    [end - offset] turns are enough ([iter_notes_from_unfold] below). *)
Definition iter_notes_from (stream : list byte) (offset end_ : Z)
  : generated Note :=
  iter_notes_loop (Z.to_nat (end_ - offset)) stream offset end_.

Definition iter_notes (stream : list byte) (p_offset p_filesz : Z)
  : generated Note :=
  iter_notes_from stream p_offset (p_offset + p_filesz).

(** ** The ELF layer and the constants *)

(** [self.bytes] (and so [context.bytes] inside [context.local]) comes from
    the ELF class of the file. *)
Inductive elfclass : Type := ELFCLASS32 | ELFCLASS64.

Definition bytes (ec : elfclass) : Z :=
  match ec with
  | ELFCLASS32 => 4
  | ELFCLASS64 => 8
  end.

Inductive elf_type : Type := ET_CORE | ET_other.

Inductive elf_arch : Type := i386 | amd64 | arch_other.

Inductive segment_type : Type := PT_LOAD | PT_NOTE | PT_other.

Record Segment : Type := mkSegment {
  p_type : segment_type;
  p_offset : Z;
  p_filesz : Z;
  p_vaddr : Z;
  p_memsz : Z;
  p_flags : Z
}.

(** What the [ELF] base class gives the code: the byte stream of the file,
    its segments, its type, architecture and class. *)
Record ElfFile : Type := mkElfFile {
  stream : list byte;
  segments : list Segment;
  elftype : elf_type;
  arch : elf_arch;
  ei_class : elfclass
}.

(** The constants of [pwnlib.elf.datatypes], which is not part of this file:
    the sizes of the two [elf_prstatus] structures and three integer tags. *)
Record Constants : Type := mkConstants {
  sizeof_elf_prstatus_i386 : Z;
  sizeof_elf_prstatus_amd64 : Z;
  NT_FILE : Z;
  NT_AUXV : Z;
  AT_EXECFN : Z
}.

(** ** The tube holding a note descriptor *)

(** Modelled from the spec: [pwnlib.tubes.tube] is not under src/.  A bare
    [tube()] filled by [unrecv(n_desc)] has no other source of data:
    [t.unpack()] takes one pointer-width word off the front, and the read
    fails if the words run past the descriptor. *)
Definition tube_unpack (ec : elfclass) (t : list byte) : result (Z * list byte) :=
  let w := Z.to_nat (bytes ec) in
  if (length t <? w)%nat then Raise EOFError
  else Ok (le_uint (take w t), drop w t).

(** Modelled from the spec: [t.recvuntil('\x00', drop=True)] of
    [pwnlib.tubes.tube] takes a NUL-terminated name off the front, without
    its terminator; a missing terminator is a failure. *)
Fixpoint tube_recvuntil_nul (t : list byte) : result (list byte * list byte) :=
  match t with
  | [] => Raise EOFError
  | b :: r =>
      if (byte_val b =? 0) then Ok ([], r)
      else p <- tube_recvuntil_nul r ;; Ok (b :: fst p, snd p)
  end.

(** ** Python's [range] and [sorted] *)

(** [range(start, stop, step)] for a positive [step]. *)
Definition py_range (start stop step : Z) : list Z :=
  if (stop <=? start) then []
  else map (fun k => start + Z.of_nat k * step)
           (seq 0 (Z.to_nat ((stop - start + step - 1) / step))).

(** [x] goes in front of the first element whose key is not smaller. *)
Fixpoint insert_by {A} (key : A -> Z) (x : A) (l : list A) : list A :=
  match l with
  | [] => [x]
  | y :: r => if (key y <? key x) then y :: insert_by key x r else x :: l
  end.

(** [sorted(l, key=key)]: Python's sort is stable, and a stable sort has one
    possible result, the one this insertion sort computes. *)
Definition sorted_by {A} (key : A -> Z) (l : list A) : list A :=
  foldr (insert_by key) [] l.

(** ** Mapping objects *)

Record Mapping : Type := mkMapping {
  name : option string;
  start : Z;
  stop : Z;
  size : Z;
  flags : Z
}.

(** [Mapping(name, start, stop, flags)] *)
Definition Mapping_init (name : option string) (start stop flags : Z) : Mapping :=
  mkMapping name start stop (stop - start) flags.

Definition set_name (n : string) (m : Mapping) : Mapping :=
  mkMapping (Some n) (start m) (stop m) (size m) (flags m).

Definition set_flags (f : Z) (m : Mapping) : Mapping :=
  mkMapping (name m) (start m) (stop m) (size m) f.

(** [Mapping.permstr] *)
Definition permstr (m : Mapping) : string :=
  ((if Z.eqb (Z.land (flags m) 4) 0 then "-" else "r") ++
   (if Z.eqb (Z.land (flags m) 2) 0 then "-" else "w") ++
   (if Z.eqb (Z.land (flags m) 1) 0 then "-" else "x") ++ "p")%string.

(** The store of [Mapping] objects: an object is known by its position, the
    order of creation. *)
Abbreviation store := (list Mapping).

(** [obj.attr = v] on the object [id]. *)
Definition store_update (f : Mapping -> Mapping) (id : nat) (objs : store)
  : result store :=
  match objs !! id with
  | Some m => Ok (<[id := f m]> objs)
  | None => Raise IndexError
  end.

Definition obj_start (objs : store) (id : nat) : Z :=
  from_option start 0 (objs !! id).

Definition obj_stop (objs : store) (id : nat) : Z :=
  from_option stop 0 (objs !! id).

(** ** The Core object *)

(** What [self.stack] holds: nothing, the address computed from the
    auxiliary vector, or a [Mapping] object. *)
Inductive stack_ref : Type :=
| StackNone
| StackTop (a : Z)
| StackMapping (id : nat).

(** The attributes of a [Core] object that this file sets.  [mappings] and
    [addresses] hold references into [objs]. *)
Record Core : Type := mkCore {
  prstatus : option (list byte);
  NT_PRSTATUS : option Note;
  objs : store;
  mappings : list nat;
  addresses : gmap Z nat;
  stack : stack_ref;
  at_execfn : option Z;
  env : gmap string Z
}.

(** The attributes as the first lines of [__init__] leave them. *)
Definition Core_new : Core :=
  mkCore None None [] [] ∅ StackNone None ∅.

(** The [Mapping] values of [self.mappings], in order. *)
Definition mapping_list (c : Core) : list Mapping :=
  omap (fun id => objs c !! id) (mappings c).

(** ** [Core._parse_nt_file] *)

(** The first [for i in range(count)] loop: one [Mapping] per triple, appended
    to [mappings] and entered in [addresses] under its start address. *)
Fixpoint read_triples (ec : elfclass) (count : nat) (t : list byte)
    (ms : store) (addrs : gmap Z nat)
  : result (list byte * store * gmap Z nat) :=
  match count with
  | O => Ok (t, ms, addrs)
  | S count =>
      p <- tube_unpack ec t ;; let '(start, t) := p in
      p <- tube_unpack ec t ;; let '(end_, t) := p in
      p <- tube_unpack ec t ;; let '(ofs, t) := p in
      let mapping := Mapping_init None start end_ 0 in
      read_triples ec count t (ms ++ [mapping]) (<[start := length ms]> addrs)
  end.

(** The second loop: [mappings[i].name = filename] for the given indices. *)
Fixpoint read_names (idx : list nat) (t : list byte) (ms : store)
  : result (list byte * store) :=
  match idx with
  | [] => Ok (t, ms)
  | i :: idx =>
      p <- tube_recvuntil_nul t ;; let '(filename, t) := p in
      ms <- store_update (set_name (bytes2str filename)) i ms ;;
      read_names idx t ms
  end.

(** The loop over [self.segments]. *)
Fixpoint merge_segments (segs : list Segment) (ms : store) (addrs : gmap Z nat)
  : result (store * gmap Z nat) :=
  match segs with
  | [] => Ok (ms, addrs)
  | s :: segs =>
      match p_type s with
      | PT_LOAD =>
          match addrs !! p_vaddr s with
          | Some id =>
              ms <- store_update (set_flags (p_flags s)) id ms ;;
              merge_segments segs ms addrs
          | None =>
              let mapping :=
                Mapping_init None (p_vaddr s) (p_vaddr s + p_memsz s) (p_flags s) in
              merge_segments segs (ms ++ [mapping]) (<[p_vaddr s := length ms]> addrs)
          end
      | _ => merge_segments segs ms addrs
      end
  end.

(** The local [mappings] and [addresses] a mapped-file note descriptor and
    the segments give. *)
Definition build_mappings (elf : ElfFile) (desc : list byte)
  : result (store * gmap Z nat) :=
  let ec := ei_class elf in
  let t := desc in
  p <- tube_unpack ec t ;; let '(count, t) := p in
  p <- tube_unpack ec t ;; let '(page_size, t) := p in
  r <- read_triples ec (Z.to_nat count) t [] ∅ ;;
  let '(t, ms, addrs) := r in
  r <- read_names (seq 0 (Z.to_nat count)) t ms ;;
  let '(t, ms) := r in
  merge_segments (segments elf) ms addrs.

Definition _parse_nt_file (elf : ElfFile) (self : Core) (note : Note)
  : result Core :=
  r <- build_mappings elf (n_desc note) ;;
  let '(ms, addrs) := r in
  Ok (mkCore (prstatus self) (NT_PRSTATUS self)
        ms (sorted_by (obj_start ms) (seq 0 (length ms))) addrs
        (stack self) (at_execfn self) (env self)).

(** ** [Core._parse_auxv] *)

Definition set_execfn (value : Z) (self : Core) : Core :=
  mkCore (prstatus self) (NT_PRSTATUS self) (objs self) (mappings self)
    (addresses self) (StackTop (Z.land value (Z.lnot 4095) + 4096))
    (Some value) (env self).

(** The body of the loop, once per element of the [range]. *)
Fixpoint auxv_loop (k : Constants) (ec : elfclass) (idx : list Z)
    (t : list byte) (self : Core) : result Core :=
  match idx with
  | [] => Ok self
  | _ :: idx =>
      p <- tube_unpack ec t ;; let '(key, t) := p in
      p <- tube_unpack ec t ;; let '(value, t) := p in
      auxv_loop k ec idx t
        (if (key =? AT_EXECFN k) then set_execfn value self else self)
  end.

Definition _parse_auxv (k : Constants) (elf : ElfFile) (self : Core) (note : Note)
  : result Core :=
  let ec := ei_class elf in
  auxv_loop k ec (py_range 0 (n_descsz note) (bytes ec * 2)) (n_desc note) self.

(** ** Reading the memory of the process *)

(** The image of the process: the byte at an address, if the core file
    holds it. *)
Definition memory : Type := Z -> option byte.

(** Modelled from the spec: [ELF.u8] is not under src/.  The reader returns
    the byte at a virtual address and fails when the address is not backed
    by the file; [_parse_stack] names that failure: [ValueError]. *)
Definition u8 (mem : memory) (address : Z) : result Z :=
  match mem address with
  | Some b => Ok (byte_val b)
  | None => Raise ValueError
  end.

Fixpoint mem_read (mem : memory) (address : Z) (count : nat) : result (list byte) :=
  match count with
  | O => Ok []
  | S count =>
      match mem address with
      | Some b => r <- mem_read mem (address + 1) count ;; Ok (b :: r)
      | None => Raise ValueError
      end
  end.

(** Modelled from the spec: [ELF.unpack] is not under src/.  It reads one
    pointer-width word at an address. *)
Definition mem_unpack (mem : memory) (ec : elfclass) (address : Z) : result Z :=
  bs <- mem_read mem address (Z.to_nat (bytes ec)) ;; Ok (le_uint bs).

(** Modelled from the spec: [ELF.string] is not under src/.  It reads the
    NUL-terminated string at an address. *)
Fixpoint mem_string (fuel : nat) (mem : memory) (address : Z) : result (list byte) :=
  match fuel with
  | O => OutOfFuel
  | S fuel =>
      match mem address with
      | Some b =>
          if (byte_val b =? 0) then Ok []
          else r <- mem_string fuel mem (address + 1) ;; Ok (b :: r)
      | None => Raise ValueError
      end
  end.

(** The character ['=']. *)
Definition is_equals (b : byte) : bool := byte_val b =? 61.

(** [value.split('=', 1)[0]] *)
Fixpoint split_first (value : list byte) : list byte :=
  match value with
  | [] => []
  | b :: r => if is_equals b then [] else b :: split_first r
  end.

(** [value.split('=', 1)[-1]] *)
Fixpoint split_last_aux (whole value : list byte) : list byte :=
  match value with
  | [] => whole
  | b :: r => if is_equals b then r else split_last_aux whole r
  end.

Definition split_last (value : list byte) : list byte :=
  split_last_aux value value.

(** ** [Core._parse_stack] *)

(** [while self.u8(address-1) != 0: address -= 1] *)
Fixpoint scan_env_start (fuel : nat) (mem : memory) (address : Z) : result Z :=
  match fuel with
  | O => OutOfFuel
  | S fuel =>
      b <- u8 mem (address - 1) ;;
      if negb (b =? 0) then scan_env_start fuel mem (address - 1)
      else Ok address
  end.

(** [while self.unpack(address) != last_env_addr: address -= context.bytes] *)
Fixpoint scan_envp_last (fuel : nat) (mem : memory) (ec : elfclass)
    (last_env_addr address : Z) : result Z :=
  match fuel with
  | O => OutOfFuel
  | S fuel =>
      w <- mem_unpack mem ec address ;;
      if negb (w =? last_env_addr)
      then scan_envp_last fuel mem ec last_env_addr (address - bytes ec)
      else Ok address
  end.

(** [while self.unpack(address - context.bytes) != 0: address -= context.bytes] *)
Fixpoint scan_envp_first (fuel : nat) (mem : memory) (ec : elfclass)
    (address : Z) : result Z :=
  match fuel with
  | O => OutOfFuel
  | S fuel =>
      w <- mem_unpack mem ec (address - bytes ec) ;;
      if negb (w =? 0) then scan_envp_first fuel mem ec (address - bytes ec)
      else Ok address
  end.

(** The final [for env in range(start_of_envp, end_of_envp, context.bytes)]. *)
Fixpoint fill_env (fuel : nat) (mem : memory) (ec : elfclass) (slots : list Z)
    (e : gmap string Z) : result (gmap string Z) :=
  match slots with
  | [] => Ok e
  | slot :: slots =>
      envaddr <- mem_unpack mem ec slot ;;
      value <- mem_string fuel mem envaddr ;;
      let name := bytes2str (split_first value) in
      fill_env fuel mem ec slots (<[name := envaddr]> e)
  end.

Definition set_env (e : gmap string Z) (self : Core) : Core :=
  mkCore (prstatus self) (NT_PRSTATUS self) (objs self) (mappings self)
    (addresses self) (stack self) (at_execfn self) e.

(** The part of [_parse_stack] after the guarded sanity check. *)
Definition reconstruct (fuel : nat) (mem : memory) (ec : elfclass)
    (self : Core) (address : Z) : result Core :=
  address <- scan_env_start fuel mem address ;;
  let last_env_addr := address in
  let address := Z.land address (Z.lnot (bytes ec - 1)) in
  address <- scan_envp_last fuel mem ec last_env_addr address ;;
  w <- mem_unpack mem ec (address + bytes ec) ;;
  _ <- py_assert (w =? 0) ;;
  let end_of_envp := address + bytes ec in
  address <- scan_envp_first fuel mem ec address ;;
  let start_of_envp := address in
  e <- fill_env fuel mem ec (py_range start_of_envp end_of_envp (bytes ec))
         (env self) ;;
  Ok (set_env e self).

(** [fuel] bounds the turns of each [while] loop and the length of each
    string read. *)
Definition _parse_stack (fuel : nat) (mem : memory) (elf : ElfFile) (self : Core)
  : result Core :=
  match at_execfn self with
  | None => Raise AttributeError
  | Some execfn =>
      let address := execfn - 1 in
      (* try: assert self.u8(address) == 0 *)
      match (b <- u8 mem address ;; py_assert (b =? 0)) with
      | Raise AssertionError => Ok self
      | Raise ValueError => Ok self
      | Raise e => Raise e
      | OutOfFuel => OutOfFuel
      | Ok _ => reconstruct fuel mem (ei_class elf) self address
      end
  end.

(** ** [Core.__init__] *)

(** [types[self.arch]] and its [ctypes.sizeof]. *)
Definition prstatus_sizeof (k : Constants) (a : elf_arch) : result Z :=
  match a with
  | i386 => Ok (sizeof_elf_prstatus_i386 k)
  | amd64 => Ok (sizeof_elf_prstatus_amd64 k)
  | arch_other => Raise KeyError
  end.

(** [prstatus_type.from_buffer_copy(buf)]: a structure over a copy of the
    first [sizeof] bytes; a shorter buffer is a [ValueError]. *)
Definition from_buffer_copy (sizeof : Z) (buf : list byte) : result (list byte) :=
  if (Z.of_nat (length buf) <? sizeof) then Raise ValueError
  else Ok (take (Z.to_nat sizeof) buf).

Definition set_prstatus (note : Note) (st : list byte) (self : Core) : Core :=
  mkCore (Some st) (Some note) (objs self) (mappings self)
    (addresses self) (stack self) (at_execfn self) (env self).

(** The body of [for note in iter_notes(segment)]: three independent [if]s. *)
Definition handle_note (k : Constants) (elf : ElfFile) (sizeof : Z)
    (self : Core) (note : Note) : result Core :=
  self <- (if (n_descsz note =? sizeof) && n_type_is_ABI_TAG (n_type note)
           then st <- from_buffer_copy sizeof (n_desc note) ;;
                Ok (set_prstatus note st self)
           else Ok self) ;;
  self <- (if n_type_is (n_type note) (NT_FILE k)
           then _parse_nt_file elf self note
           else Ok self) ;;
  if n_type_is (n_type note) (NT_AUXV k)
  then _parse_auxv k elf self note
  else Ok self.

(** A [for] loop whose body may raise. *)
Fixpoint for_each {A S} (body : S -> A -> result S) (l : list A) (st : S)
  : result S :=
  match l with
  | [] => Ok st
  | x :: l => st <- body st x ;; for_each body l st
  end.

(** A [for] loop over a generator: the body runs on what was yielded, then
    the generator's own exception, if any, is raised. *)
Definition for_generated {A S} (body : S -> A -> result S) (g : generated A)
    (st : S) : result S :=
  st <- for_each body (fst g) st ;;
  match snd g with
  | Some e => Raise e
  | None => Ok st
  end.

(** The body of [for segment in self.segments]. *)
Definition handle_segment (k : Constants) (elf : ElfFile) (sizeof : Z)
    (self : Core) (segment : Segment) : result Core :=
  match p_type segment with
  | PT_NOTE =>
      for_generated (handle_note k elf sizeof)
        (iter_notes (stream elf) (p_offset segment) (p_filesz segment)) self
  | _ => Ok self
  end.

(** The note pass of the constructor. *)
Definition parse_notes (k : Constants) (elf : ElfFile) (sizeof : Z) (self : Core)
  : result Core :=
  for_each (handle_segment k elf sizeof) (segments elf) self.

(** [mapping.stop == self.stack]: an integer equals an integer of the same
    value, and nothing else. *)
Definition stop_is_stack (self : Core) (id : nat) : bool :=
  match stack self, objs self !! id with
  | StackTop a, Some m => stop m =? a
  | _, _ => false
  end.

Definition set_stack (id : nat) (self : Core) : Core :=
  mkCore (prstatus self) (NT_PRSTATUS self)
    (alter (set_name "[stack]") id (objs self)) (mappings self)
    (addresses self) (StackMapping id) (at_execfn self) (env self).

(** [for mapping in self.mappings: if mapping.stop == self.stack: ...], with
    the call of [self._parse_stack()] as the parameter [parse_stack]. *)
Fixpoint stack_loop (parse_stack : Core -> result Core) (ms : list nat)
    (self : Core) : result Core :=
  match ms with
  | [] => Ok self
  | id :: ms =>
      if stop_is_stack self id
      then self <- parse_stack (set_stack id self) ;;
           stack_loop parse_stack ms self
      else stack_loop parse_stack ms self
  end.

(** Python's truth value of [self.stack]. *)
Definition stack_truthy (s : stack_ref) : bool :=
  match s with
  | StackNone => false
  | StackTop a => negb (a =? 0)
  | StackMapping _ => true
  end.

(** [if self.stack and self.mappings: ...] *)
Definition locate_stack (parse_stack : Core -> result Core) (self : Core)
  : result Core :=
  if stack_truthy (stack self) && negb (bool_decide (mappings self = []))
  then stack_loop parse_stack (mappings self) self
  else Ok self.

(** Modelled from the spec: [pwnlib.log] is not under src/.  [log.error]
    reports a failure to the caller: it logs and raises.  In [__init__] its
    argument mentions an unbound name [e], so evaluating the argument raises
    [NameError] before the call. *)
Definition log_error {A} : result A := Raise PwnlibException.

Definition Core_init (k : Constants) (fuel : nat) (mem : memory) (elf : ElfFile)
  : result Core :=
  let self := Core_new in
  _ <- match elftype elf with
       | ET_CORE => Ok tt
       | ET_other => Raise NameError
       end ;;
  _ <- match arch elf with
       | i386 | amd64 => Ok tt
       | arch_other => Raise NameError
       end ;;
  sizeof <- prstatus_sizeof k (arch elf) ;;
  self <- parse_notes k elf sizeof self ;;
  locate_stack (_parse_stack fuel mem elf) self.

(** ** [Core.getenv] *)

(** A value a Python function may return. *)
Inductive py_value : Type :=
| PyInt (v : Z)
| PyStr (s : string).

Definition getenv (fuel : nat) (mem : memory) (self : Core) (name : string)
  : result py_value :=
  _ <- match env self !! name with
       | None => log_error
       | Some _ => Ok tt
       end ;;
  address <- match env self !! name with
             | Some a => Ok a
             | None => Raise KeyError
             end ;;
  value <- mem_string fuel mem address ;;
  Ok (PyStr (bytes2str (split_last value))).

(** ** Properties stated by the documentation, as predicates *)

(** [round_up(n, m)]: the least multiple of [m] that is at least [n]. *)
Definition round_up (n m : Z) : Z := (n + m - 1) / m * m.

(** The sum of the sizes recorded in the notes. *)
Definition total_size (notes : list Note) : Z :=
  foldr (fun n acc => n_size n + acc) 0 notes.

(** Mappings in strictly ascending order of start address. *)
Definition strictly_sorted (l : list Mapping) : Prop :=
  StronglySorted (fun a b => start a < start b) l.

(** Mappings in ascending order of start address, equal starts allowed. *)
Definition weakly_sorted (l : list Mapping) : Prop :=
  StronglySorted (fun a b => start a <= start b) l.

(** No two members of the list share an address. *)
Definition non_overlapping (l : list Mapping) : Prop :=
  ForallOrdPairs (fun a b => stop a <= start b \/ stop b <= start a) l.

(** The mapping holds the address: [start <= a < stop], the end exclusive. *)
Definition contains (m : Mapping) (a : Z) : Prop := start m <= a < stop m.

(** The process-status test of [__init__] on a note. *)
Definition is_prstatus_note (sizeof : Z) (note : Note) : bool :=
  (n_descsz note =? sizeof) && n_type_is_ABI_TAG (n_type note).

(** Every note of every note segment, in the order [__init__] meets them. *)
Definition all_notes (elf : ElfFile) : list Note :=
  concat (map (fun s =>
                 match p_type s with
                 | PT_NOTE => fst (iter_notes (stream elf) (p_offset s) (p_filesz s))
                 | _ => []
                 end) (segments elf)).

(** The references of [self.mappings] are live, and in ascending order of
    the start address of what they refer to. *)
Definition mappings_ok (c : Core) : Prop :=
  Forall (fun id => (id < length (objs c))%nat) (mappings c) /\
  StronglySorted (fun a b => obj_start (objs c) a <= obj_start (objs c) b)
    (mappings c).

(** [r'] is the same outcome as [r], unless [r] only ran out of fuel. *)
Definition settles {A} (r r' : result A) : Prop := r <> OutOfFuel -> r' = r.

(** ** Core files and memory images used in the examples *)

Definition byte_of (v : Z) : byte :=
  default x00 (Byte.of_N (Z.to_N (v mod 256))).

(** [n] bytes of [v], little-endian. *)
Fixpoint le_encode (n : nat) (v : Z) : list byte :=
  match n with
  | O => []
  | S n => byte_of v :: le_encode n (v / 256)
  end.

Definition str (s : string) : list byte := list_byte_of_string s.

Definition cstr (s : string) : list byte := str s ++ [x00].

Definition pad4 (bs : list byte) : list byte :=
  bs ++ repeat x00 (Z.to_nat ((- Z.of_nat (length bs)) mod 4)).

(** A note as it lies in a note segment. *)
Definition encode_note (nm : string) (ty : Z) (desc : list byte) : list byte :=
  le_encode 4 (Z.of_nat (length (cstr nm))) ++
  le_encode 4 (Z.of_nat (length desc)) ++
  le_encode 4 ty ++ pad4 (cstr nm) ++ pad4 desc.

(** The values Linux gives the constants. *)
Definition linux : Constants := mkConstants 144 336 0x46494c45 6 31.

(** An amd64 core file whose only note segment is the whole of [data]. *)
Definition core_file (data : list byte) (loads : list Segment) : ElfFile :=
  mkElfFile data
    (mkSegment PT_NOTE 0 (Z.of_nat (length data)) 0 0 0 :: loads)
    ET_CORE amd64 ELFCLASS64.

Definition load (vaddr memsz fl : Z) : Segment :=
  mkSegment PT_LOAD 0 0 vaddr memsz fl.

(** Memory holding [data] at [base] and nothing else. *)
Definition memory_at (base : Z) (data : list byte) : memory :=
  fun a =>
    if (base <=? a) && (a <? base + Z.of_nat (length data))
    then data !! Z.to_nat (a - base)
    else None.

Definition no_memory : memory := fun _ => None.

(** A mapped-file note of two files that start at the same address, and a
    loadable segment inside the first of them. *)
Definition nt_file_shared_start : list byte :=
  le_encode 8 2 ++ le_encode 8 4096 ++
  le_encode 8 0x1000 ++ le_encode 8 0x3000 ++ le_encode 8 0 ++
  le_encode 8 0x1000 ++ le_encode 8 0x2000 ++ le_encode 8 1 ++
  cstr "/bin/a" ++ cstr "/bin/b".

Definition core_shared_start : ElfFile :=
  core_file (encode_note "CORE" 0x46494c45 nt_file_shared_start)
    [load 0x1000 0x1000 5; load 0x2000 0x1000 6].

(** A mapped-file note without files. *)
Definition nt_file_empty : list byte := le_encode 8 0 ++ le_encode 8 4096.

(** An auxiliary vector: [AT_EXECFN = 0x1ff0], then [AT_NULL]. *)
Definition auxv_execfn : list byte :=
  le_encode 8 31 ++ le_encode 8 0x1ff0 ++ le_encode 8 0 ++ le_encode 8 0.

(** A core file with the stack in [0x1000, 0x2000) and the executable's
    name at [0x1ff0]. *)
Definition core_with_stack : ElfFile :=
  core_file (encode_note "CORE" 0x46494c45 nt_file_empty ++
             encode_note "CORE" 6 auxv_execfn)
    [load 0x1000 0x1000 6].

(** The top of a stack, from [0x1f80] to [0x2000]: argc, argv, envp, the
    words given for the auxiliary vector, the strings ["X=1"], ["A=b"],
    ["/bin/sh"] and a final NULL word. *)
Definition stack_image (aux : list byte) : list byte :=
  le_encode 8 1 ++ le_encode 8 0x1ff0 ++ le_encode 8 0 ++
  le_encode 8 0x1fe8 ++ le_encode 8 0x1fec ++ le_encode 8 0 ++
  aux ++
  cstr "X=1" ++ cstr "A=b" ++ cstr "/bin/sh" ++ le_encode 8 0.

(** A stack with nothing but zeros between envp and the strings. *)
Definition good_stack : memory :=
  memory_at 0x1f80 (stack_image (repeat x00 56)).

(** The same stack with a copy of the pointer to ["A=b"] above envp, at
    [0x1fd0], followed by another pointer. *)
Definition stack_with_stale_pointer : memory :=
  memory_at 0x1f80
    (stack_image (repeat x00 32 ++ le_encode 8 0x1fec ++ le_encode 8 0x1fe8 ++
                  repeat x00 8)).

(** A dump that holds only the last twenty bytes of the stack: ["A=b"],
    ["/bin/sh"] and the NULL word. *)
Definition truncated_stack : memory :=
  memory_at 0x1fec (cstr "A=b" ++ cstr "/bin/sh" ++ le_encode 8 0).

(** A core file with two process-status notes: the registers are all [A]
    in the first and all [B] in the second. *)
Definition core_two_prstatus : ElfFile :=
  core_file (encode_note "CORE" 1 (repeat x41 336) ++
             encode_note "CORE" 1 (repeat x42 336)) [].

(** A core file whose auxiliary vector holds three words: the pair
    [AT_EXECFN = 0x1ff0] and a lone key. *)
Definition core_odd_auxv : ElfFile :=
  core_file (encode_note "CORE" 6
               (le_encode 8 31 ++ le_encode 8 0x1ff0 ++ le_encode 8 0)) [].

(** A core file with one mapped file in [0x1000, 0x3000) and the
    executable's name at [0x1ff0], inside it. *)
Definition core_anchor_inside : ElfFile :=
  core_file (encode_note "CORE" 0x46494c45
               (le_encode 8 1 ++ le_encode 8 4096 ++
                le_encode 8 0x1000 ++ le_encode 8 0x3000 ++ le_encode 8 0 ++
                cstr "/bin/a") ++
             encode_note "CORE" 6 auxv_execfn) [].


(** ** Further predicates *)

(** The index agrees with the store: a key leads to an object that starts
    there, and every object can be reached under its start address. *)
Definition index_ok (ms : list Mapping) (addrs : gmap Z nat) : Prop :=
  (forall a id, addrs !! a = Some id ->
                exists m, ms !! id = Some m /\ start m = a) /\
  (forall id m, ms !! id = Some m -> is_Some (addrs !! start m)).

(** The first page boundary above an address. *)
Definition next_page (v : Z) : Z := 4096 * (v / 4096) + 4096.

(** ** The layout of a mapped-file note *)

(** One pointer-width word, little-endian. *)
Definition encode_word (ec : elfclass) (v : Z) : list byte :=
  le_encode (Z.to_nat (bytes ec)) v.

(** A file of the table: start, end, file offset, name. *)
Definition file_entry : Type := (Z * Z * Z * string)%type.

Definition encode_triple (ec : elfclass) (e : file_entry) : list byte :=
  let '(s, e, o, _) := e in
  encode_word ec s ++ encode_word ec e ++ encode_word ec o.

Definition entry_name (e : file_entry) : string := snd e.

(** The descriptor of a mapped-file note: the count, the page size, the
    triples, then the names, each with its terminator. *)
Definition encode_nt_file (ec : elfclass) (page_size : Z)
    (entries : list file_entry) : list byte :=
  encode_word ec (Z.of_nat (length entries)) ++ encode_word ec page_size ++
  concat (map (encode_triple ec) entries) ++
  concat (map (fun e => cstr (entry_name e)) entries).

(** The mapping a file of the table stands for, before the segments are
    looked at. *)
Definition entry_mapping (e : file_entry) : Mapping :=
  let '(s, e, _, n) := e in Mapping_init (Some n) s e 0.

(** What a word can hold, and a name can be. *)
Definition word_ok (ec : elfclass) (v : Z) : Prop := 0 <= v < 256 ^ bytes ec.

Definition entry_ok (ec : elfclass) (e : file_entry) : Prop :=
  let '(s, e, o, n) := e in
  word_ok ec s /\ word_ok ec e /\ word_ok ec o /\
  Forall (fun b => byte_val b <> 0) (str n).

(** What identifies a mapping of the table: start, end and name. *)
Definition mapping_key (m : Mapping) : Z * Z * option string :=
  (start m, stop m, name m).

(** ** The layout of a note segment *)

(** What a note is made from: name, type tag, descriptor. *)
Definition note_spec : Type := (string * Z * list byte)%type.

Definition encode_notes (l : list note_spec) : list byte :=
  concat (map (fun s : note_spec =>
                 encode_note (fst (fst s)) (snd (fst s)) (snd s)) l).

(** A name without NUL, and sizes and a type that fit the 32-bit header
    fields. *)
Definition note_spec_ok (s : note_spec) : Prop :=
  Forall (fun b => byte_val b <> 0) (str (fst (fst s))) /\
  Z.of_nat (length (cstr (fst (fst s)))) < 2 ^ 32 /\
  0 <= snd (fst s) < 2 ^ 32 /\
  Z.of_nat (length (snd s)) < 2 ^ 32.

(** Name, decoded type and descriptor of a note. *)
Definition note_content (n : Note) : string * note_type * list byte :=
  (n_name n, n_type n, n_desc n).

(** Each note starts where the one before it ends. *)
Fixpoint contiguous (offset : Z) (notes : list Note) : Prop :=
  match notes with
  | [] => True
  | n :: notes => n_offset n = offset /\ contiguous (offset + n_size n) notes
  end.

(** ** What [self.stack] can be on a constructed image *)

(** Nothing, with no executable name seen; the page above the executable's
    name, when no mapping ends there; or the mapping that ends there, named
    ["[stack]"].  Only in the last case can the environment hold anything. *)
Definition stack_state_ok (c : Core) : Prop :=
  match stack c with
  | StackNone => at_execfn c = None /\ env c = ∅
  | StackTop s =>
      (exists v, 0 <= v /\ at_execfn c = Some v /\ s = next_page v) /\
      env c = ∅
  | StackMapping id =>
      exists v m,
        0 <= v /\ at_execfn c = Some v /\ In id (mappings c) /\
        objs c !! id = Some m /\ stop m = next_page v /\
        name m = Some "[stack]"%string
  end.

(** ** The layout of an auxiliary vector *)

Definition encode_auxv (ec : elfclass) (pairs : list (Z * Z)) : list byte :=
  concat (map (fun p => encode_word ec (fst p) ++ encode_word ec (snd p)) pairs).

(** The value of the last pair with the key [AT_EXECFN], if there is one. *)
Definition last_execfn (k : Constants) (pairs : list (Z * Z)) : option Z :=
  foldl (fun acc p => if fst p =? AT_EXECFN k then Some (snd p) else acc)
    None pairs.

(** ** The header fields of a note *)

(** What the header of a note says of its name and its descriptor, next to
    the name and the descriptor themselves. *)
Definition note_lengths (n : Note) : string * Z * list byte * Z :=
  (n_name n, n_namesz n, n_desc n, n_descsz n).

(** ** What the segments add to a table of files *)

(** Start, end and name of the mapping made for a loadable segment that no
    file of the table starts at. *)
Definition segment_mapping_key (s : Segment) : Z * Z * option string :=
  (p_vaddr s, p_vaddr s + p_memsz s, None).

(** A key that some loadable segment of the list gives. *)
Definition loadable (segs : list Segment) (key : Z * Z * option string)
  : Prop :=
  exists s, In s segs /\ p_type s = PT_LOAD /\ key = segment_mapping_key s.

(** ** Further core files *)

(** A mapped-file note with two files, the one that starts higher first. *)
Definition nt_file_unsorted : list byte :=
  encode_nt_file ELFCLASS64 4096
    [(0x3000, 0x4000, 0, "/bin/b"%string);
     (0x1000, 0x2000, 1, "/bin/a"%string)].

(** A mapped-file note with one file, in [0x5000, 0x6000). *)
Definition nt_file_one_lib : list byte :=
  encode_nt_file ELFCLASS64 4096 [(0x5000, 0x6000, 0, "/lib/x"%string)].

(** A core file with two mapped-file notes that name different files, and
    loadable segments at [0x1000], [0x2000] and [0x5000]. *)
Definition core_nt_file_replaced : ElfFile :=
  core_file (encode_note "CORE" 0x46494c45 nt_file_one_lib ++
             encode_note "CORE" 0x46494c45 nt_file_unsorted)
    [load 0x1000 0x1000 5; load 0x2000 0x1000 6; load 0x5000 0x1000 4].

(** A core file with loadable segments and an auxiliary vector, but no
    mapped-file note. *)
Definition core_without_nt_file : ElfFile :=
  core_file (encode_note "CORE" 1 (repeat x41 336) ++
             encode_note "CORE" 6 auxv_execfn)
    [load 0x1000 0x1000 6; load 0x3000 0x1000 5].

(** * Properties *)

(** ** The result monad *)

Lemma bind_Ok {A B} (r : result A) (k : A -> result B) (b : B) :
  bind r k = Ok b -> exists a, r = Ok a /\ k a = Ok b.
Proof. destruct r as [a| |]; simpl; intros H; try discriminate. eauto. Qed.

(** Decompose a hypothesis [x <- r ;; k = Ok b]. *)
Ltac inv_bind H :=
  let a := fresh "a" in
  let Ha := fresh "Ha" in
  apply bind_Ok in H; destruct H as (a & Ha & H).

(** ** Rounding *)

Lemma lor_3 (y : Z) : Z.lor y 3 = 4 * (y / 4) + 3.
Proof.
  assert (Hlow : forall n, 0 <= n -> Z.testbit 3 n = (n <? 2)).
  { intros n Hn. destruct (Z.ltb_spec n 2) as [Hlt|Hge].
    - assert (n = 0 \/ n = 1) as [-> | ->] by lia; reflexivity.
    - replace 3 with (Z.ones 2) by reflexivity.
      apply Z.ones_spec_high. lia. }
  assert (Hhigh : forall n, 0 <= n ->
            Z.testbit (4 * (y / 4)) n = negb (n <? 2) && Z.testbit y n).
  { intros n Hn.
    replace (4 * (y / 4)) with (Z.shiftl (Z.shiftr y 2) 2)
      by (rewrite Z.shiftl_mul_pow2, Z.shiftr_div_pow2 by lia;
          change (2 ^ 2) with 4; lia).
    destruct (Z.ltb_spec n 2) as [Hlt|Hge]; simpl.
    - apply Z.shiftl_spec_low. lia.
    - rewrite Z.shiftl_spec, Z.shiftr_spec by lia. f_equal. lia. }
  assert (Hdisj : Z.land (4 * (y / 4)) 3 = 0).
  { apply Z.bits_inj'. intros n Hn.
    rewrite Z.land_spec, Hhigh, Hlow, Z.bits_0 by lia.
    destruct (n <? 2); simpl; [reflexivity | apply andb_false_r]. }
  rewrite (Z.add_nocarry_lxor _ _ Hdisj), (Z.lxor_lor _ _ Hdisj).
  apply Z.bits_inj'. intros n Hn.
  rewrite !Z.lor_spec, Hhigh, Hlow by lia.
  destruct (n <? 2); simpl; [apply orb_true_r | reflexivity].
Qed.

(** The code's [roundup(n, 2)] is rounding up to a multiple of four. *)
Lemma roundup_2 (n : Z) : roundup n 2 = round_up n 4.
Proof.
  unfold roundup, round_up. change (Z.shiftl 1 2 - 1) with 3.
  rewrite lor_3. replace (n + 4 - 1) with (n - 1 + 1 * 4) by lia.
  rewrite Z.div_add by lia. lia.
Qed.

Lemma round_up_4_bounds (n : Z) : n <= round_up n 4 < n + 4.
Proof.
  unfold round_up.
  pose proof (Z.div_mod (n + 4 - 1) 4 ltac:(lia)).
  pose proof (Z.mod_pos_bound (n + 4 - 1) 4 ltac:(lia)). lia.
Qed.

Lemma roundup_2_nonneg (n : Z) : 0 <= n -> 0 <= roundup n 2.
Proof. rewrite roundup_2. pose proof (round_up_4_bounds n). lia. Qed.

Lemma le_uint_nonneg (bs : list byte) : 0 <= le_uint bs.
Proof.
  induction bs as [|b r IH]; simpl; [lia|].
  unfold byte_val. lia.
Qed.

(** ** One note *)

(** What [read_note] returns, spelled out. *)
Lemma read_note_Ok stream offset note offset' :
  read_note stream offset = Ok (note, offset') ->
  n_offset note = offset /\
  0 <= n_namesz note /\ 0 <= n_descsz note /\
  n_size note = Elf_Nhdr_sizeof + roundup (n_namesz note) 2
                + roundup (n_descsz note) 2 /\
  offset' = offset + n_size note /\
  n_desc note =
    stream_read stream (offset + Elf_Nhdr_sizeof + roundup (n_namesz note) 2)
      (n_descsz note).
Proof.
  unfold read_note, parse_Elf_Nhdr. intros H.
  destruct (Z.of_nat (length (stream_read stream offset Elf_Nhdr_sizeof))
            <? Elf_Nhdr_sizeof); simpl in H; [discriminate|].
  inv_bind H. injection H as <- <-. simpl.
  pose proof (le_uint_nonneg (take 4 (stream_read stream offset Elf_Nhdr_sizeof))).
  pose proof (le_uint_nonneg
                (take 4 (drop 4 (stream_read stream offset Elf_Nhdr_sizeof)))).
  repeat split; try lia; reflexivity.
Qed.

Lemma read_note_advances stream offset note offset' :
  read_note stream offset = Ok (note, offset') ->
  offset + Elf_Nhdr_sizeof <= offset'.
Proof.
  intros H. apply read_note_Ok in H as (_ & Hn & Hd & Hs & -> & _).
  pose proof (roundup_2_nonneg _ Hn). pose proof (roundup_2_nonneg _ Hd).
  unfold Elf_Nhdr_sizeof in *. lia.
Qed.

Lemma read_note_not_OutOfFuel stream offset :
  read_note stream offset <> OutOfFuel.
Proof.
  unfold read_note, parse_Elf_Nhdr.
  destruct (_ <? _); simpl; [discriminate|].
  generalize (stream_read stream (offset + Elf_Nhdr_sizeof)
       (roundup (le_uint (take 4 (stream_read stream offset Elf_Nhdr_sizeof))) 2)).
  intros l.
  assert (Hc : CString_parse l <> OutOfFuel).
  { induction l as [|b r IH]; simpl; [discriminate|].
    destruct (byte_val b =? 0); [discriminate|].
    destruct (CString_parse r); simpl; congruence. }
  destruct (CString_parse l); simpl; congruence.
Qed.

(** ** The note iterator *)

(** Any two bounds that cover the distance to the end give the same run. *)
Lemma iter_notes_loop_enough stream end_ fuel1 :
  forall fuel2 offset,
  (Z.to_nat (end_ - offset) <= fuel1)%nat ->
  (Z.to_nat (end_ - offset) <= fuel2)%nat ->
  iter_notes_loop fuel1 stream offset end_ =
  iter_notes_loop fuel2 stream offset end_.
Proof.
  induction fuel1 as [|fuel1 IH]; intros fuel2 offset H1 H2.
  - destruct fuel2 as [|fuel2]; [reflexivity|]. simpl.
    destruct (Z.ltb_spec offset end_); [lia | reflexivity].
  - destruct fuel2 as [|fuel2]; simpl.
    + destruct (Z.ltb_spec offset end_); [lia | reflexivity].
    + destruct (Z.ltb_spec offset end_); [|reflexivity].
      destruct (read_note stream offset) as [[note offset']| |] eqn:Hr;
        try reflexivity.
      apply read_note_advances in Hr. unfold Elf_Nhdr_sizeof in Hr.
      rewrite (IH fuel2 offset') by lia. reflexivity.
Qed.

(** The loop of [iter_notes], one turn unfolded: the bound inside
    [iter_notes_from] never cuts a run short. *)
Lemma iter_notes_from_unfold stream offset end_ :
  iter_notes_from stream offset end_ =
  if offset <? end_ then
    match read_note stream offset with
    | Ok (note, offset') =>
        (note :: fst (iter_notes_from stream offset' end_),
         snd (iter_notes_from stream offset' end_))
    | Raise e => ([], Some e)
    | OutOfFuel => ([], None)
    end
  else ([], None).
Proof.
  unfold iter_notes_from.
  destruct (Z.ltb_spec offset end_) as [Hlt|Hge].
  - destruct (Z.to_nat (end_ - offset)) as [|n] eqn:En; [lia|]. simpl.
    destruct (Z.ltb_spec offset end_); [|lia].
    destruct (read_note stream offset) as [[note offset']| |] eqn:Hr;
      try reflexivity.
    apply read_note_advances in Hr. unfold Elf_Nhdr_sizeof in Hr.
    rewrite (iter_notes_loop_enough stream end_ n
               (Z.to_nat (end_ - offset')) offset') by lia.
    destruct (iter_notes_loop _ stream offset' end_); reflexivity.
  - replace (Z.to_nat (end_ - offset)) with O by lia. reflexivity.
Qed.

Lemma iter_notes_from_nil stream offset end_ e :
  iter_notes_from stream offset end_ = ([], e) ->
  (end_ <= offset /\ e = None) \/
  (offset < end_ /\ exists x, read_note stream offset = Raise x /\ e = Some x).
Proof.
  rewrite iter_notes_from_unfold.
  destruct (Z.ltb_spec offset end_) as [Hlt|Hge].
  - destruct (read_note stream offset) as [[note offset']| |] eqn:Hr.
    + discriminate.
    + intros [= <-]. right. eauto.
    + destruct (read_note_not_OutOfFuel _ _ Hr).
  - intros [= <-]. left. auto.
Qed.

Lemma iter_notes_from_cons stream offset end_ note notes e :
  iter_notes_from stream offset end_ = (note :: notes, e) ->
  offset < end_ /\
  exists offset', read_note stream offset = Ok (note, offset') /\
                  iter_notes_from stream offset' end_ = (notes, e).
Proof.
  rewrite iter_notes_from_unfold.
  destruct (Z.ltb_spec offset end_) as [Hlt|Hge]; [|discriminate].
  destruct (read_note stream offset) as [[note0 offset']| |] eqn:Hr;
    try discriminate.
  intros [= -> <- <-]. split; [assumption|]. exists offset'. split; [reflexivity|].
  destruct (iter_notes_from stream offset' end_); reflexivity.
Qed.

(** The sizes of the notes of a run that stays inside its range add up to
    what is left of the range. *)
Lemma iter_notes_from_total stream end_ notes :
  forall offset,
  offset <= end_ ->
  iter_notes_from stream offset end_ = (notes, None) ->
  Forall (fun n => n_offset n + n_size n <= end_) notes ->
  Forall (fun n => n_size n = Elf_Nhdr_sizeof + round_up (n_namesz n) 4
                              + round_up (n_descsz n) 4) notes /\
  total_size notes = end_ - offset.
Proof.
  induction notes as [|note notes IH]; intros offset Hle Hrun Hfit.
  - apply iter_notes_from_nil in Hrun as [[Hge _] | (_ & x & _ & Hx)];
      [|discriminate].
    split; [constructor | simpl; lia].
  - apply iter_notes_from_cons in Hrun as (Hlt & offset' & Hr & Hrun).
    apply Forall_cons_iff in Hfit as [Hfit1 Hfit].
    apply read_note_Ok in Hr as (Hoff & _ & _ & Hsize & -> & _).
    rewrite Hoff in Hfit1.
    destruct (IH _ Hfit1 Hrun Hfit) as [IH1 IH2].
    split.
    + constructor; [|assumption]. rewrite Hsize, !roundup_2. reflexivity.
    + simpl. lia.
Qed.

(** When the iteration raises nothing and no note it yields runs past the
    end of the range, the size recorded in every yielded note is the header
    size plus the two rounded lengths, and the sizes add up to the length of
    the range. *)
Lemma iter_notes_fitting_notes_fill_range stream p_offset p_filesz notes :
  0 <= p_filesz ->
  iter_notes stream p_offset p_filesz = (notes, None) ->
  Forall (fun n => n_offset n + n_size n <= p_offset + p_filesz) notes ->
  Forall (fun n => n_size n = Elf_Nhdr_sizeof + round_up (n_namesz n) 4
                              + round_up (n_descsz n) 4) notes /\
  total_size notes = p_filesz.
Proof.
  intros Hsz Hrun Hfit.
  destruct (iter_notes_from_total stream (p_offset + p_filesz) notes p_offset)
    as [H1 H2]; try assumption; [lia|].
  split; [assumption | lia].
Qed.

(** C7, as the code has it.  [iter_notes] compares nothing with the end of
    the range but the offset at which a note starts: a note whose declared
    sizes run past the end of the range is yielded like any other, its name
    and descriptor read from the file beyond the range, as long as the file
    holds its header and a terminated name; it is the last note of the
    range. *)
Theorem iter_notes_no_range_check stream offset end_ note offset' :
  offset < end_ ->
  read_note stream offset = Ok (note, offset') ->
  end_ < offset + n_size note ->
  iter_notes_from stream offset end_ = ([note], None) /\
  n_size note = Elf_Nhdr_sizeof + round_up (n_namesz note) 4
                + round_up (n_descsz note) 4 /\
  n_desc note =
    stream_read stream
      (offset + Elf_Nhdr_sizeof + round_up (n_namesz note) 4) (n_descsz note).
Proof.
  intros Hlt Hr Hcross.
  pose proof (read_note_Ok _ _ _ _ Hr) as (_ & _ & _ & Hs & Ho & Hd).
  split; [|split].
  - rewrite iter_notes_from_unfold.
    destruct (Z.ltb_spec offset end_); [|lia]. rewrite Hr.
    rewrite (iter_notes_from_unfold stream offset' end_).
    destruct (Z.ltb_spec offset' end_); [lia | reflexivity].
  - rewrite Hs, !roundup_2. reflexivity.
  - rewrite Hd, roundup_2. reflexivity.
Qed.

(** A descriptor declared past the end of the range is read all the same,
    and one declared past the end of the file comes back short. *)
Lemma iter_notes_truncated_counterexample :
  (exists note,
     iter_notes (encode_note "CORE" 6 auxv_execfn) 0 20 = ([note], None) /\
     n_descsz note = 32 /\ 20 < n_offset note + n_size note /\
     n_desc note = auxv_execfn) /\
  (exists note,
     iter_notes (take 30 (encode_note "CORE" 6 auxv_execfn)) 0 30
       = ([note], None) /\
     n_descsz note = 32 /\ length (n_desc note) = 10%nat).
Proof.
  split; eexists; (split; [vm_compute; reflexivity|]);
    repeat split; vm_compute; reflexivity.
Qed.

Lemma iter_notes_no_range_check_witness :
  exists note,
    iter_notes_from (encode_note "CORE" 6 auxv_execfn) 0 20 = ([note], None) /\
    n_size note = 52.
Proof.
  eexists. split.
  - refine (proj1 (iter_notes_no_range_check
                     (encode_note "CORE" 6 auxv_execfn) 0 20 _ 52
                     ltac:(lia) ltac:(vm_compute; reflexivity)
                     ltac:(vm_compute; reflexivity))).
  - reflexivity.
Defined.

(** ** Loops *)

Lemma for_each_app {A S} (body : S -> A -> result S) (l1 l2 : list A) (st : S) :
  for_each body (l1 ++ l2) st =
  (st' <- for_each body l1 st ;; for_each body l2 st').
Proof.
  revert st. induction l1 as [|x l1 IH]; intros st; simpl; [reflexivity|].
  destruct (body st x); simpl; auto.
Qed.

(** A property kept by every turn is kept by the loop. *)
Lemma for_each_preserves {A S} (P : S -> Prop) (body : S -> A -> result S) :
  (forall st x st', P st -> body st x = Ok st' -> P st') ->
  forall l st st', P st -> for_each body l st = Ok st' -> P st'.
Proof.
  intros Hbody l. induction l as [|x l IH]; intros st st' HP H; simpl in H.
  - injection H as <-. assumption.
  - inv_bind H. eauto.
Qed.

Lemma stack_loop_preserves (P : Core -> Prop) (R : Core -> result Core) :
  (forall id c, P c -> P (set_stack id c)) ->
  (forall c c', P c -> R c = Ok c' -> P c') ->
  forall ms c c', P c -> stack_loop R ms c = Ok c' -> P c'.
Proof.
  intros Hset HR ms. induction ms as [|id ms IH]; intros c c' HP H; simpl in H.
  - injection H as <-. assumption.
  - destruct (stop_is_stack c id); [|eauto].
    inv_bind H. eauto.
Qed.

(** The constructor's note pass is one loop over [all_notes]. *)
Lemma parse_notes_all_notes k elf sizeof self self' :
  parse_notes k elf sizeof self = Ok self' ->
  for_each (handle_note k elf sizeof) (all_notes elf) self = Ok self'.
Proof.
  unfold parse_notes, all_notes. generalize (segments elf) as segs.
  intros segs. revert self.
  induction segs as [|s segs IH]; intros self H; simpl in *; [assumption|].
  inv_bind H. rewrite for_each_app.
  unfold handle_segment in Ha.
  destruct (p_type s); try (injection Ha as <-; simpl; auto).
  unfold for_generated in Ha. inv_bind Ha. rewrite Ha0. simpl.
  destruct (snd _); [discriminate|]. injection Ha as <-. auto.
Qed.

(** ** What each handler leaves alone *)

Lemma _parse_nt_file_Ok elf self note self' :
  _parse_nt_file elf self note = Ok self' ->
  exists ms addrs,
    build_mappings elf (n_desc note) = Ok (ms, addrs) /\
    self' = mkCore (prstatus self) (NT_PRSTATUS self) ms
              (sorted_by (obj_start ms) (seq 0 (length ms))) addrs
              (stack self) (at_execfn self) (env self).
Proof.
  unfold _parse_nt_file. intros H. inv_bind H. destruct a as [ms addrs].
  injection H as <-. eauto.
Qed.

Lemma auxv_loop_Ok k ec idx :
  forall t self self',
  auxv_loop k ec idx t self = Ok self' ->
  prstatus self' = prstatus self /\ NT_PRSTATUS self' = NT_PRSTATUS self /\
  objs self' = objs self /\ mappings self' = mappings self /\
  addresses self' = addresses self /\ env self' = env self.
Proof.
  induction idx as [|i idx IH]; intros t self self' H; simpl in H.
  - injection H as <-. repeat split.
  - inv_bind H. destruct a as [key t1]. inv_bind H. destruct a as [value t2].
    apply IH in H. destruct (key =? AT_EXECFN k); exact H.
Qed.

Lemma _parse_auxv_Ok k elf self note self' :
  _parse_auxv k elf self note = Ok self' ->
  prstatus self' = prstatus self /\ NT_PRSTATUS self' = NT_PRSTATUS self /\
  objs self' = objs self /\ mappings self' = mappings self /\
  addresses self' = addresses self /\ env self' = env self.
Proof. apply auxv_loop_Ok. Qed.

(** The three steps of [handle_note], one after the other. *)
Lemma handle_note_Ok k elf sizeof self note self' :
  handle_note k elf sizeof self note = Ok self' ->
  exists s1 s2,
    (if is_prstatus_note sizeof note
     then exists st, from_buffer_copy sizeof (n_desc note) = Ok st /\
                     s1 = set_prstatus note st self
     else s1 = self) /\
    (if n_type_is (n_type note) (NT_FILE k)
     then _parse_nt_file elf s1 note = Ok s2
     else s2 = s1) /\
    (if n_type_is (n_type note) (NT_AUXV k)
     then _parse_auxv k elf s2 note = Ok self'
     else self' = s2).
Proof.
  unfold handle_note, is_prstatus_note. intros H.
  inv_bind H. rename a into s1. inv_bind H. rename a into s2.
  exists s1, s2. split; [|split].
  - destruct (_ && _); [|congruence].
    inv_bind Ha. injection Ha as <-. eauto.
  - destruct (n_type_is _ (NT_FILE k)); congruence.
  - destruct (n_type_is _ (NT_AUXV k)); congruence.
Qed.

Lemma from_buffer_copy_Ok sizeof buf st :
  from_buffer_copy sizeof buf = Ok st -> st = take (Z.to_nat sizeof) buf.
Proof.
  unfold from_buffer_copy. destruct (_ <? _); [discriminate|]. congruence.
Qed.

(** A note that passes the process-status test replaces the register state;
    any other note leaves it as it was. *)
Lemma handle_note_prstatus k elf sizeof self note self' :
  handle_note k elf sizeof self note = Ok self' ->
  if is_prstatus_note sizeof note
  then prstatus self' = Some (take (Z.to_nat sizeof) (n_desc note)) /\
       NT_PRSTATUS self' = Some note
  else prstatus self' = prstatus self /\ NT_PRSTATUS self' = NT_PRSTATUS self.
Proof.
  intros H. apply handle_note_Ok in H as (s1 & s2 & H1 & H2 & H3).
  assert (E2 : prstatus s2 = prstatus s1 /\ NT_PRSTATUS s2 = NT_PRSTATUS s1).
  { destruct (n_type_is _ (NT_FILE k)); [|subst; auto].
    apply _parse_nt_file_Ok in H2 as (ms & addrs & _ & ->). auto. }
  assert (E3 : prstatus self' = prstatus s2 /\ NT_PRSTATUS self' = NT_PRSTATUS s2).
  { destruct (n_type_is _ (NT_AUXV k)); [|subst; auto].
    apply _parse_auxv_Ok in H3. tauto. }
  destruct E2 as [E2 E2'], E3 as [E3 E3']. rewrite E3, E3', E2, E2'.
  destruct (is_prstatus_note sizeof note).
  - destruct H1 as (st & Hst & ->). apply from_buffer_copy_Ok in Hst as ->. auto.
  - subst. auto.
Qed.

(** Stack reconstruction changes nothing but [env]. *)
Lemma _parse_stack_Ok fuel mem elf self self' :
  _parse_stack fuel mem elf self = Ok self' ->
  exists e, self' = set_env e self.
Proof.
  unfold _parse_stack. intros H.
  assert (Hid : self = set_env (env self) self) by (destruct self; reflexivity).
  destruct (at_execfn self); [|discriminate].
  destruct (b <- u8 mem (z - 1);; py_assert (b =? 0)) as [u|e|].
  - unfold reconstruct in H. repeat inv_bind H. injection H as <-. eauto.
  - destruct e; try discriminate; injection H as <-; eauto.
  - discriminate.
Qed.

(** ** The constructor *)

Lemma Core_init_Ok k fuel mem elf core :
  Core_init k fuel mem elf = Ok core ->
  elftype elf = ET_CORE /\
  exists sizeof self,
    prstatus_sizeof k (arch elf) = Ok sizeof /\
    parse_notes k elf sizeof Core_new = Ok self /\
    locate_stack (_parse_stack fuel mem elf) self = Ok core.
Proof.
  unfold Core_init. intros H.
  destruct (elftype elf); [|discriminate]. split; [reflexivity|].
  simpl in H. inv_bind H. inv_bind H. inv_bind H. eauto.
Qed.

Lemma locate_stack_preserves (P : Core -> Prop) (R : Core -> result Core) :
  (forall id c, P c -> P (set_stack id c)) ->
  (forall c c', P c -> R c = Ok c' -> P c') ->
  forall c c', P c -> locate_stack R c = Ok c' -> P c'.
Proof.
  intros Hset HR c c' HP. unfold locate_stack.
  destruct (_ && _).
  - eapply stack_loop_preserves; eassumption.
  - intros [= <-]. assumption.
Qed.

(** Locating the stack and rebuilding the environment leave the register
    state alone. *)
Lemma locate_stack_prstatus fuel mem elf self self' :
  locate_stack (_parse_stack fuel mem elf) self = Ok self' ->
  prstatus self' = prstatus self /\ NT_PRSTATUS self' = NT_PRSTATUS self.
Proof.
  apply (locate_stack_preserves
           (fun c => prstatus c = prstatus self /\
                     NT_PRSTATUS c = NT_PRSTATUS self)); auto.
  intros c c' HP H. apply _parse_stack_Ok in H as [e ->]. exact HP.
Qed.

(** Notes that do not pass the process-status test keep the register state. *)
Lemma for_each_handle_note_prstatus k elf sizeof notes :
  Forall (fun m => is_prstatus_note sizeof m = false) notes ->
  forall self self',
  for_each (handle_note k elf sizeof) notes self = Ok self' ->
  prstatus self' = prstatus self /\ NT_PRSTATUS self' = NT_PRSTATUS self.
Proof.
  induction 1 as [|m notes Hm _ IH]; intros self self' H; simpl in H.
  - injection H as <-. auto.
  - inv_bind H. apply handle_note_prstatus in Ha. rewrite Hm in Ha.
    apply IH in H. destruct Ha as [<- <-]. exact H.
Qed.

(** C4, as the code has it.  A core image holds at most one register state,
    and when several notes pass the process-status test (type tag and a
    descriptor size equal to the size of the architecture's register
    layout), the one retained is decoded from the last such note met: every
    qualifying note overwrites what an earlier one left. *)
Theorem prstatus_last_note_wins k fuel mem elf core sizeof pre note post :
  Core_init k fuel mem elf = Ok core ->
  prstatus_sizeof k (arch elf) = Ok sizeof ->
  all_notes elf = pre ++ note :: post ->
  is_prstatus_note sizeof note = true ->
  Forall (fun m => is_prstatus_note sizeof m = false) post ->
  prstatus core = Some (take (Z.to_nat sizeof) (n_desc note)) /\
  NT_PRSTATUS core = Some note.
Proof.
  intros Hinit Hsz Hnotes Hq Hpost.
  apply Core_init_Ok in Hinit as (_ & sizeof' & self & Hsz' & Hparse & Hloc).
  assert (sizeof' = sizeof) as -> by congruence.
  apply parse_notes_all_notes in Hparse.
  rewrite Hnotes, for_each_app in Hparse. inv_bind Hparse.
  simpl in Hparse. inv_bind Hparse.
  apply handle_note_prstatus in Ha0. rewrite Hq in Ha0.
  apply (for_each_handle_note_prstatus _ _ _ _ Hpost) in Hparse.
  apply locate_stack_prstatus in Hloc.
  destruct Hloc as [-> ->], Hparse as [-> ->]. exact Ha0.
Qed.

(** Two qualifying notes: the registers kept are those of the second. *)
Lemma prstatus_first_note_counterexample :
  exists core n1 n2,
    Core_init linux 0 no_memory core_two_prstatus = Ok core /\
    all_notes core_two_prstatus = [n1; n2] /\
    is_prstatus_note 336 n1 = true /\ is_prstatus_note 336 n2 = true /\
    n_desc n1 = repeat x41 336 /\
    prstatus core = Some (repeat x42 336) /\
    prstatus core <> Some (n_desc n1).
Proof.
  do 3 eexists. split; [vm_compute; reflexivity|].
  split; [vm_compute; reflexivity|].
  repeat split; try (vm_compute; reflexivity).
  vm_compute. discriminate.
Qed.

Lemma prstatus_last_note_wins_witness :
  exists core,
    Core_init linux 0 no_memory core_two_prstatus = Ok core /\
    prstatus core = Some (repeat x42 336).
Proof.
  eexists. split; [vm_compute; reflexivity|].
  refine (proj1 (prstatus_last_note_wins linux 0 no_memory core_two_prstatus
                   _ 336 [_] _ []
                   ltac:(vm_compute; reflexivity) ltac:(reflexivity)
                   ltac:(vm_compute; reflexivity) ltac:(vm_compute; reflexivity)
                   ltac:(constructor))).
Defined.

(** ** The mapped-file note *)

(** A mapped-file note replaces the three mapping attributes by what its own
    descriptor and the segments give; any other note leaves them alone. *)
Lemma handle_note_mappings k elf sizeof self note self' :
  handle_note k elf sizeof self note = Ok self' ->
  if n_type_is (n_type note) (NT_FILE k)
  then exists ms addrs,
         build_mappings elf (n_desc note) = Ok (ms, addrs) /\
         objs self' = ms /\
         mappings self' = sorted_by (obj_start ms) (seq 0 (length ms)) /\
         addresses self' = addrs
  else objs self' = objs self /\ mappings self' = mappings self /\
       addresses self' = addresses self.
Proof.
  intros H. apply handle_note_Ok in H as (s1 & s2 & H1 & H2 & H3).
  assert (E1 : objs s1 = objs self /\ mappings s1 = mappings self /\
               addresses s1 = addresses self).
  { destruct (is_prstatus_note sizeof note); [|subst; auto].
    destruct H1 as (st & _ & ->). auto. }
  assert (E3 : objs self' = objs s2 /\ mappings self' = mappings s2 /\
               addresses self' = addresses s2).
  { destruct (n_type_is _ (NT_AUXV k)); [|subst; auto].
    apply _parse_auxv_Ok in H3. tauto. }
  destruct E1 as (E1 & E1' & E1''), E3 as (-> & -> & ->).
  destruct (n_type_is _ (NT_FILE k)).
  - apply _parse_nt_file_Ok in H2 as (ms & addrs & Hb & ->). simpl.
    exists ms, addrs. auto.
  - subst s2. auto.
Qed.

Lemma for_each_handle_note_mappings k elf sizeof notes :
  Forall (fun m => n_type_is (n_type m) (NT_FILE k) = false) notes ->
  forall self self',
  for_each (handle_note k elf sizeof) notes self = Ok self' ->
  objs self' = objs self /\ mappings self' = mappings self /\
  addresses self' = addresses self.
Proof.
  induction 1 as [|m notes Hm _ IH]; intros self self' H; simpl in H.
  - injection H as <-. auto.
  - inv_bind H. apply handle_note_mappings in Ha. rewrite Hm in Ha.
    apply IH in H. destruct Ha as (<- & <- & <-). exact H.
Qed.

(** After the note pass the store, the mapping list and the index are what
    the descriptor of the last mapped-file note and the segments give,
    whatever state the pass started from and whatever notes came before. *)
Lemma parse_notes_last_nt_file k elf sizeof self0 self pre note post :
  parse_notes k elf sizeof self0 = Ok self ->
  all_notes elf = pre ++ note :: post ->
  n_type_is (n_type note) (NT_FILE k) = true ->
  Forall (fun m => n_type_is (n_type m) (NT_FILE k) = false) post ->
  exists ms addrs,
    build_mappings elf (n_desc note) = Ok (ms, addrs) /\
    objs self = ms /\
    mappings self = sorted_by (obj_start ms) (seq 0 (length ms)) /\
    addresses self = addrs.
Proof.
  intros Hparse Hnotes Hq Hpost.
  apply parse_notes_all_notes in Hparse.
  rewrite Hnotes, for_each_app in Hparse. inv_bind Hparse.
  simpl in Hparse. inv_bind Hparse.
  apply handle_note_mappings in Ha0. rewrite Hq in Ha0.
  apply (for_each_handle_note_mappings _ _ _ _ Hpost) in Hparse.
  destruct Hparse as (-> & -> & ->). exact Ha0.
Qed.

(** ** Sorting *)

Lemma insert_by_Permutation {A} (key : A -> Z) (x : A) (l : list A) :
  Permutation (insert_by key x l) (x :: l).
Proof.
  induction l as [|y r IH]; simpl; [reflexivity|].
  destruct (key y <? key x); [|reflexivity].
  rewrite IH. apply perm_swap.
Qed.

Lemma sorted_by_Permutation {A} (key : A -> Z) (l : list A) :
  Permutation (sorted_by key l) l.
Proof.
  induction l as [|x l IH]; simpl; [reflexivity|].
  fold (sorted_by key l). rewrite insert_by_Permutation, IH. reflexivity.
Qed.

Lemma insert_by_sorted {A} (key : A -> Z) (x : A) (l : list A) :
  StronglySorted (fun a b => key a <= key b) l ->
  StronglySorted (fun a b => key a <= key b) (insert_by key x l).
Proof.
  induction 1 as [|y r Hr IH Hy]; simpl.
  - repeat constructor.
  - destruct (Z.ltb_spec (key y) (key x)) as [Hlt|Hge].
    + constructor; [assumption|].
      apply List.Forall_forall. intros z Hz.
      apply (Permutation_in _ (insert_by_Permutation key x r)) in Hz.
      destruct Hz as [<- | Hz]; [lia|].
      rewrite List.Forall_forall in Hy. exact (Hy z Hz).
    + constructor; [constructor; assumption|].
      constructor; [assumption|].
      eapply List.Forall_impl; [|exact Hy]. simpl. intros; lia.
Qed.

(** [sorted] returns its argument in ascending order of the key. *)
Lemma sorted_by_sorted {A} (key : A -> Z) (l : list A) :
  StronglySorted (fun a b => key a <= key b) (sorted_by key l).
Proof.
  induction l as [|x l IH]; simpl; [constructor|].
  apply insert_by_sorted. exact IH.
Qed.

(** ** The order of the mapping list *)

Lemma sorted_ids_ok (ms : list Mapping) :
  Forall (fun id => (id < length ms)%nat)
    (sorted_by (obj_start ms) (seq 0 (length ms))).
Proof.
  apply List.Forall_forall. intros id Hid.
  apply (Permutation_in _ (sorted_by_Permutation _ _)) in Hid.
  apply in_seq in Hid. lia.
Qed.

Lemma obj_start_set_name n id (ms : list Mapping) j :
  obj_start (alter (set_name n) id ms) j = obj_start ms j.
Proof.
  unfold obj_start. destruct (decide (id = j)) as [->|Hne].
  - rewrite list_lookup_alter_eq. destruct (ms !! j); reflexivity.
  - rewrite list_lookup_alter_ne by assumption. reflexivity.
Qed.

Lemma mappings_ok_set_stack id c : mappings_ok c -> mappings_ok (set_stack id c).
Proof.
  unfold mappings_ok. simpl. intros [Hlive Hsorted]. split.
  - rewrite length_alter. exact Hlive.
  - eapply StronglySorted_ind with (l := mappings c); [constructor| |exact Hsorted].
    intros a l Hl IH Ha. constructor; [exact IH|].
    eapply List.Forall_impl; [|exact Ha].
    simpl. intros b Hb. rewrite !obj_start_set_name. exact Hb.
Qed.

Lemma mappings_ok_handle_note k elf sizeof self note self' :
  mappings_ok self -> handle_note k elf sizeof self note = Ok self' ->
  mappings_ok self'.
Proof.
  intros Hok H. apply handle_note_mappings in H. unfold mappings_ok.
  destruct (n_type_is _ (NT_FILE k)).
  - destruct H as (ms & addrs & _ & -> & -> & _). split.
    + apply sorted_ids_ok.
    + apply sorted_by_sorted.
  - destruct H as (-> & -> & _). exact Hok.
Qed.

(** The invariant holds on every constructed [Core]. *)
Lemma Core_init_mappings_ok k fuel mem elf core :
  Core_init k fuel mem elf = Ok core -> mappings_ok core.
Proof.
  intros H. apply Core_init_Ok in H as (_ & sizeof & self & _ & Hparse & Hloc).
  apply parse_notes_all_notes in Hparse.
  assert (Hself : mappings_ok self).
  { assert (H0 : mappings_ok Core_new) by (split; constructor).
    exact (for_each_preserves mappings_ok _
             (mappings_ok_handle_note k elf sizeof) _ _ _ H0 Hparse). }
  eapply (locate_stack_preserves mappings_ok); [| |exact Hself|exact Hloc].
  - intros id c. apply mappings_ok_set_stack.
  - intros c c' Hc Hs. apply _parse_stack_Ok in Hs as [e ->]. exact Hc.
Qed.

Lemma mapping_list_Forall (ms : list Mapping) (P : Z -> Prop) (ids : list nat) :
  Forall (fun j => P (obj_start ms j)) ids ->
  Forall (fun b => P (start b)) (omap (fun id => ms !! id) ids).
Proof.
  induction 1 as [|j ids Hj _ IH]; simpl; [constructor|].
  unfold obj_start in Hj.
  destruct (ms !! j) as [b|]; [constructor|]; assumption.
Qed.

Lemma mappings_ok_weakly_sorted c :
  mappings_ok c -> weakly_sorted (mapping_list c).
Proof.
  unfold mappings_ok, weakly_sorted, mapping_list.
  generalize (objs c) as ms, (mappings c) as ids. intros ms ids [_ Hsorted].
  induction Hsorted as [|id ids _ IH Hid]; simpl; [constructor|].
  destruct (ms !! id) as [m|] eqn:Hm; [|exact IH].
  constructor; [exact IH|].
  apply (mapping_list_Forall ms (fun s => start m <= s)).
  unfold obj_start in Hid at 1. rewrite Hm in Hid. exact Hid.
Qed.

(** C1, as the code has it.  On every constructed core image the mapping
    list is in ascending order of start address, equal start addresses
    allowed; the code checks neither that the start addresses differ nor
    that the mappings are disjoint. *)
Theorem mappings_weakly_sorted k fuel mem elf core :
  Core_init k fuel mem elf = Ok core ->
  weakly_sorted (mapping_list core) /\
  length (mapping_list core) = length (mappings core).
Proof.
  intros H. apply Core_init_mappings_ok in H. split.
  - apply mappings_ok_weakly_sorted. exact H.
  - destruct H as [Hlive _]. unfold mapping_list.
    induction Hlive as [|id ids Hid _ IH]; simpl; [reflexivity|].
    apply lookup_lt_is_Some_2 in Hid as [m Hm]. rewrite Hm. simpl.
    f_equal. exact IH.
Qed.

(** Two files mapped at the same address and a loadable segment inside the
    first: the list is neither strictly sorted nor free of overlaps. *)
Lemma mappings_strictly_sorted_counterexample :
  exists core,
    Core_init linux 0 no_memory core_shared_start = Ok core /\
    mapping_list core =
      [mkMapping (Some "/bin/a") 0x1000 0x3000 0x2000 0;
       mkMapping (Some "/bin/b") 0x1000 0x2000 0x1000 5;
       mkMapping None 0x2000 0x3000 0x1000 6] /\
    ~ strictly_sorted (mapping_list core) /\
    ~ non_overlapping (mapping_list core).
Proof.
  eexists. split; [vm_compute; reflexivity|].
  split; [vm_compute; reflexivity|].
  match goal with |- ~ strictly_sorted ?l /\ _ =>
    let l' := eval vm_compute in l in change l with l' end.
  split.
  - intros Hs. inversion Hs as [|? ? _ Hall]. subst.
    inversion Hall as [|? ? Hlt _]. simpl in Hlt. lia.
  - intros Hn. inversion Hn as [|? ? Hall _]. subst.
    inversion Hall as [|? ? Hov _]. simpl in Hov. lia.
Qed.

Lemma mappings_weakly_sorted_witness :
  exists core,
    Core_init linux 0 no_memory core_shared_start = Ok core /\
    weakly_sorted (mapping_list core).
Proof.
  eexists. split; [vm_compute; reflexivity|].
  refine (proj1 (mappings_weakly_sorted linux 0 no_memory core_shared_start _
                   ltac:(vm_compute; reflexivity))).
Defined.

(** ** The auxiliary vector *)

Lemma tube_unpack_Ok ec (t : list byte) :
  (Z.to_nat (bytes ec) <= length t)%nat ->
  tube_unpack ec t =
    Ok (le_uint (take (Z.to_nat (bytes ec)) t), drop (Z.to_nat (bytes ec)) t).
Proof.
  intros H. unfold tube_unpack.
  destruct (Nat.ltb_spec (length t) (Z.to_nat (bytes ec))); [lia | reflexivity].
Qed.

Lemma tube_unpack_short ec (t : list byte) :
  (length t < Z.to_nat (bytes ec))%nat -> tube_unpack ec t = Raise EOFError.
Proof.
  intros H. unfold tube_unpack.
  destruct (Nat.ltb_spec (length t) (Z.to_nat (bytes ec))); [reflexivity | lia].
Qed.

(** The loop of [_parse_auxv] returns when the descriptor holds a pair for
    every turn. *)
Lemma auxv_loop_enough k ec idx :
  forall (t : list byte) self,
  (length idx * (2 * Z.to_nat (bytes ec)) <= length t)%nat ->
  exists self', auxv_loop k ec idx t self = Ok self'.
Proof.
  induction idx as [|i idx IH]; intros t self Hlen; simpl in *; [eauto|].
  rewrite tube_unpack_Ok by lia. simpl.
  rewrite tube_unpack_Ok by (rewrite length_drop; lia). simpl.
  apply IH. rewrite !length_drop. lia.
Qed.

(** It raises when the descriptor ends inside a turn. *)
Lemma auxv_loop_short k ec idx :
  forall (t : list byte) self,
  (length t < length idx * (2 * Z.to_nat (bytes ec)))%nat ->
  auxv_loop k ec idx t self = Raise EOFError.
Proof.
  induction idx as [|i idx IH]; intros t self Hlen; simpl in *; [lia|].
  destruct (Nat.ltb_spec (length t) (Z.to_nat (bytes ec))) as [Hs|Hs].
  { rewrite tube_unpack_short by assumption. reflexivity. }
  rewrite tube_unpack_Ok by assumption. simpl.
  destruct (Nat.ltb_spec (length (drop (Z.to_nat (bytes ec)) t))
              (Z.to_nat (bytes ec))) as [Hs2|Hs2].
  { rewrite tube_unpack_short by assumption. reflexivity. }
  rewrite tube_unpack_Ok by assumption. simpl.
  apply IH. rewrite !length_drop in *. lia.
Qed.

Lemma py_range_length (stop step : Z) :
  0 < step -> 0 <= stop ->
  Z.of_nat (length (py_range 0 stop step)) = (stop + step - 1) / step.
Proof.
  intros Hstep Hstop. unfold py_range.
  destruct (Z.leb_spec stop 0) as [Hle|Hgt].
  - assert (stop = 0) as -> by lia. simpl.
    symmetry. apply Z.div_small. lia.
  - rewrite length_map, length_seq, Z.sub_0_r, Z2Nat.id; [reflexivity|].
    apply Z.div_pos; lia.
Qed.

(** C9, as the code has it.  The loop of [_parse_auxv] makes one turn for
    every started pair of the descriptor and reads a key and a value in each.
    A descriptor of an even number of pointer-width words is consumed as
    pairs and decoding returns; with an odd number of words the last word is
    read as a key, and reading its value raises. *)
Theorem _parse_auxv_by_parity k elf self note words :
  0 <= words ->
  n_descsz note = words * bytes (ei_class elf) ->
  Z.of_nat (length (n_desc note)) = n_descsz note ->
  if Z.even words
  then exists self', _parse_auxv k elf self note = Ok self'
  else _parse_auxv k elf self note = Raise EOFError.
Proof.
  intros Hw Hsz Hlen. unfold _parse_auxv.
  assert (Hb : bytes (ei_class elf) = 4 \/ bytes (ei_class elf) = 8)
    by (destruct (ei_class elf); auto).
  pose proof (py_range_length (n_descsz note) (bytes (ei_class elf) * 2)
                ltac:(lia) ltac:(nia)) as Hr.
  destruct (Z.even words) eqn:He.
  - apply Z.even_spec in He as [p ->].
    apply auxv_loop_enough.
    assert (Z.of_nat (length (py_range 0 (n_descsz note)
                                (bytes (ei_class elf) * 2))) = p).
    { rewrite Hr, Hsz. symmetry.
      destruct Hb as [-> | ->];
        [apply Z.div_unique_pos with (r := 7)
        |apply Z.div_unique_pos with (r := 15)]; lia. }
    destruct Hb as [Hb | Hb]; rewrite Hb in *; nia.
  - assert (Ho : Z.odd words = true) by (rewrite <- Z.negb_even, He; reflexivity).
    apply Z.odd_spec in Ho as [p ->].
    apply auxv_loop_short.
    assert (Z.of_nat (length (py_range 0 (n_descsz note)
                                (bytes (ei_class elf) * 2))) = p + 1).
    { rewrite Hr, Hsz. symmetry.
      destruct Hb as [-> | ->];
        [apply Z.div_unique_pos with (r := 3)
        |apply Z.div_unique_pos with (r := 7)]; lia. }
    destruct Hb as [Hb | Hb]; rewrite Hb in *; nia.
Qed.

(** A descriptor of three words: the decoder raises, and so does the
    constructor. *)
Lemma _parse_auxv_odd_counterexample :
  exists note,
    all_notes core_odd_auxv = [note] /\
    n_descsz note = 3 * 8 /\ length (n_desc note) = 24%nat /\
    _parse_auxv linux core_odd_auxv Core_new note = Raise EOFError /\
    Core_init linux 0 no_memory core_odd_auxv = Raise EOFError.
Proof.
  eexists. split; [vm_compute; reflexivity|].
  repeat split; vm_compute; reflexivity.
Qed.

Lemma _parse_auxv_by_parity_witness :
  (exists self',
     _parse_auxv linux core_with_stack Core_new
       (mkNote 5 32 (NT_int 6) 36 "CORE" auxv_execfn 52) = Ok self') /\
  _parse_auxv linux core_odd_auxv Core_new
    (mkNote 5 24 (NT_int 6) 0 "CORE"
       (le_encode 8 31 ++ le_encode 8 0x1ff0 ++ le_encode 8 0) 44)
    = Raise EOFError.
Proof.
  split.
  - exact (_parse_auxv_by_parity linux core_with_stack Core_new
             (mkNote 5 32 (NT_int 6) 36 "CORE" auxv_execfn 52) 4
             ltac:(lia) ltac:(reflexivity) ltac:(reflexivity)).
  - exact (_parse_auxv_by_parity linux core_odd_auxv Core_new
             (mkNote 5 24 (NT_int 6) 0 "CORE"
                (le_encode 8 31 ++ le_encode 8 0x1ff0 ++ le_encode 8 0) 44) 3
             ltac:(lia) ltac:(reflexivity) ltac:(reflexivity)).
Defined.

(** ** Locating the stack *)

Lemma stop_is_stack_StackMapping self id j :
  stack self = StackMapping id -> stop_is_stack self j = false.
Proof. unfold stop_is_stack. intros ->. reflexivity. Qed.

Lemma stack_loop_no_match (R : Core -> result Core) ms self :
  Forall (fun j => stop_is_stack self j = false) ms ->
  stack_loop R ms self = Ok self.
Proof.
  induction 1 as [|j ms Hj _ IH]; simpl; [reflexivity|].
  rewrite Hj. exact IH.
Qed.

Lemma stack_loop_skip (R : Core -> result Core) pre ms self :
  Forall (fun j => stop_is_stack self j = false) pre ->
  stack_loop R (pre ++ ms) self = stack_loop R ms self.
Proof.
  induction 1 as [|j pre Hj _ IH]; simpl; [reflexivity|].
  rewrite Hj. exact IH.
Qed.

(** No mapping of the list ends at the address: the test fails on every
    reference. *)
Lemma no_stop_no_match self a ids :
  stack self = StackTop a ->
  Forall (fun m => stop m <> a) (omap (fun id => objs self !! id) ids) ->
  Forall (fun j => stop_is_stack self j = false) ids.
Proof.
  intros Hst. unfold stop_is_stack. rewrite Hst.
  induction ids as [|j ids IH]; simpl; intros H; [constructor|].
  destruct (objs self !! j) as [m|] eqn:Hj.
  - apply Forall_cons_iff in H as [Hm H].
    constructor; [rewrite Hj; apply Z.eqb_neq; exact Hm | exact (IH H)].
  - constructor; [rewrite Hj; reflexivity | exact (IH H)].
Qed.

(** C6, as the code has it.  When the note pass left a stack-top address
    and a non-empty mapping list, the constructor looks for the first
    mapping whose end address equals that address.  If there is one, its
    name becomes ["[stack]"], it becomes the stack mapping of the image, and
    the reconstructor runs, once, on that state.  If no mapping ends at the
    address, the image is left as it is and the reconstructor is not called,
    whatever it would do. *)
Theorem stack_is_mapping_ending_at_anchor fuel mem elf self a :
  stack self = StackTop a ->
  a <> 0 ->
  mappings self <> [] ->
  (forall pre id post m,
     mappings self = pre ++ id :: post ->
     Forall (fun m' => stop m' <> a) (omap (fun j => objs self !! j) pre) ->
     objs self !! id = Some m ->
     stop m = a ->
     locate_stack (_parse_stack fuel mem elf) self =
       _parse_stack fuel mem elf (set_stack id self) /\
     stack (set_stack id self) = StackMapping id /\
     objs (set_stack id self) !! id = Some (set_name "[stack]" m)) /\
  (forall R,
     Forall (fun m => stop m <> a) (mapping_list self) ->
     locate_stack R self = Ok self).
Proof.
  intros Hst Ha Hne.
  assert (Hgo : forall R, locate_stack R self = stack_loop R (mappings self) self).
  { intros R. unfold locate_stack. rewrite Hst. simpl.
    destruct (Z.eqb_spec a 0); [contradiction|].
    rewrite bool_decide_eq_false_2 by assumption. reflexivity. }
  split.
  - intros pre id post m Hms Hpre Hm Hstop. split; [|split].
    + rewrite Hgo, Hms.
      rewrite (stack_loop_skip _ pre) by (eapply no_stop_no_match; eassumption).
      simpl. unfold stop_is_stack at 1. rewrite Hst, Hm.
      rewrite (proj2 (Z.eqb_eq _ _) Hstop).
      destruct (_parse_stack fuel mem elf (set_stack id self)) as [c| |] eqn:Hr;
        try reflexivity.
      simpl. apply _parse_stack_Ok in Hr as [e ->].
      apply stack_loop_no_match.
      apply List.Forall_forall. intros j _.
      apply (stop_is_stack_StackMapping _ id). reflexivity.
    + reflexivity.
    + simpl. rewrite list_lookup_alter_eq, Hm. reflexivity.
  - intros R Hnone. rewrite Hgo. apply stack_loop_no_match.
    eapply no_stop_no_match; eassumption.
Qed.

(** A mapping that holds the stack-top address without ending there is not
    taken for the stack and the reconstructor is not called; a mapping that
    ends at the address, and so does not hold it, is taken. *)
Lemma stack_containing_anchor_counterexample :
  (exists self m,
     parse_notes linux core_anchor_inside 336 Core_new = Ok self /\
     stack self = StackTop 0x2000 /\
     mapping_list self = [m] /\ contains m 0x2000 /\
     locate_stack (fun _ => Raise AssertionError) self = Ok self /\
     Core_init linux 64 good_stack core_anchor_inside = Ok self) /\
  (exists self m,
     parse_notes linux core_with_stack 336 Core_new = Ok self /\
     stack self = StackTop 0x2000 /\
     mapping_list self = [m] /\ ~ contains m 0x2000 /\
     locate_stack (fun _ => Raise AssertionError) self = Raise AssertionError).
Proof.
  split; do 2 eexists; (split; [vm_compute; reflexivity|]);
    (split; [vm_compute; reflexivity|]);
    (split; [vm_compute; reflexivity|]).
  - split; [unfold contains; simpl; lia|].
    split; vm_compute; reflexivity.
  - split; [unfold contains; simpl; lia|].
    vm_compute; reflexivity.
Qed.

Lemma stack_is_mapping_ending_at_anchor_witness :
  exists self,
    parse_notes linux core_with_stack 336 Core_new = Ok self /\
    locate_stack (_parse_stack 64 good_stack core_with_stack) self =
      _parse_stack 64 good_stack core_with_stack (set_stack 0 self).
Proof.
  eexists. split; [vm_compute; reflexivity|].
  match goal with
  | |- locate_stack _ ?s = _ =>
      refine (proj1 (proj1 (stack_is_mapping_ending_at_anchor
                              64 good_stack core_with_stack s 0x2000
                              ltac:(reflexivity) ltac:(lia) ltac:(discriminate))
                       [] 0%nat [] (mkMapping None 0x1000 0x2000 0x1000 6)
                       ltac:(reflexivity) ltac:(constructor)
                       ltac:(reflexivity) ltac:(reflexivity)))
  end.
Defined.

(** ** Fuel *)

Lemma settles_refl {A} (r : result A) : settles r r.
Proof. intros _. reflexivity. Qed.

Lemma settles_bind {A B} (r r' : result A) (k k' : A -> result B) :
  settles r r' -> (forall a, settles (k a) (k' a)) ->
  settles (bind r k) (bind r' k').
Proof.
  unfold settles. intros Hr Hk H. destruct r as [a|e|]; simpl in *.
  - rewrite Hr by discriminate. simpl. apply Hk. exact H.
  - rewrite Hr by discriminate. reflexivity.
  - contradiction.
Qed.

(** Goals of the form [settles (f (S n)) (f (S m))], one turn of a loop. *)
Ltac settle IH :=
  repeat first
    [ apply settles_refl
    | apply IH; lia
    | apply settles_bind; [|intros ?]
    | match goal with
      | |- settles (if ?c then _ else _) (if ?c then _ else _) => destruct c
      | |- settles (match ?x with _ => _ end) (match ?x with _ => _ end) =>
          destruct x
      end ].

Lemma out_of_fuel_settles {A} (r : result A) : settles OutOfFuel r.
Proof. intros H. contradiction. Qed.

Lemma mem_string_mono mem n :
  forall m address, (n <= m)%nat ->
  settles (mem_string n mem address) (mem_string m mem address).
Proof.
  induction n as [|n IH]; intros m address Hle; [apply out_of_fuel_settles|].
  destruct m as [|m]; [lia|]. simpl. settle IH.
Qed.

Lemma scan_env_start_mono mem n :
  forall m address, (n <= m)%nat ->
  settles (scan_env_start n mem address) (scan_env_start m mem address).
Proof.
  induction n as [|n IH]; intros m address Hle; [apply out_of_fuel_settles|].
  destruct m as [|m]; [lia|]. simpl. settle IH.
Qed.

Lemma scan_envp_last_mono mem ec last n :
  forall m address, (n <= m)%nat ->
  settles (scan_envp_last n mem ec last address)
          (scan_envp_last m mem ec last address).
Proof.
  induction n as [|n IH]; intros m address Hle; [apply out_of_fuel_settles|].
  destruct m as [|m]; [lia|]. simpl. settle IH.
Qed.

Lemma scan_envp_first_mono mem ec n :
  forall m address, (n <= m)%nat ->
  settles (scan_envp_first n mem ec address) (scan_envp_first m mem ec address).
Proof.
  induction n as [|n IH]; intros m address Hle; [apply out_of_fuel_settles|].
  destruct m as [|m]; [lia|]. simpl. settle IH.
Qed.

Lemma fill_env_mono mem ec n m slots :
  (n <= m)%nat ->
  forall e, settles (fill_env n mem ec slots e) (fill_env m mem ec slots e).
Proof.
  intros Hle. induction slots as [|slot slots IH]; intros e; simpl.
  - apply settles_refl.
  - apply settles_bind; [apply settles_refl|]. intros envaddr.
    apply settles_bind; [apply mem_string_mono; exact Hle|]. intros value.
    apply IH.
Qed.

Lemma reconstruct_mono mem ec self address n m :
  (n <= m)%nat ->
  settles (reconstruct n mem ec self address) (reconstruct m mem ec self address).
Proof.
  intros Hle. unfold reconstruct.
  apply settles_bind; [apply scan_env_start_mono; exact Hle|]. intros a1.
  apply settles_bind; [apply scan_envp_last_mono; exact Hle|]. intros a2.
  apply settles_bind; [apply settles_refl|]. intros w.
  apply settles_bind; [apply settles_refl|]. intros _.
  apply settles_bind; [apply scan_envp_first_mono; exact Hle|]. intros a3.
  apply settles_bind; [apply fill_env_mono; exact Hle|]. intros e.
  apply settles_refl.
Qed.

Lemma _parse_stack_mono mem elf self n m :
  (n <= m)%nat ->
  settles (_parse_stack n mem elf self) (_parse_stack m mem elf self).
Proof.
  intros Hle. unfold _parse_stack.
  destruct (at_execfn self); [|apply settles_refl].
  destruct (b <- u8 mem (z - 1);; py_assert (b =? 0));
    try apply settles_refl.
  apply reconstruct_mono. exact Hle.
Qed.

Lemma stack_loop_settles (R R' : Core -> result Core) :
  (forall c, settles (R c) (R' c)) ->
  forall ms c, settles (stack_loop R ms c) (stack_loop R' ms c).
Proof.
  intros HR ms. induction ms as [|id ms IH]; intros c; simpl.
  - apply settles_refl.
  - destruct (stop_is_stack c id); [|apply IH].
    apply settles_bind; [apply HR | exact IH].
Qed.

(** An outcome of the constructor other than [OutOfFuel] stays the outcome
    with any larger bound: it is the behaviour of the program. *)
Lemma Core_init_mono k mem elf n m :
  (n <= m)%nat -> settles (Core_init k n mem elf) (Core_init k m mem elf).
Proof.
  intros Hle. unfold Core_init.
  apply settles_bind; [apply settles_refl|]. intros _.
  apply settles_bind; [apply settles_refl|]. intros _.
  apply settles_bind; [apply settles_refl|]. intros sizeof.
  apply settles_bind; [apply settles_refl|]. intros self.
  unfold locate_stack. destruct (_ && _); [|apply settles_refl].
  apply stack_loop_settles. intros c. apply _parse_stack_mono. exact Hle.
Qed.

Lemma getenv_mono mem self name n m :
  (n <= m)%nat -> settles (getenv n mem self name) (getenv m mem self name).
Proof.
  intros Hle. unfold getenv.
  apply settles_bind; [apply settles_refl|]. intros _.
  apply settles_bind; [apply settles_refl|]. intros address.
  apply settles_bind; [apply mem_string_mono; exact Hle|]. intros value.
  apply settles_refl.
Qed.

(** ** Stack reconstruction *)

(** On a stack laid out as expected the environment is recovered: the names
    map to the addresses of their strings. *)
Example good_stack_environment :
  exists core,
    Core_init linux 64 good_stack core_with_stack = Ok core /\
    stack core = StackMapping 0 /\
    env core !! "X"%string = Some 0x1fe8 /\
    env core !! "A"%string = Some 0x1fec /\
    env core !! "PATH"%string = None.
Proof.
  eexists. split; [vm_compute; reflexivity|].
  repeat split; vm_compute; reflexivity.
Qed.

(** The first read of [_parse_stack] is guarded: when the byte before the
    executable's name is not in the dump, reconstruction returns at once and
    changes nothing. *)
Lemma _parse_stack_first_read_unmapped fuel mem elf self x :
  at_execfn self = Some x -> mem (x - 1) = None ->
  _parse_stack fuel mem elf self = Ok self.
Proof.
  intros Hx Hm. unfold _parse_stack, u8. rewrite Hx, Hm. reflexivity.
Qed.

Lemma handle_note_env k elf sizeof self note self' :
  handle_note k elf sizeof self note = Ok self' -> env self' = env self.
Proof.
  intros H. apply handle_note_Ok in H as (s1 & s2 & H1 & H2 & H3).
  assert (E1 : env s1 = env self).
  { destruct (is_prstatus_note sizeof note); [|subst; auto].
    destruct H1 as (st & _ & ->). reflexivity. }
  assert (E2 : env s2 = env s1).
  { destruct (n_type_is _ (NT_FILE k)); [|subst; auto].
    apply _parse_nt_file_Ok in H2 as (ms & addrs & _ & ->). reflexivity. }
  assert (E3 : env self' = env s2).
  { destruct (n_type_is _ (NT_AUXV k)); [|subst; auto].
    apply _parse_auxv_Ok in H3. tauto. }
  congruence.
Qed.

Lemma parse_notes_env k elf sizeof self self' :
  parse_notes k elf sizeof self = Ok self' -> env self' = env self.
Proof.
  intros H. apply parse_notes_all_notes in H.
  apply (for_each_preserves (fun c => env c = env self)
           (handle_note k elf sizeof)) with (l := all_notes elf) (st := self);
    [|reflexivity|exact H].
  intros st x st' Hst Hx. apply handle_note_env in Hx. congruence.
Qed.

(** A loop whose reconstructor always returns, returns. *)
Lemma stack_loop_total (P : Core -> Prop) (R : Core -> result Core) :
  (forall id c, P c -> P (set_stack id c)) ->
  (forall c, P c -> exists c', R c = Ok c' /\ P c') ->
  forall ms c, P c -> exists c', stack_loop R ms c = Ok c' /\ P c'.
Proof.
  intros Hset HR ms. induction ms as [|id ms IH]; intros c HP; simpl; [eauto|].
  destruct (stop_is_stack c id); [|auto].
  destruct (HR _ (Hset id _ HP)) as (c' & -> & HP'). simpl. auto.
Qed.

(** The missing-stack scenario: when the byte before the executable's name
    is not in the dump, the constructor returns an image with an empty
    environment. *)
Lemma missing_stack_is_silent k fuel mem elf sizeof self x :
  elftype elf = ET_CORE ->
  prstatus_sizeof k (arch elf) = Ok sizeof ->
  parse_notes k elf sizeof Core_new = Ok self ->
  at_execfn self = Some x ->
  mem (x - 1) = None ->
  exists core, Core_init k fuel mem elf = Ok core /\ env core = ∅.
Proof.
  intros Htype Hsz Hparse Hx Hm. unfold Core_init. rewrite Htype. simpl.
  assert (Harch : match arch elf with
                  | arch_other => Raise NameError
                  | _ => Ok tt
                  end = Ok tt).
  { destruct (arch elf); try reflexivity. discriminate. }
  rewrite Harch, Hsz. simpl. rewrite Hparse. simpl.
  pose proof (parse_notes_env _ _ _ _ _ Hparse) as He. simpl in He.
  unfold locate_stack. destruct (_ && _); [|eauto].
  destruct (stack_loop_total
              (fun c => at_execfn c = Some x /\ env c = ∅)
              (_parse_stack fuel mem elf)) with (ms := mappings self) (c := self)
    as (core & Hcore & _ & Henv); auto.
  - intros c [Hc1 Hc2]. exists c.
    rewrite (_parse_stack_first_read_unmapped _ _ _ _ x); auto.
  - eauto.
Qed.

(** C3 on the code.  A dump that holds the end of the stack but not the
    bytes below the last environment string: the first read succeeds, a later
    read in the backward scan fails, and the [ValueError] leaves the
    constructor.  Only the first read of [_parse_stack] is inside the
    [try]. *)
Theorem later_read_failure_escapes fuel :
  (8 <= fuel)%nat ->
  Core_init linux fuel truncated_stack core_with_stack = Raise ValueError.
Proof.
  intros Hle.
  pose proof (Core_init_mono linux truncated_stack core_with_stack 8 fuel Hle)
    as Hmono.
  assert (E : Core_init linux 8 truncated_stack core_with_stack
              = Raise ValueError) by (vm_compute; reflexivity).
  rewrite E in Hmono. apply Hmono. discriminate.
Qed.

Lemma later_read_failure_escapes_witness :
  Core_init linux 8 truncated_stack core_with_stack = Raise ValueError /\
  truncated_stack (0x1ff0 - 1) = Some x00 /\
  truncated_stack 0x1feb = None.
Proof.
  split; [exact (later_read_failure_escapes 8 ltac:(lia))|].
  split; reflexivity.
Defined.

(** C2 on the code.  A stack on which a copy of the pointer to the last
    environment string lies above envp and is followed by a non-zero word:
    the scan stops at the copy, the check of the NULL terminator fails, and
    the [AssertionError] leaves the constructor.  The first sanity check of
    [_parse_stack] catches its [AssertionError]; this one is outside any
    [try]. *)
Theorem null_terminator_assert_escapes fuel :
  (16 <= fuel)%nat ->
  Core_init linux fuel stack_with_stale_pointer core_with_stack
    = Raise AssertionError.
Proof.
  intros Hle.
  pose proof (Core_init_mono linux stack_with_stale_pointer core_with_stack
                16 fuel Hle) as Hmono.
  assert (E : Core_init linux 16 stack_with_stale_pointer core_with_stack
              = Raise AssertionError) by (vm_compute; reflexivity).
  rewrite E in Hmono. apply Hmono. discriminate.
Qed.

Lemma null_terminator_assert_escapes_witness :
  Core_init linux 16 stack_with_stale_pointer core_with_stack
    = Raise AssertionError /\
  mem_unpack stack_with_stale_pointer ELFCLASS64 0x1fd0 = Ok 0x1fec /\
  mem_unpack stack_with_stale_pointer ELFCLASS64 0x1fd8 = Ok 0x1fe8.
Proof.
  split; [exact (null_terminator_assert_escapes 16 ltac:(lia))|].
  split; vm_compute; reflexivity.
Defined.

(** ** [getenv] *)

(** A name that is not in the environment is an error, not a default. *)
Lemma getenv_absent fuel mem self name :
  env self !! name = None ->
  getenv fuel mem self name = Raise PwnlibException.
Proof. intros H. unfold getenv. rewrite H. reflexivity. Qed.

(** What [getenv] returns is a string, never an address. *)
Lemma getenv_returns_str fuel mem self name v :
  getenv fuel mem self name = Ok v -> exists s, v = PyStr s.
Proof.
  unfold getenv. intros H. repeat inv_bind H. injection H as <-. eauto.
Qed.

(** C5 on the code.  In the image of the well-formed stack the variable [A]
    is at [0x1fec], its value ["b"] at [0x1fee]; [getenv] returns the string
    ["b"] where the docstring promises an address. *)
Theorem getenv_returns_value_string :
  exists core,
    Core_init linux 64 good_stack core_with_stack = Ok core /\
    env core !! "A"%string = Some 0x1fec /\
    mem_string 64 good_stack 0x1fee = Ok (str "b") /\
    getenv 64 good_stack core "A" = Ok (PyStr "b") /\
    getenv 64 good_stack core "A" <> Ok (PyInt 0x1fee) /\
    getenv 64 good_stack core "PATH" = Raise PwnlibException.
Proof.
  eexists. split; [vm_compute; reflexivity|].
  split; [vm_compute; reflexivity|].
  split; [vm_compute; reflexivity|].
  split; [vm_compute; reflexivity|].
  split; [vm_compute; discriminate | vm_compute; reflexivity].
Qed.

(** * Further properties *)

(** ** Reasoning along the constructor *)

Lemma auxv_loop_preserves (P : Core -> Prop) k ec idx :
  (forall v c, P c -> P (set_execfn v c)) ->
  forall t self self',
  P self -> auxv_loop k ec idx t self = Ok self' -> P self'.
Proof.
  intros Hset. induction idx as [|i idx IH]; intros t self self' HP H; simpl in H.
  - injection H as <-. exact HP.
  - inv_bind H. destruct a as [key t1]. inv_bind H. destruct a as [value t2].
    apply IH in H; [exact H|]. destruct (key =? AT_EXECFN k); auto.
Qed.

Lemma handle_note_preserves (P : Core -> Prop) k elf sizeof :
  (forall self note st, P self -> P (set_prstatus note st self)) ->
  (forall self note self',
     P self -> _parse_nt_file elf self note = Ok self' -> P self') ->
  (forall self v, P self -> P (set_execfn v self)) ->
  forall self note self',
  P self -> handle_note k elf sizeof self note = Ok self' -> P self'.
Proof.
  intros Hpr Hnt Hex self note self' HP H.
  apply handle_note_Ok in H as (s1 & s2 & H1 & H2 & H3).
  assert (P1 : P s1).
  { destruct (is_prstatus_note sizeof note); [|subst; exact HP].
    destruct H1 as (st & _ & ->). auto. }
  assert (P2 : P s2).
  { destruct (n_type_is _ (NT_FILE k)); [eauto | subst; exact P1]. }
  destruct (n_type_is _ (NT_AUXV k)); [|subst; exact P2].
  unfold _parse_auxv in H3.
  eapply auxv_loop_preserves; [|exact P2|exact H3]. auto.
Qed.

Lemma stack_loop_parse_stack_preserves (Q : Core -> Prop) fuel mem elf :
  (forall self id,
     Q self -> In id (mappings self) -> stop_is_stack self id = true ->
     Q (set_stack id self)) ->
  (forall self self',
     Q self -> _parse_stack fuel mem elf self = Ok self' -> Q self') ->
  forall ms c c',
  (forall id, In id ms -> In id (mappings c)) ->
  Q c -> stack_loop (_parse_stack fuel mem elf) ms c = Ok c' -> Q c'.
Proof.
  intros Hset Hps ms. induction ms as [|id ms IH]; intros c c' Hin HQ H;
    simpl in H.
  - injection H as <-. exact HQ.
  - destruct (stop_is_stack c id) eqn:Hm.
    + inv_bind H. pose proof Ha as Ha'.
      apply _parse_stack_Ok in Ha' as [e ->].
      apply (IH (set_env e (set_stack id c))); [| |exact H].
      * intros j Hj. simpl. apply Hin. right. exact Hj.
      * apply (Hps _ _ (Hset _ _ HQ (Hin id (or_introl eq_refl)) Hm) Ha).
    + apply (IH c); [|exact HQ|exact H].
      intros j Hj. apply Hin. right. exact Hj.
Qed.

(** An invariant [P] of the note pass that gives an invariant [Q] of the
    search for the stack holds on every constructed image. *)
Lemma Core_init_invariant (P Q : Core -> Prop) k fuel mem elf core :
  P Core_new ->
  (forall self note st, P self -> P (set_prstatus note st self)) ->
  (forall self note self',
     P self -> _parse_nt_file elf self note = Ok self' -> P self') ->
  (forall self v, P self -> P (set_execfn v self)) ->
  (forall self, P self -> Q self) ->
  (forall self id,
     Q self -> In id (mappings self) -> stop_is_stack self id = true ->
     Q (set_stack id self)) ->
  (forall self self',
     Q self -> _parse_stack fuel mem elf self = Ok self' -> Q self') ->
  Core_init k fuel mem elf = Ok core -> Q core.
Proof.
  intros H0 Hpr Hnt Hex HPQ Hset Hps H.
  apply Core_init_Ok in H as (_ & sizeof & self & _ & Hparse & Hloc).
  apply parse_notes_all_notes in Hparse.
  assert (HP : P self).
  { exact (for_each_preserves P _
             (handle_note_preserves P k elf sizeof Hpr Hnt Hex) _ _ _ H0 Hparse). }
  unfold locate_stack in Hloc. destruct (_ && _).
  - eapply stack_loop_parse_stack_preserves;
      [exact Hset|exact Hps| |apply HPQ; exact HP|exact Hloc]. auto.
  - injection Hloc as <-. auto.
Qed.

(** ** The store built from a mapped-file note *)

Lemma store_update_Ok (f : Mapping -> Mapping) id (ms ms' : list Mapping) :
  store_update f id ms = Ok ms' ->
  exists m, ms !! id = Some m /\ ms' = <[id := f m]> ms.
Proof.
  unfold store_update. destruct (ms !! id) as [m|]; [|discriminate].
  intros [= <-]. eauto.
Qed.

Lemma read_triples_Forall (Pm : Mapping -> Prop) ec count :
  (forall n s e f, Pm (Mapping_init n s e f)) ->
  forall t ms addrs t' ms' addrs',
  Forall Pm ms ->
  read_triples ec count t ms addrs = Ok (t', ms', addrs') -> Forall Pm ms'.
Proof.
  intros Hinit. induction count as [|count IH];
    intros t ms addrs t' ms' addrs' HP H; simpl in H.
  - injection H as <- <- <-. exact HP.
  - inv_bind H. destruct a as [s t1]. inv_bind H. destruct a as [e t2].
    inv_bind H. destruct a as [o t3].
    eapply IH; [|exact H]. apply Forall_app. split; [exact HP|].
    constructor; [apply Hinit | constructor].
Qed.

Lemma read_names_Forall (Pm : Mapping -> Prop) idx :
  (forall n m, Pm m -> Pm (set_name n m)) ->
  forall t ms t' ms',
  Forall Pm ms -> read_names idx t ms = Ok (t', ms') -> Forall Pm ms'.
Proof.
  intros Hname. induction idx as [|i idx IH]; intros t ms t' ms' HP H;
    simpl in H.
  - injection H as <- <-. exact HP.
  - inv_bind H. destruct a as [filename t1]. inv_bind H.
    apply store_update_Ok in Ha0 as (m & Hm & ->).
    eapply IH; [|exact H]. apply Forall_insert; [exact HP|].
    apply Hname. rewrite Forall_lookup in HP. exact (HP _ _ Hm).
Qed.

Lemma merge_segments_Forall (Pm : Mapping -> Prop) segs :
  (forall n s e f, Pm (Mapping_init n s e f)) ->
  (forall f m, Pm m -> Pm (set_flags f m)) ->
  forall ms addrs ms' addrs',
  Forall Pm ms -> merge_segments segs ms addrs = Ok (ms', addrs') ->
  Forall Pm ms'.
Proof.
  intros Hinit Hflags. induction segs as [|s segs IH];
    intros ms addrs ms' addrs' HP H; simpl in H.
  - injection H as <- <-. exact HP.
  - destruct (p_type s); try (eapply IH; [|exact H]; exact HP).
    destruct (addrs !! p_vaddr s) as [id|].
    + inv_bind H. apply store_update_Ok in Ha as (m & Hm & ->).
      eapply IH; [|exact H]. apply Forall_insert; [exact HP|].
      apply Hflags. rewrite Forall_lookup in HP. exact (HP _ _ Hm).
    + eapply IH; [|exact H]. apply Forall_app. split; [exact HP|].
      constructor; [apply Hinit | constructor].
Qed.

(** A property of [Mapping] objects that creation has and that setting a
    name or flags keeps holds for every object of the store. *)
Lemma build_mappings_Forall (Pm : Mapping -> Prop) elf desc ms addrs :
  (forall n s e f, Pm (Mapping_init n s e f)) ->
  (forall n m, Pm m -> Pm (set_name n m)) ->
  (forall f m, Pm m -> Pm (set_flags f m)) ->
  build_mappings elf desc = Ok (ms, addrs) -> Forall Pm ms.
Proof.
  intros Hinit Hname Hflags H. unfold build_mappings in H.
  inv_bind H. destruct a as [count t1]. inv_bind H. destruct a as [page t2].
  inv_bind H. destruct a as [[t3 ms1] addrs1].
  inv_bind H. destruct a as [t4 ms2].
  apply (read_triples_Forall Pm) in Ha1; [|exact Hinit|constructor].
  apply (read_names_Forall Pm) in Ha2; [|exact Hname|exact Ha1].
  eapply merge_segments_Forall; eassumption.
Qed.

Lemma mapping_list_In c m :
  In m (mapping_list c) -> exists id, In id (mappings c) /\ objs c !! id = Some m.
Proof.
  unfold mapping_list. induction (mappings c) as [|id ids IH]; simpl;
    [contradiction|].
  destruct (objs c !! id) as [m'|] eqn:Hm.
  - intros [<- | Hin]; [eauto|]. destruct (IH Hin) as (j & Hj & Hjm). eauto.
  - intros Hin. destruct (IH Hin) as (j & Hj & Hjm). eauto.
Qed.

(** X1. Every mapping of a constructed image has [size = stop - start]:
    the constructor of [Mapping] sets it so and no later assignment touches
    [start], [stop] or [size]. *)
Theorem mapping_size_is_stop_minus_start k fuel mem elf core :
  Core_init k fuel mem elf = Ok core ->
  Forall (fun m => size m = stop m - start m) (mapping_list core).
Proof.
  intros H.
  assert (Hobjs : Forall (fun m => size m = stop m - start m) (objs core)).
  { revert H. apply (Core_init_invariant
      (fun c => Forall (fun m => size m = stop m - start m) (objs c))
      (fun c => Forall (fun m => size m = stop m - start m) (objs c))).
    - constructor.
    - auto.
    - intros self note self' _ Hp.
      apply _parse_nt_file_Ok in Hp as (ms & addrs & Hb & ->). simpl.
      revert Hb. apply build_mappings_Forall; auto.
    - auto.
    - auto.
    - intros self id HQ _ _. simpl.
      rewrite Forall_lookup in HQ. apply Forall_lookup. intros j m Hm.
      destruct (decide (id = j)) as [->|Hne].
      + rewrite list_lookup_alter_eq in Hm.
        destruct (objs self !! j) as [m0|] eqn:Hm0; [|discriminate].
        injection Hm as <-. simpl. exact (HQ _ _ Hm0).
      + rewrite list_lookup_alter_ne in Hm by assumption. exact (HQ _ _ Hm).
    - intros self self' HQ Hp. apply _parse_stack_Ok in Hp as [e ->]. exact HQ. }
  apply List.Forall_forall. intros m Hm.
  apply mapping_list_In in Hm as (id & _ & Hid).
  rewrite Forall_lookup in Hobjs. exact (Hobjs _ _ Hid).
Qed.

Lemma mapping_size_is_stop_minus_start_witness :
  exists core,
    Core_init linux 0 no_memory core_shared_start = Ok core /\
    Forall (fun m => size m = stop m - start m) (mapping_list core).
Proof.
  eexists. split; [vm_compute; reflexivity|].
  refine (mapping_size_is_stop_minus_start linux 0 no_memory core_shared_start _
            ltac:(vm_compute; reflexivity)).
Defined.

(** ** The start-address index *)

Lemma index_ok_snoc (ms : list Mapping) addrs m :
  index_ok ms addrs ->
  index_ok (ms ++ [m]) (<[start m := length ms]> addrs).
Proof.
  intros [H1 H2]. split.
  - intros a id Hl. destruct (decide (start m = a)) as [<-|Hne].
    + rewrite lookup_insert_eq in Hl. injection Hl as <-.
      exists m. split; [|reflexivity]. apply list_lookup_middle. reflexivity.
    + rewrite lookup_insert_ne in Hl by assumption.
      destruct (H1 _ _ Hl) as (m' & Hm' & Hs). exists m'.
      split; [apply lookup_app_l_Some; exact Hm' | exact Hs].
  - intros id m' Hl. apply lookup_insert_is_Some.
    destruct (decide (start m = start m')) as [?|Hne]; [left; assumption|].
    right. split; [assumption|].
    apply lookup_app_Some in Hl as [Hl | [_ Hl]]; [eauto|].
    apply list_lookup_singleton_Some in Hl as [_ <-]. congruence.
Qed.

Lemma index_ok_insert (ms : list Mapping) addrs id m m' :
  index_ok ms addrs -> ms !! id = Some m -> start m' = start m ->
  index_ok (<[id := m']> ms) addrs.
Proof.
  intros [H1 H2] Hm Hs. pose proof (lookup_lt_Some _ _ _ Hm) as Hlt. split.
  - intros a j Hl. destruct (H1 _ _ Hl) as (mj & Hmj & Hsj).
    destruct (decide (id = j)) as [->|Hne].
    + exists m'. rewrite list_lookup_insert_eq by assumption.
      split; [reflexivity | congruence].
    + exists mj. rewrite list_lookup_insert_ne by assumption. auto.
  - intros j mj Hl. destruct (decide (id = j)) as [->|Hne].
    + rewrite list_lookup_insert_eq in Hl by assumption. injection Hl as <-.
      rewrite Hs. eauto.
    + rewrite list_lookup_insert_ne in Hl by assumption. eauto.
Qed.

Lemma read_triples_index ec count :
  forall t ms addrs t' ms' addrs',
  index_ok ms addrs ->
  read_triples ec count t ms addrs = Ok (t', ms', addrs') ->
  index_ok ms' addrs'.
Proof.
  induction count as [|count IH]; intros t ms addrs t' ms' addrs' Hok H;
    simpl in H.
  - injection H as <- <- <-. exact Hok.
  - inv_bind H. destruct a as [s t1]. inv_bind H. destruct a as [e t2].
    inv_bind H. destruct a as [o t3].
    eapply IH; [|exact H].
    exact (index_ok_snoc ms addrs (Mapping_init None s e 0) Hok).
Qed.

Lemma read_names_index idx addrs :
  forall t ms t' ms',
  index_ok ms addrs -> read_names idx t ms = Ok (t', ms') -> index_ok ms' addrs.
Proof.
  induction idx as [|i idx IH]; intros t ms t' ms' Hok H; simpl in H.
  - injection H as <- <-. exact Hok.
  - inv_bind H. destruct a as [filename t1]. inv_bind H.
    apply store_update_Ok in Ha0 as (m & Hm & ->).
    eapply IH; [|exact H]. eapply index_ok_insert; eauto.
Qed.

Lemma merge_segments_index segs :
  forall ms addrs ms' addrs',
  index_ok ms addrs -> merge_segments segs ms addrs = Ok (ms', addrs') ->
  index_ok ms' addrs'.
Proof.
  induction segs as [|s segs IH]; intros ms addrs ms' addrs' Hok H; simpl in H.
  - injection H as <- <-. exact Hok.
  - destruct (p_type s); try (eapply IH; [|exact H]; exact Hok).
    destruct (addrs !! p_vaddr s) as [id|].
    + inv_bind H. apply store_update_Ok in Ha as (m & Hm & ->).
      eapply IH; [|exact H]. eapply index_ok_insert; eauto.
    + eapply IH; [|exact H].
      exact (index_ok_snoc ms addrs
               (Mapping_init None (p_vaddr s) (p_vaddr s + p_memsz s) (p_flags s))
               Hok).
Qed.

Lemma index_ok_empty : index_ok [] ∅.
Proof.
  split.
  - intros a id H. rewrite lookup_empty in H. discriminate.
  - intros id m H. discriminate.
Qed.

Lemma build_mappings_index elf desc ms addrs :
  build_mappings elf desc = Ok (ms, addrs) -> index_ok ms addrs.
Proof.
  intros H. unfold build_mappings in H.
  inv_bind H. destruct a as [count t1]. inv_bind H. destruct a as [page t2].
  inv_bind H. destruct a as [[t3 ms1] addrs1].
  inv_bind H. destruct a as [t4 ms2].
  apply read_triples_index in Ha1; [|exact index_ok_empty].
  apply read_names_index with (addrs := addrs1) in Ha2; [|exact Ha1].
  eapply merge_segments_index; eassumption.
Qed.

Lemma index_ok_set_name n id (ms : list Mapping) addrs :
  index_ok ms addrs -> index_ok (alter (set_name n) id ms) addrs.
Proof.
  intros Hok. destruct (ms !! id) as [m|] eqn:Hm.
  - replace (alter (set_name n) id ms) with (<[id := set_name n m]> ms).
    + eapply index_ok_insert; eauto.
    + apply list_eq. intros j. destruct (decide (id = j)) as [->|Hne].
      * rewrite list_lookup_alter_eq, Hm.
        apply list_lookup_insert_eq. eapply lookup_lt_Some; eassumption.
      * rewrite list_lookup_alter_ne, list_lookup_insert_ne by assumption.
        reflexivity.
  - replace (alter (set_name n) id ms) with ms; [exact Hok|].
    apply list_eq. intros j. destruct (decide (id = j)) as [->|Hne].
    + rewrite list_lookup_alter_eq, Hm. reflexivity.
    + rewrite list_lookup_alter_ne by assumption. reflexivity.
Qed.


(** ** The mapping list against the store *)

Lemma omap_lookup_seq {A} (pre l : list A) :
  omap (fun i => (pre ++ l) !! i) (seq (length pre) (length l)) = l.
Proof.
  revert pre. induction l as [|x l IH]; intros pre; [reflexivity|].
  simpl. rewrite list_lookup_middle by reflexivity. f_equal.
  specialize (IH (pre ++ [x])).
  rewrite <- app_assoc, length_app in IH. simpl in IH.
  rewrite Nat.add_1_r in IH. exact IH.
Qed.

Lemma omap_Permutation {A B} (f : A -> option B) (l l' : list A) :
  Permutation l l' -> Permutation (omap f l) (omap f l').
Proof.
  induction 1 as [|x l l' _ IH|x y l|l l' l'' _ IH1 _ IH2]; simpl.
  - reflexivity.
  - destruct (f x); [constructor|]; exact IH.
  - destruct (f x), (f y); try reflexivity. apply perm_swap.
  - etransitivity; eassumption.
Qed.

Lemma mapping_list_Permutation k fuel mem elf core :
  Core_init k fuel mem elf = Ok core ->
  Permutation (mapping_list core) (objs core).
Proof.
  intros H.
  assert (Hp : Permutation (mappings core) (seq 0 (length (objs core)))).
  { revert H. apply (Core_init_invariant
      (fun c => Permutation (mappings c) (seq 0 (length (objs c))))
      (fun c => Permutation (mappings c) (seq 0 (length (objs c))))).
    - reflexivity.
    - intros self note st HP. exact HP.
    - intros self note self' _ Hp.
      apply _parse_nt_file_Ok in Hp as (ms & addrs & _ & ->). simpl.
      apply sorted_by_Permutation.
    - intros self v HP. exact HP.
    - intros self HP. exact HP.
    - intros self id HQ _ _. simpl. rewrite length_alter. exact HQ.
    - intros self self' HQ Hp. apply _parse_stack_Ok in Hp as [e ->]. exact HQ. }
  unfold mapping_list.
  rewrite (omap_Permutation (fun id => objs core !! id) _ _ Hp).
  pose proof (omap_lookup_seq [] (objs core)) as Hs. simpl in Hs.
  rewrite Hs. reflexivity.
Qed.

(** X3. The mapping list of a constructed image holds every [Mapping]
    object of the store exactly once: sorting neither drops nor repeats a
    mapping. *)
Theorem mapping_list_is_the_store k fuel mem elf core :
  Core_init k fuel mem elf = Ok core ->
  Permutation (mapping_list core) (objs core).
Proof. apply mapping_list_Permutation. Qed.

Lemma mapping_list_is_the_store_witness :
  exists core,
    Core_init linux 0 no_memory core_shared_start = Ok core /\
    length (objs core) = 3%nat /\
    Permutation (mapping_list core) (objs core).
Proof.
  eexists. split; [vm_compute; reflexivity|]. split; [reflexivity|].
  refine (mapping_list_is_the_store linux 0 no_memory core_shared_start _
            ltac:(vm_compute; reflexivity)).
Defined.

(** ** Loadable segments *)

Lemma merge_segments_app pre segs ms addrs :
  merge_segments (pre ++ segs) ms addrs =
  (r <- merge_segments pre ms addrs ;; merge_segments segs (fst r) (snd r)).
Proof.
  revert ms addrs. induction pre as [|s pre IH]; intros ms addrs; simpl;
    [reflexivity|].
  destruct (p_type s); try apply IH.
  destruct (addrs !! p_vaddr s) as [id|]; [|apply IH].
  destruct (store_update _ id ms); simpl; auto.
Qed.

(** Segments that do not load at [v] leave the mapping indexed at [v] and
    its flags alone. *)
Lemma merge_segments_keeps segs v id fl :
  Forall (fun s => p_type s = PT_LOAD -> p_vaddr s <> v) segs ->
  forall ms addrs ms' addrs',
  index_ok ms addrs ->
  addrs !! v = Some id ->
  (exists m, ms !! id = Some m /\ flags m = fl) ->
  merge_segments segs ms addrs = Ok (ms', addrs') ->
  addrs' !! v = Some id /\ exists m, ms' !! id = Some m /\ flags m = fl.
Proof.
  induction 1 as [|s segs Hs _ IH]; intros ms addrs ms' addrs' Hok Hv Hm H;
    simpl in H.
  - injection H as <- <-. auto.
  - destruct (p_type s) eqn:Ht; try (eapply IH; eassumption).
    specialize (Hs eq_refl).
    destruct (addrs !! p_vaddr s) as [id'|] eqn:Hl.
    + inv_bind H. apply store_update_Ok in Ha as (m' & Hm' & ->).
      eapply IH; [| | |exact H].
      * eapply index_ok_insert; eauto.
      * exact Hv.
      * destruct Hm as (m & Hm & Hf). exists m. split; [|exact Hf].
        rewrite list_lookup_insert_ne; [exact Hm|].
        intros ->. destruct Hok as [H1 _].
        destruct (H1 _ _ Hl) as (m1 & Hm1 & Hs1).
        destruct (H1 _ _ Hv) as (m2 & Hm2 & Hs2). congruence.
    + eapply IH; [| | |exact H].
      * exact (index_ok_snoc ms addrs
                 (Mapping_init None (p_vaddr s) (p_vaddr s + p_memsz s)
                    (p_flags s)) Hok).
      * rewrite lookup_insert_ne by assumption. exact Hv.
      * destruct Hm as (m & Hm & Hf). exists m.
        split; [apply lookup_app_l_Some; exact Hm | exact Hf].
Qed.

Lemma In_mapping_list c id m :
  In id (mappings c) -> objs c !! id = Some m -> In m (mapping_list c).
Proof.
  unfold mapping_list. intros Hin Hm.
  induction (mappings c) as [|j ids IH]; simpl in *; [contradiction|].
  destruct Hin as [-> | Hin].
  - rewrite Hm. left. reflexivity.
  - destruct (objs c !! j); [right|]; auto.
Qed.

(** X4. After a mapped-file note is parsed, every loadable segment is
    covered: the mapping list holds a mapping that starts at the segment's
    address, it is the one [addresses] gives for that address, and it carries
    the flags of the last loadable segment at that address. *)
Theorem load_segment_sets_flags elf self note self' pre s post :
  _parse_nt_file elf self note = Ok self' ->
  segments elf = pre ++ s :: post ->
  p_type s = PT_LOAD ->
  Forall (fun s' => p_type s' = PT_LOAD -> p_vaddr s' <> p_vaddr s) post ->
  exists id m,
    addresses self' !! p_vaddr s = Some id /\
    objs self' !! id = Some m /\
    In m (mapping_list self') /\
    start m = p_vaddr s /\ flags m = p_flags s.
Proof.
  intros Hp Hsegs Hload Hpost.
  apply _parse_nt_file_Ok in Hp as (ms & addrs & Hb & ->).
  pose proof (build_mappings_index _ _ _ _ Hb) as Hfinal.
  unfold build_mappings in Hb.
  inv_bind Hb. destruct a as [count t1]. inv_bind Hb. destruct a as [page t2].
  inv_bind Hb. destruct a as [[t3 ms1] addrs1].
  inv_bind Hb. destruct a as [t4 ms2].
  apply read_triples_index in Ha1; [|exact index_ok_empty].
  apply read_names_index with (addrs := addrs1) in Ha2; [|exact Ha1].
  rewrite Hsegs, merge_segments_app in Hb. inv_bind Hb.
  destruct a as [ms3 addrs3]. simpl in Hb.
  pose proof (merge_segments_index _ _ _ _ _ Ha2 Ha3) as Hok3.
  rewrite Hload in Hb.
  assert (Hkeep : exists id,
            addrs !! p_vaddr s = Some id /\
            exists m, ms !! id = Some m /\ flags m = p_flags s).
  { destruct (addrs3 !! p_vaddr s) as [id|] eqn:Hl.
    - inv_bind Hb. apply store_update_Ok in Ha4 as (m3 & Hm3 & ->).
      exists id.
      eapply (merge_segments_keeps post (p_vaddr s) id (p_flags s) Hpost);
        [| | |exact Hb].
      + exact (index_ok_insert ms3 addrs3 id m3 (set_flags (p_flags s) m3)
                 Hok3 Hm3 eq_refl).
      + exact Hl.
      + exists (set_flags (p_flags s) m3). split; [|reflexivity].
        apply list_lookup_insert_eq. eapply lookup_lt_Some; eassumption.
    - exists (length ms3).
      eapply (merge_segments_keeps post (p_vaddr s) (length ms3) (p_flags s)
                Hpost); [| | |exact Hb].
      + exact (index_ok_snoc ms3 addrs3
                 (Mapping_init None (p_vaddr s) (p_vaddr s + p_memsz s)
                    (p_flags s)) Hok3).
      + apply lookup_insert_eq.
      + eexists. split; [apply list_lookup_middle; reflexivity | reflexivity]. }
  destruct Hkeep as (id & Hid & m & Hm & Hf).
  exists id, m. simpl. split; [exact Hid|]. split; [exact Hm|].
  destruct Hfinal as [H1 _]. destruct (H1 _ _ Hid) as (m' & Hm' & Hs').
  assert (m' = m) as -> by congruence.
  split; [|auto].
  apply (In_mapping_list _ id m); [|exact Hm]. simpl.
  apply (Permutation_in _ (Permutation_sym (sorted_by_Permutation _ _))).
  apply in_seq. apply lookup_lt_Some in Hm. lia.
Qed.

(** The segment at [0x1000] gives its flags to a mapping that starts
    there. *)
Lemma load_segment_sets_flags_witness :
  exists self' id m,
    _parse_nt_file core_shared_start Core_new
      (mkNote 5 78 (NT_int 0x46494c45) 0 "CORE" nt_file_shared_start 100)
      = Ok self' /\
    addresses self' !! 0x1000 = Some id /\
    objs self' !! id = Some m /\
    start m = 0x1000 /\ flags m = 5.
Proof.
  assert (E : exists self',
             _parse_nt_file core_shared_start Core_new
               (mkNote 5 78 (NT_int 0x46494c45) 0 "CORE"
                  nt_file_shared_start 100) = Ok self').
  { eexists. vm_compute. reflexivity. }
  destruct E as (self' & E).
  destruct (load_segment_sets_flags core_shared_start Core_new _ self'
              [mkSegment PT_NOTE 0 100 0 0 0] (load 0x1000 0x1000 5)
              [load 0x2000 0x1000 6]
              E ltac:(reflexivity) ltac:(reflexivity)
              ltac:(repeat constructor; simpl; intros _; lia))
    as (id & m & Hid & Hm & _ & Hs & Hf).
  exists self', id, m. auto.
Defined.

(** ** How much of the descriptor a mapped-file note needs *)

Lemma tube_unpack_inv ec (t : list byte) v t' :
  tube_unpack ec t = Ok (v, t') ->
  v = le_uint (take (Z.to_nat (bytes ec)) t) /\
  length t = (Z.to_nat (bytes ec) + length t')%nat.
Proof.
  unfold tube_unpack.
  destruct (Nat.ltb_spec (length t) (Z.to_nat (bytes ec))); [discriminate|].
  intros [= <- <-]. split; [reflexivity|]. rewrite length_drop. lia.
Qed.

Lemma tube_recvuntil_nul_inv (t : list byte) :
  forall s t', tube_recvuntil_nul t = Ok (s, t') ->
  t = s ++ x00 :: t' /\ Forall (fun b => byte_val b <> 0) s.
Proof.
  induction t as [|b r IH]; intros s t' H; simpl in H; [discriminate|].
  destruct (Z.eqb_spec (byte_val b) 0) as [Hz|Hnz].
  - injection H as <- <-. split; [|constructor].
    f_equal. destruct b; try reflexivity; discriminate.
  - inv_bind H. destruct a as [s0 t0]. injection H as <- <-.
    destruct (IH _ _ Ha) as [Hr Hs]. rewrite Hr at 1. simpl.
    split; [reflexivity|].
    constructor; assumption.
Qed.

Lemma read_triples_length ec count :
  forall (t : list byte) (ms : list Mapping) addrs t' ms' addrs',
  read_triples ec count t ms addrs = Ok (t', ms', addrs') ->
  length ms' = (length ms + count)%nat /\
  length t = (count * (3 * Z.to_nat (bytes ec)) + length t')%nat.
Proof.
  induction count as [|count IH]; intros t ms addrs t' ms' addrs' H; simpl in H.
  - injection H as <- <- <-. lia.
  - inv_bind H. destruct a as [s t1]. inv_bind H. destruct a as [e t2].
    inv_bind H. destruct a as [o t3].
    apply tube_unpack_inv in Ha as [_ L1].
    apply tube_unpack_inv in Ha0 as [_ L2].
    apply tube_unpack_inv in Ha1 as [_ L3].
    apply IH in H as [Hm Ht]. rewrite length_app in Hm. simpl in Hm. lia.
Qed.

Lemma read_names_length idx :
  forall (t : list byte) (ms : list Mapping) t' ms',
  read_names idx t ms = Ok (t', ms') ->
  length ms' = length ms /\ (length idx + length t' <= length t)%nat.
Proof.
  induction idx as [|i idx IH]; intros t ms t' ms' H; simpl in H.
  - injection H as <- <-. simpl. lia.
  - inv_bind H. destruct a as [filename t1]. inv_bind H.
    apply tube_recvuntil_nul_inv in Ha as [-> _].
    apply store_update_Ok in Ha0 as (m & _ & ->).
    apply IH in H as [Hm Ht]. rewrite length_insert in Hm.
    rewrite length_app. simpl in *. lia.
Qed.

Lemma merge_segments_length segs :
  forall (ms : list Mapping) addrs ms' addrs',
  merge_segments segs ms addrs = Ok (ms', addrs') ->
  (length ms <= length ms' <= length ms + length segs)%nat.
Proof.
  induction segs as [|s segs IH]; intros ms addrs ms' addrs' H; simpl in H.
  - injection H as <- <-. simpl. lia.
  - destruct (p_type s); try (apply IH in H; simpl; lia).
    destruct (addrs !! p_vaddr s) as [id|].
    + inv_bind H. apply store_update_Ok in Ha as (m & _ & ->).
      apply IH in H. rewrite length_insert in H. simpl. lia.
    + apply IH in H. rewrite length_app in H. simpl in *. lia.
Qed.

(** X5. A mapped-file note is decoded only if its descriptor holds what its
    own count announces: two header words, three words per file and at least
    one byte, the terminator, per file name.  The store then has between
    [count] and [count] plus the number of segments mappings. *)
Theorem nt_file_descriptor_bounds elf desc ms addrs :
  build_mappings elf desc = Ok (ms, addrs) ->
  let w := Z.to_nat (bytes (ei_class elf)) in
  let count := Z.to_nat (le_uint (take w desc)) in
  (2 * w + count * (3 * w) + count <= length desc)%nat /\
  (count <= length ms <= count + length (segments elf))%nat.
Proof.
  intros H w count. unfold build_mappings in H.
  inv_bind H. destruct a as [c t1]. inv_bind H. destruct a as [page t2].
  inv_bind H. destruct a as [[t3 ms1] addrs1].
  inv_bind H. destruct a as [t4 ms2].
  apply tube_unpack_inv in Ha as [-> L1].
  apply tube_unpack_inv in Ha0 as [_ L2].
  apply read_triples_length in Ha1 as [M1 L3].
  apply read_names_length in Ha2 as [M2 L4].
  apply merge_segments_length in H.
  rewrite length_seq in L4. simpl in M1.
  fold w in L1, L2, L3, M1, L4. fold count in L3, M1, L4. lia.
Qed.

Lemma nt_file_descriptor_bounds_witness :
  exists ms addrs,
    build_mappings core_shared_start nt_file_shared_start = Ok (ms, addrs) /\
    (2 <= length ms <= 2 + 3)%nat.
Proof.
  assert (E : exists ms addrs,
             build_mappings core_shared_start nt_file_shared_start
               = Ok (ms, addrs)).
  { do 2 eexists. vm_compute. reflexivity. }
  destruct E as (ms & addrs & E). exists ms, addrs. split; [exact E|].
  exact (proj2 (nt_file_descriptor_bounds core_shared_start
                  nt_file_shared_start ms addrs E)).
Defined.

(** ** Decoding what was encoded *)

Lemma byte_val_byte_of (v : Z) : byte_val (byte_of v) = v mod 256.
Proof.
  unfold byte_val, byte_of.
  pose proof (Z.mod_pos_bound v 256 ltac:(lia)) as Hb.
  destruct (Byte.of_N (Z.to_N (v mod 256))) as [b|] eqn:Hof.
  - simpl. apply Byte.to_of_N in Hof. rewrite Hof. lia.
  - apply Byte.of_N_None_iff in Hof. lia.
Qed.

Lemma length_le_encode n v : length (le_encode n v) = n.
Proof. revert v. induction n as [|n IH]; intros v; simpl; auto. Qed.

Lemma le_uint_le_encode n v :
  0 <= v < 256 ^ Z.of_nat n -> le_uint (le_encode n v) = v.
Proof.
  revert v. induction n as [|n IH]; intros v Hv.
  - simpl in *. lia.
  - simpl le_encode. simpl le_uint. rewrite byte_val_byte_of, IH.
    + pose proof (Z.div_mod v 256 ltac:(lia)). lia.
    + rewrite Nat2Z.inj_succ, Z.pow_succ_r in Hv by lia.
      split; [apply Z.div_pos; lia|].
      apply Z.div_lt_upper_bound; lia.
Qed.

Lemma tube_unpack_encode_word ec v (rest : list byte) :
  word_ok ec v -> tube_unpack ec (encode_word ec v ++ rest) = Ok (v, rest).
Proof.
  intros Hv. unfold encode_word.
  rewrite tube_unpack_Ok by (rewrite length_app, length_le_encode; lia).
  rewrite take_app_length' by (rewrite length_le_encode; reflexivity).
  rewrite drop_app_length' by (rewrite length_le_encode; reflexivity).
  rewrite le_uint_le_encode; [reflexivity|].
  unfold word_ok in Hv. rewrite Z2Nat.id by (destruct ec; simpl; lia).
  exact Hv.
Qed.

Lemma tube_recvuntil_nul_cstr (s rest : list byte) :
  Forall (fun b => byte_val b <> 0) s ->
  tube_recvuntil_nul (s ++ x00 :: rest) = Ok (s, rest).
Proof.
  induction 1 as [|b s Hb _ IH]; simpl; [reflexivity|].
  destruct (Z.eqb_spec (byte_val b) 0); [contradiction|].
  rewrite IH. reflexivity.
Qed.

Lemma read_triples_encode ec entries :
  Forall (entry_ok ec) entries ->
  forall (rest : list byte) (ms : list Mapping) addrs,
  exists addrs',
    read_triples ec (length entries)
      (concat (map (encode_triple ec) entries) ++ rest) ms addrs
    = Ok (rest,
          ms ++ map (fun e => set_flags 0 (Mapping_init None (fst (fst (fst e)))
                                             (snd (fst (fst e))) 0)) entries,
          addrs').
Proof.
  induction 1 as [|[[[s e] o] n] entries (Hs & He & Ho & _) _ IH];
    intros rest ms addrs.
  - simpl. rewrite app_nil_r. eauto.
  - simpl. rewrite <- !app_assoc.
    rewrite (tube_unpack_encode_word ec s) by assumption. simpl.
    rewrite (tube_unpack_encode_word ec e) by assumption. simpl.
    rewrite (tube_unpack_encode_word ec o) by assumption. simpl.
    destruct (IH rest (ms ++ [Mapping_init None s e 0])
                (<[s := length ms]> addrs)) as [addrs' ->].
    rewrite <- app_assoc. eauto.
Qed.

Lemma read_names_encode entries :
  Forall (fun e => Forall (fun b => byte_val b <> 0) (str (entry_name e)))
    entries ->
  forall (rest : list byte) (pre : list Mapping),
  read_names (seq (length pre) (length entries))
    (concat (map (fun e => cstr (entry_name e)) entries) ++ rest)
    (pre ++ map (fun e => set_flags 0 (Mapping_init None (fst (fst (fst e)))
                                          (snd (fst (fst e))) 0)) entries)
  = Ok (rest, pre ++ map entry_mapping entries).
Proof.
  induction 1 as [|[[[s e] o] n] entries Hn _ IH]; intros rest pre.
  - reflexivity.
  - simpl. unfold cstr at 1. rewrite <- !app_assoc. simpl.
    rewrite tube_recvuntil_nul_cstr by exact Hn. simpl.
    unfold store_update. rewrite list_lookup_middle by reflexivity. simpl.
    replace (<[length pre := _]> (pre ++ _ :: _))
      with ((pre ++ [entry_mapping (s, e, o, n)]) ++
            map (fun e => set_flags 0 (Mapping_init None (fst (fst (fst e)))
                                         (snd (fst (fst e))) 0)) entries).
    + specialize (IH rest (pre ++ [entry_mapping (s, e, o, n)])).
      rewrite length_app in IH. simpl in IH. rewrite Nat.add_1_r in IH.
      change (entry_mapping (s, e, o, n)) with (Mapping_init (Some n) s e 0).
      rewrite IH, <- app_assoc. reflexivity.
    + rewrite <- app_assoc. simpl.
      rewrite insert_app_r_alt by lia. rewrite Nat.sub_diag. simpl.
      unfold entry_mapping, bytes2str, str, entry_name. simpl.
      rewrite string_of_list_byte_of_string. reflexivity.
Qed.

(** The segment loop never fails on a store that agrees with its index, and
    it keeps start, end and name of the mappings it finds. *)
Lemma merge_segments_total segs :
  forall (ms : list Mapping) addrs,
  index_ok ms addrs ->
  exists ms' addrs',
    merge_segments segs ms addrs = Ok (ms', addrs') /\
    take (length ms) (map mapping_key ms') = map mapping_key ms.
Proof.
  induction segs as [|s segs IH]; intros ms addrs Hok; simpl.
  - exists ms, addrs. split; [reflexivity|].
    rewrite <- (length_map mapping_key). apply firstn_all.
  - destruct (p_type s); try (apply IH; exact Hok).
    destruct (addrs !! p_vaddr s) as [id|] eqn:Hl.
    + destruct Hok as [H1 H2]. destruct (H1 _ _ Hl) as (m & Hm & Hs).
      unfold store_update. rewrite Hm. simpl.
      destruct (IH (<[id := set_flags (p_flags s) m]> ms) addrs)
        as (ms' & addrs' & -> & Hk).
      { eapply index_ok_insert; [split; eassumption|exact Hm|reflexivity]. }
      exists ms', addrs'. split; [reflexivity|].
      rewrite length_insert in Hk. rewrite Hk.
      rewrite list_fmap_insert. apply list_insert_id.
      rewrite list_lookup_fmap, Hm. reflexivity.
    + destruct (IH (ms ++ [Mapping_init None (p_vaddr s)
                             (p_vaddr s + p_memsz s) (p_flags s)])
                  (<[p_vaddr s := length ms]> addrs))
        as (ms' & addrs' & -> & Hk).
      { exact (index_ok_snoc ms addrs _ Hok). }
      exists ms', addrs'. split; [reflexivity|].
      rewrite length_app in Hk. simpl in Hk.
      apply (f_equal (take (length ms))) in Hk.
      rewrite take_take in Hk. rewrite Nat.min_l in Hk by lia.
      rewrite Hk, map_app, take_app_length'; [reflexivity|].
      symmetry. apply length_map.
Qed.

(** X6. Round trip of the mapped-file note.  A descriptor laid out as count,
    page size, [N] triples and [N] terminated names is decoded without error,
    whatever the segments are, and the first [N] mappings of the store have
    the start, end and name of the [N] files, in their order. *)
Theorem nt_file_round_trip elf page_size entries :
  word_ok (ei_class elf) (Z.of_nat (length entries)) ->
  word_ok (ei_class elf) page_size ->
  Forall (entry_ok (ei_class elf)) entries ->
  exists ms addrs,
    build_mappings elf (encode_nt_file (ei_class elf) page_size entries)
      = Ok (ms, addrs) /\
    take (length entries) (map mapping_key ms)
      = map (fun e => mapping_key (entry_mapping e)) entries.
Proof.
  intros Hcount Hpage Hentries. unfold build_mappings, encode_nt_file.
  rewrite (tube_unpack_encode_word _ _ _ Hcount). simpl.
  rewrite (tube_unpack_encode_word _ _ _ Hpage). simpl.
  rewrite Nat2Z.id.
  destruct (read_triples_encode (ei_class elf) entries Hentries
              (concat (map (fun e => cstr (entry_name e)) entries)) [] ∅)
    as [addrs1 Ht].
  rewrite Ht. simpl.
  assert (Hnames : Forall (fun e => Forall (fun b => byte_val b <> 0)
                                      (str (entry_name e))) entries).
  { eapply List.Forall_impl; [|exact Hentries].
    intros [[[s e] o] n] (_ & _ & _ & Hn). exact Hn. }
  pose proof (read_names_encode entries Hnames [] []) as Hr.
  simpl in Hr. rewrite app_nil_r in Hr. rewrite Hr. simpl.
  assert (Hok : index_ok (map entry_mapping entries) addrs1).
  { pose proof (read_triples_index _ _ _ _ _ _ _ _ index_ok_empty Ht) as Hi.
    pose proof (read_names_index _ addrs1 _ _ _ _ Hi Hr) as Hi'. exact Hi'. }
  destruct (merge_segments_total (segments elf) _ _ Hok)
    as (ms & addrs & -> & Hk).
  exists ms, addrs. split; [reflexivity|].
  rewrite length_map in Hk. rewrite Hk, map_map. reflexivity.
Qed.

Lemma nt_file_round_trip_witness :
  exists ms addrs,
    build_mappings core_shared_start
      (encode_nt_file ELFCLASS64 4096
         [(0x1000, 0x3000, 0, "/bin/a"%string);
          (0x1000, 0x2000, 1, "/bin/b"%string)]) = Ok (ms, addrs) /\
    take 2 (map mapping_key ms) =
      [(0x1000, 0x3000, Some "/bin/a"%string);
       (0x1000, 0x2000, Some "/bin/b"%string)].
Proof.
  exact (nt_file_round_trip core_shared_start 4096
           [(0x1000, 0x3000, 0, "/bin/a"%string);
            (0x1000, 0x2000, 1, "/bin/b"%string)]
           ltac:(unfold word_ok; simpl; lia) ltac:(unfold word_ok; simpl; lia)
           ltac:(repeat constructor; unfold word_ok; simpl; try lia;
                 vm_compute; discriminate)).
Defined.

(** ** Notes as they lie in a segment *)

Lemma byte_val_bound (b : byte) : 0 <= byte_val b < 256.
Proof.
  unfold byte_val. pose proof (Byte.to_N_bounded b) as H. lia.
Qed.

Lemma le_uint_bound (bs : list byte) :
  0 <= le_uint bs < 256 ^ Z.of_nat (length bs).
Proof.
  induction bs as [|b r IH]; [simpl; lia|].
  cbn [le_uint length]. rewrite Nat2Z.inj_succ, Z.pow_succ_r by lia.
  pose proof (byte_val_bound b). lia.
Qed.

Lemma le_uint_take4_bound (bs : list byte) : 0 <= le_uint (take 4 bs) < 2 ^ 32.
Proof.
  pose proof (le_uint_bound (take 4 bs)) as H.
  assert (Hl : (length (take 4 bs) <= 4)%nat) by (rewrite length_take; lia).
  assert (256 ^ Z.of_nat (length (take 4 bs)) <= 256 ^ 4)
    by (apply Z.pow_le_mono_r; lia).
  change (256 ^ 4) with (2 ^ 32) in *. lia.
Qed.

Lemma round_up_4_mod (n : Z) : round_up n 4 mod 4 = 0.
Proof. unfold round_up. apply Z.mod_mul. lia. Qed.

(** The fields of a note that [read_note] returns. *)
Lemma read_note_fields stream offset note offset' :
  read_note stream offset = Ok (note, offset') ->
  12 <= n_size note /\ n_size note mod 4 = 0 /\
  0 <= n_namesz note < 2 ^ 32 /\ 0 <= n_descsz note < 2 ^ 32 /\
  Z.of_nat (length (n_desc note)) <= n_descsz note.
Proof.
  intros H. pose proof (read_note_Ok _ _ _ _ H) as (_ & Hn & Hd & Hs & _ & Hdesc).
  assert (Hbounds : n_namesz note < 2 ^ 32 /\ n_descsz note < 2 ^ 32).
  { unfold read_note, parse_Elf_Nhdr in H.
    destruct (_ <? _); simpl in H; [discriminate|].
    inv_bind H. injection H as <- _. simpl.
    split; apply le_uint_take4_bound. }
  rewrite !roundup_2 in Hs.
  pose proof (round_up_4_bounds (n_namesz note)).
  pose proof (round_up_4_bounds (n_descsz note)).
  pose proof (round_up_4_mod (n_namesz note)) as M1.
  pose proof (round_up_4_mod (n_descsz note)) as M2.
  unfold Elf_Nhdr_sizeof in Hs.
  split; [lia|]. split.
  - rewrite Hs. rewrite <- Z.add_assoc, Z.add_mod, (Z.add_mod (round_up _ _)),
      M1, M2 by lia. reflexivity.
  - split; [lia|]. split; [lia|].
    rewrite Hdesc. unfold stream_read. rewrite length_take. lia.
Qed.

Lemma iter_notes_from_shape stream end_ notes :
  forall offset e,
  iter_notes_from stream offset end_ = (notes, e) ->
  contiguous offset notes /\
  Forall (fun n =>
            n_offset n < end_ /\ 12 <= n_size n /\ n_size n mod 4 = 0 /\
            0 <= n_namesz n < 2 ^ 32 /\ 0 <= n_descsz n < 2 ^ 32 /\
            Z.of_nat (length (n_desc n)) <= n_descsz n) notes.
Proof.
  induction notes as [|note notes IH]; intros offset e H.
  - split; [exact I | constructor].
  - apply iter_notes_from_cons in H as (Hlt & offset' & Hr & Hrun).
    pose proof (read_note_fields _ _ _ _ Hr) as Hf.
    apply read_note_Ok in Hr as (Ho & _ & _ & _ & -> & _).
    destruct (IH _ _ Hrun) as [Hc Hall]. split.
    + simpl. rewrite Ho. auto.
    + constructor; [|exact Hall]. rewrite Ho. tauto.
Qed.

(** X7. Whatever a note segment holds, and whether or not the iteration
    ends with an error, the notes [iter_notes] yields lie one after the
    other from the start of the segment: each starts inside the range, where
    the one before ends; each size is a multiple of four and at least the
    header size; the two declared lengths fit 32 bits; and a descriptor is
    never longer than its declared length. *)
Theorem iter_notes_shape stream p_offset p_filesz notes e :
  iter_notes stream p_offset p_filesz = (notes, e) ->
  contiguous p_offset notes /\
  Forall (fun n =>
            n_offset n < p_offset + p_filesz /\
            12 <= n_size n /\ n_size n mod 4 = 0 /\
            0 <= n_namesz n < 2 ^ 32 /\ 0 <= n_descsz n < 2 ^ 32 /\
            Z.of_nat (length (n_desc n)) <= n_descsz n) notes.
Proof. apply iter_notes_from_shape. Qed.

Lemma iter_notes_shape_witness :
  exists notes e,
    iter_notes (stream core_with_stack) 0 88 = (notes, e) /\
    length notes = 2%nat /\ contiguous 0 notes.
Proof.
  do 2 eexists. split; [vm_compute; reflexivity|]. split; [reflexivity|].
  refine (proj1 (iter_notes_shape (stream core_with_stack) 0 88 _ _
                   ltac:(vm_compute; reflexivity))).
Defined.

(** ** Decoding encoded notes *)

Lemma stream_read_at (a b : list byte) pos n :
  Z.to_nat pos = length a ->
  stream_read (a ++ b) pos n = take (Z.to_nat n) b.
Proof.
  intros H. unfold stream_read. rewrite H, drop_app_length. reflexivity.
Qed.

Lemma length_pad4 (bs : list byte) :
  Z.of_nat (length (pad4 bs)) = round_up (Z.of_nat (length bs)) 4.
Proof.
  unfold pad4, round_up. rewrite length_app, repeat_length, Nat2Z.inj_add.
  set (n := Z.of_nat (length bs)).
  pose proof (Z.mod_pos_bound (- n) 4 ltac:(lia)) as Hr.
  rewrite Z2Nat.id by lia.
  pose proof (Z.div_mod (- n) 4 ltac:(lia)) as Hdm.
  assert (Hq : (n + 4 - 1) / 4 = - (- n / 4)).
  { symmetry. apply Z.div_unique_pos with (r := 3 - (- n) mod 4); lia. }
  rewrite Hq. lia.
Qed.

Lemma CString_parse_terminated (s rest : list byte) :
  Forall (fun b => byte_val b <> 0) s ->
  CString_parse (s ++ x00 :: rest) = Ok s.
Proof.
  induction 1 as [|b s Hb _ IH]; simpl; [reflexivity|].
  destruct (Z.eqb_spec (byte_val b) 0); [contradiction|].
  rewrite IH. reflexivity.
Qed.

(** The note that [read_note] finds where an encoded note lies. *)
Lemma read_note_encode_note (pre post : list byte) nm ty desc :
  note_spec_ok (nm, ty, desc) ->
  let enc := encode_note nm ty desc in
  let offset := Z.of_nat (length pre) in
  read_note (pre ++ enc ++ post) offset =
    Ok (mkNote (Z.of_nat (length (cstr nm))) (Z.of_nat (length desc))
          (decode_n_type ty) offset nm desc (Z.of_nat (length enc)),
        offset + Z.of_nat (length enc)).
Proof.
  intros (Hnul & Hnm & Hty & Hdesc) enc offset. simpl in Hnul, Hnm, Hty, Hdesc.
  set (a := Z.of_nat (length (cstr nm))) in *.
  set (d := Z.of_nat (length desc)) in *.
  assert (Ha : 0 <= a < 256 ^ Z.of_nat 4)
    by (change (256 ^ Z.of_nat 4) with (2 ^ 32); lia).
  assert (Hd : 0 <= d < 256 ^ Z.of_nat 4)
    by (change (256 ^ Z.of_nat 4) with (2 ^ 32); lia).
  assert (Ht : 0 <= ty < 256 ^ Z.of_nat 4)
    by (change (256 ^ Z.of_nat 4) with (2 ^ 32); lia).
  set (hdr := le_encode 4 a ++ le_encode 4 d ++ le_encode 4 ty).
  assert (Hhdr : length hdr = 12%nat)
    by (unfold hdr; rewrite !length_app, !length_le_encode; reflexivity).
  assert (Henc : enc = hdr ++ pad4 (cstr nm) ++ pad4 desc).
  { unfold enc, encode_note, hdr. fold a d. rewrite <- !app_assoc. reflexivity. }
  assert (Hlen : Z.of_nat (length enc) = 12 + round_up a 4 + round_up d 4).
  { rewrite Henc, !length_app, !Nat2Z.inj_add, Hhdr, !length_pad4. fold a d. lia. }
  unfold read_note, parse_Elf_Nhdr.
  clear Hlen. rewrite Henc, <- !app_assoc.
  rewrite (stream_read_at pre) by (unfold offset; lia).
  change (Z.to_nat Elf_Nhdr_sizeof) with 12%nat.
  rewrite take_app_length' by (symmetry; exact Hhdr).
  rewrite Hhdr. change (Z.of_nat 12 <? Elf_Nhdr_sizeof) with false. cbv iota.
  assert (E1 : le_uint (take 4 hdr) = a).
  { unfold hdr. rewrite take_app_length' by (rewrite length_le_encode; reflexivity).
    apply le_uint_le_encode. exact Ha. }
  assert (E2 : le_uint (take 4 (drop 4 hdr)) = d).
  { unfold hdr. rewrite drop_app_length' by (rewrite length_le_encode; reflexivity).
    rewrite take_app_length' by (rewrite length_le_encode; reflexivity).
    apply le_uint_le_encode. exact Hd. }
  assert (E3 : le_uint (take 4 (drop 8 hdr)) = ty).
  { unfold hdr. rewrite app_assoc.
    rewrite drop_app_length'
      by (rewrite length_app, !length_le_encode; reflexivity).
    rewrite firstn_all2 by (rewrite length_le_encode; lia).
    apply le_uint_le_encode. exact Ht. }
  rewrite E1, E2, E3. cbn [bind].
  rewrite !roundup_2.
  rewrite (app_assoc pre hdr).
  rewrite (stream_read_at (pre ++ hdr))
    by (rewrite length_app, Hhdr; unfold offset, Elf_Nhdr_sizeof; lia).
  replace (round_up a 4) with (Z.of_nat (length (pad4 (cstr nm))))
    by (apply length_pad4).
  replace (round_up d 4) with (Z.of_nat (length (pad4 desc)))
    by (apply length_pad4).
  rewrite Nat2Z.id.
  rewrite take_app_length' by reflexivity.
  unfold pad4 at 1, cstr at 1. rewrite <- app_assoc. simpl ([x00] ++ _).
  rewrite CString_parse_terminated by exact Hnul. cbn [bind].
  rewrite (app_assoc (pre ++ hdr)).
  rewrite (stream_read_at ((pre ++ hdr) ++ pad4 (cstr nm)))
    by (rewrite !length_app, Hhdr; unfold offset, Elf_Nhdr_sizeof; lia).
  replace (Z.to_nat d) with (length desc) by (unfold d; lia).
  unfold pad4 at 1. rewrite <- app_assoc.
  rewrite take_app_length' by reflexivity.
  unfold bytes2str, str. rewrite string_of_list_byte_of_string.
  rewrite !length_app, !Nat2Z.inj_add, Hhdr. unfold Elf_Nhdr_sizeof.
  f_equal. f_equal; [f_equal|]; lia.
Qed.

Lemma length_encode_note_pos nm ty desc :
  (12 <= length (encode_note nm ty desc))%nat.
Proof.
  unfold encode_note. rewrite !length_app, !length_le_encode. lia.
Qed.

Lemma encode_notes_cons nm ty desc specs :
  encode_notes ((nm, ty, desc) :: specs) =
  encode_note nm ty desc ++ encode_notes specs.
Proof. reflexivity. Qed.

Lemma iter_notes_encode_notes specs :
  Forall note_spec_ok specs ->
  forall (pre post : list byte),
  exists notes,
    iter_notes_from (pre ++ encode_notes specs ++ post)
      (Z.of_nat (length pre))
      (Z.of_nat (length pre) + Z.of_nat (length (encode_notes specs)))
    = (notes, None) /\
    map note_content notes =
      map (fun s : note_spec =>
             (fst (fst s), decode_n_type (snd (fst s)), snd s)) specs.
Proof.
  induction 1 as [|[[nm ty] desc] specs Hs _ IH]; intros pre post.
  - exists []. split; [|reflexivity].
    rewrite iter_notes_from_unfold.
    change (encode_notes []) with (@nil byte).
    match goal with
    | |- context [?a <? ?b] => destruct (Z.ltb_spec a b) as [Hlt|_]
    end; [simpl in Hlt; lia | reflexivity].
  - rewrite encode_notes_cons.
    pose proof (length_encode_note_pos nm ty desc) as Hpos.
    rewrite iter_notes_from_unfold.
    match goal with
    | |- context [?a <? ?b] => destruct (Z.ltb_spec a b) as [_|Hge]
    end; [|rewrite length_app in Hge; lia].
    rewrite <- app_assoc.
    rewrite (read_note_encode_note pre (encode_notes specs ++ post) nm ty desc Hs).
    destruct (IH (pre ++ encode_note nm ty desc) post) as (notes & Hrun & Hc).
    rewrite <- app_assoc in Hrun.
    rewrite length_app, Nat2Z.inj_add in Hrun.
    rewrite length_app, Nat2Z.inj_add, Z.add_assoc. rewrite Hrun.
    eexists. split; [reflexivity|].
    cbn [map fst snd note_content n_name n_type n_desc]. rewrite Hc. reflexivity.
Qed.

(** X8. Round trip of the note iterator.  Where a file holds notes laid out
    one after the other, each as three 32-bit lengths and tag, the NUL
    terminated name padded to four bytes and the descriptor padded to four
    bytes, [iter_notes] over that range yields exactly these notes, in
    order, with their names, their descriptors and their decoded types, and
    ends without error. *)
Theorem iter_notes_round_trip specs (pre post : list byte) :
  Forall note_spec_ok specs ->
  exists notes,
    iter_notes (pre ++ encode_notes specs ++ post)
      (Z.of_nat (length pre)) (Z.of_nat (length (encode_notes specs)))
    = (notes, None) /\
    map note_content notes =
      map (fun s : note_spec =>
             (fst (fst s), decode_n_type (snd (fst s)), snd s)) specs.
Proof. intros H. apply iter_notes_encode_notes. exact H. Qed.

Lemma iter_notes_round_trip_witness :
  exists notes,
    iter_notes
      (str "ELF" ++
       encode_notes [("CORE"%string, 1, str "regs");
                     ("LINUX"%string, 6, auxv_execfn)] ++ str "tail")
      3 76 = (notes, None) /\
    map note_content notes =
      [("CORE"%string, NT_GNU_ABI_TAG, str "regs");
       ("LINUX"%string, NT_int 6, auxv_execfn)].
Proof.
  exact (iter_notes_round_trip
           [("CORE"%string, 1, str "regs"); ("LINUX"%string, 6, auxv_execfn)]
           (str "ELF") (str "tail")
           ltac:(repeat constructor; simpl; try lia; vm_compute; discriminate)).
Defined.

(** ** The stack-top address *)

Lemma land_lnot_4095 (v : Z) : Z.land v (Z.lnot 4095) = 4096 * (v / 4096).
Proof.
  rewrite <- Z.ldiff_land. change 4095 with (Z.ones 12).
  rewrite Z.ldiff_ones_r by lia.
  rewrite Z.shiftl_mul_pow2, Z.shiftr_div_pow2 by lia.
  change (2 ^ 12) with 4096. lia.
Qed.

Lemma next_page_bounds (v : Z) :
  v < next_page v <= v + 4096 /\ next_page v mod 4096 = 0.
Proof.
  unfold next_page.
  pose proof (Z.div_mod v 4096 ltac:(lia)).
  pose proof (Z.mod_pos_bound v 4096 ltac:(lia)).
  split; [lia|].
  replace (4096 * (v / 4096) + 4096) with ((v / 4096 + 1) * 4096) by lia.
  apply Z.mod_mul. lia.
Qed.

Lemma set_execfn_next_page v self :
  stack (set_execfn v self) = StackTop (next_page v).
Proof. unfold set_execfn, next_page. simpl. rewrite land_lnot_4095. reflexivity. Qed.

Lemma auxv_loop_execfn k ec idx :
  forall t self self',
  auxv_loop k ec idx t self = Ok self' ->
  (stack self' = stack self /\ at_execfn self' = at_execfn self) \/
  (exists v, 0 <= v /\ at_execfn self' = Some v /\
             stack self' = StackTop (next_page v)).
Proof.
  induction idx as [|i idx IH]; intros t self self' H; simpl in H.
  - injection H as <-. left. auto.
  - inv_bind H. destruct a as [key t1]. inv_bind H. destruct a as [value t2].
    apply tube_unpack_inv in Ha0 as [Hv _].
    apply IH in H. destruct (key =? AT_EXECFN k); [|exact H].
    destruct H as [[Hs He] | H]; [|right; exact H].
    right. exists value. split; [rewrite Hv; apply le_uint_nonneg|].
    split; [rewrite He; reflexivity|].
    rewrite Hs. apply set_execfn_next_page.
Qed.

(** X9. After the auxiliary vector is decoded, either nothing about the
    stack has changed, or [at_execfn] is a value [v] read from the
    descriptor and [self.stack] is the first page boundary above it: a
    multiple of 4096 with [v < stack <= v + 4096], so never zero. *)
Theorem auxv_stack_top_is_next_page k elf self note self' :
  _parse_auxv k elf self note = Ok self' ->
  (stack self' = stack self /\ at_execfn self' = at_execfn self) \/
  (exists v,
     0 <= v /\ at_execfn self' = Some v /\
     stack self' = StackTop (next_page v) /\
     v < next_page v <= v + 4096 /\ next_page v mod 4096 = 0).
Proof.
  intros H. apply auxv_loop_execfn in H as [H | (v & Hv & He & Hs)];
    [left; exact H|].
  right. exists v. pose proof (next_page_bounds v). tauto.
Qed.

Lemma auxv_stack_top_is_next_page_witness :
  exists self',
    _parse_auxv linux core_with_stack Core_new
      (mkNote 5 32 (NT_int 6) 36 "CORE" auxv_execfn 52) = Ok self' /\
    at_execfn self' = Some 0x1ff0 /\ stack self' = StackTop 0x2000.
Proof.
  assert (E : exists self',
             _parse_auxv linux core_with_stack Core_new
               (mkNote 5 32 (NT_int 6) 36 "CORE" auxv_execfn 52) = Ok self' /\
             at_execfn self' = Some 0x1ff0).
  { eexists. split; vm_compute; reflexivity. }
  destruct E as (self' & E & Hx). exists self'. split; [exact E|].
  split; [exact Hx|].
  destruct (auxv_stack_top_is_next_page _ _ _ _ _ E)
    as [[_ He] | (v & _ & He & Hs & _)].
  - rewrite Hx in He. discriminate.
  - rewrite Hx in He. injection He as <-. exact Hs.
Defined.

(** ** The stack attribute of a constructed image *)

Lemma stack_loop_state_ok fuel mem elf ms :
  forall c c',
  (forall id, In id ms -> In id (mappings c)) ->
  stack_state_ok c ->
  stack_loop (_parse_stack fuel mem elf) ms c = Ok c' ->
  stack_state_ok c'.
Proof.
  induction ms as [|id ms IH]; intros c c' Hin Hc H; simpl in H.
  - injection H as <-. exact Hc.
  - destruct (stop_is_stack c id) eqn:Hm.
    + inv_bind H. apply _parse_stack_Ok in Ha as [e ->].
      apply (IH (set_env e (set_stack id c))); [| |exact H].
      * intros j Hj. simpl. apply Hin. right. exact Hj.
      * unfold stop_is_stack in Hm. unfold stack_state_ok in *. simpl.
        destruct (stack c) as [|a|]; try discriminate.
        destruct (objs c !! id) as [m|] eqn:Hobj; [|discriminate].
        apply Z.eqb_eq in Hm.
        destruct Hc as [(v & Hv & Hex & ->) _].
        exists v, (set_name "[stack]" m). split; [exact Hv|].
        split; [exact Hex|]. split; [apply Hin; left; reflexivity|].
        split; [rewrite list_lookup_alter_eq, Hobj; reflexivity|].
        split; [exact Hm | reflexivity].
    + apply (IH c); [|exact Hc|exact H].
      intros j Hj. apply Hin. right. exact Hj.
Qed.

Lemma handle_note_state_ok k elf sizeof self note self' :
  handle_note k elf sizeof self note = Ok self' ->
  (forall id, stack self <> StackMapping id) -> stack_state_ok self ->
  (forall id, stack self' <> StackMapping id) /\ stack_state_ok self'.
Proof.
  intros H Hno Hok. apply handle_note_Ok in H as (s1 & s2 & H1 & H2 & H3).
  assert (E1 : stack s1 = stack self /\ at_execfn s1 = at_execfn self /\
               env s1 = env self).
  { destruct (is_prstatus_note sizeof note); [|subst; auto].
    destruct H1 as (st & _ & ->). auto. }
  assert (E2 : stack s2 = stack s1 /\ at_execfn s2 = at_execfn s1 /\
               env s2 = env s1).
  { destruct (n_type_is _ (NT_FILE k)); [|subst; auto].
    apply _parse_nt_file_Ok in H2 as (ms & addrs & _ & ->). auto. }
  destruct E1 as (S1 & A1 & V1), E2 as (S2 & A2 & V2).
  assert (Hno2 : forall id, stack s2 <> StackMapping id)
    by (intros id; rewrite S2, S1; apply Hno).
  assert (Hok2 : stack_state_ok s2).
  { unfold stack_state_ok in *. rewrite S2, S1, A2, A1, V2, V1.
    destruct (stack self); try exact Hok. destruct (Hno id eq_refl). }
  destruct (n_type_is _ (NT_AUXV k)); [|subst; auto].
  pose proof (_parse_auxv_Ok _ _ _ _ _ H3) as (_ & _ & _ & _ & _ & V3).
  apply auxv_loop_execfn in H3 as [[S3 A3] | (v & Hv & A3 & S3)].
  - split; [intros id; rewrite S3; apply Hno2|].
    unfold stack_state_ok in *. rewrite S3, A3, V3.
    destruct (stack s2); try exact Hok2. destruct (Hno2 id eq_refl).
  - split; [intros id; rewrite S3; discriminate|].
    unfold stack_state_ok. rewrite S3, V3. split; [eauto|].
    unfold stack_state_ok in Hok2.
    destruct (stack s2); try tauto. destruct (Hno2 id eq_refl).
Qed.

Lemma Core_init_stack_state_ok k fuel mem elf core :
  Core_init k fuel mem elf = Ok core -> stack_state_ok core.
Proof.
  intros H. apply Core_init_Ok in H as (_ & sizeof & self & _ & Hparse & Hloc).
  apply parse_notes_all_notes in Hparse.
  assert (Hself : (forall id, stack self <> StackMapping id) /\
                  stack_state_ok self).
  { apply (for_each_preserves
             (fun c => (forall id, stack c <> StackMapping id) /\
                       stack_state_ok c)
             (handle_note k elf sizeof)) with (l := all_notes elf)
                                              (st := Core_new);
      [| |exact Hparse].
    - intros st x st' [Hno Hok] Hx.
      eapply handle_note_state_ok; eassumption.
    - split; [discriminate|]. split; reflexivity. }
  destruct Hself as [_ Hok]. unfold locate_stack in Hloc.
  destruct (_ && _).
  - eapply stack_loop_state_ok; [|exact Hok|exact Hloc]. auto.
  - injection Hloc as <-. exact Hok.
Qed.

(** X10. On every constructed image [self.stack] is one of three things:
    nothing, and then no executable name was seen; the page boundary above
    the executable's name; or a mapping of the list, named ["[stack]"],
    that ends at that page boundary.  The environment is empty unless
    [self.stack] is a mapping. *)
Theorem stack_attribute_cases k fuel mem elf core :
  Core_init k fuel mem elf = Ok core ->
  stack_state_ok core /\
  (env core <> ∅ -> exists id, stack core = StackMapping id).
Proof.
  intros H. apply Core_init_stack_state_ok in H. split; [exact H|].
  unfold stack_state_ok in H. intros Hne.
  destruct (stack core) as [|a|id]; [tauto | tauto | eauto].
Qed.

Lemma stack_attribute_cases_witness :
  exists core m,
    Core_init linux 64 good_stack core_with_stack = Ok core /\
    stack core = StackMapping 0 /\
    objs core !! 0%nat = Some m /\ stop m = 0x2000 /\
    name m = Some "[stack]"%string.
Proof.
  assert (E : exists core,
             Core_init linux 64 good_stack core_with_stack = Ok core /\
             stack core = StackMapping 0 /\ at_execfn core = Some 0x1ff0).
  { eexists. split; [vm_compute; reflexivity|]. split; vm_compute; reflexivity. }
  destruct E as (core & E & Hs & Hx).
  pose proof (proj1 (stack_attribute_cases _ _ _ _ _ E)) as Hok.
  unfold stack_state_ok in Hok. rewrite Hs in Hok.
  destruct Hok as (v & m & _ & Hv & _ & Hm & Hstop & Hname).
  exists core, m. rewrite Hx in Hv. injection Hv as <-. auto.
Defined.

(** ** Strict order *)

Lemma weakly_sorted_NoDup_strict (l : list Mapping) :
  weakly_sorted l -> NoDup (map start l) -> strictly_sorted l.
Proof.
  unfold weakly_sorted, strictly_sorted.
  induction 1 as [|a l _ IH Ha]; intros Hnd; [constructor|].
  simpl in Hnd. apply NoDup_cons in Hnd as [Hnotin Hnd].
  constructor; [exact (IH Hnd)|].
  rewrite List.Forall_forall in Ha. apply List.Forall_forall. intros b Hb.
  specialize (Ha b Hb).
  assert (start a <> start b).
  { intros Heq. apply Hnotin. rewrite Heq. apply list_elem_of_In.
    apply in_map. exact Hb. }
  lia.
Qed.

(** X11. When no two mapping objects of a constructed image start at the
    same address, the mapping list is strictly sorted by start address. *)
Theorem distinct_starts_strictly_sorted k fuel mem elf core :
  Core_init k fuel mem elf = Ok core ->
  NoDup (map start (objs core)) ->
  strictly_sorted (mapping_list core).
Proof.
  intros H Hnd. apply weakly_sorted_NoDup_strict.
  - apply mappings_ok_weakly_sorted. eapply Core_init_mappings_ok. exact H.
  - apply mapping_list_Permutation in H.
    assert (Hp : Permutation (map start (mapping_list core))
                   (map start (objs core)))
      by (apply Permutation_map; exact H).
    rewrite Hp. exact Hnd.
Qed.

(** Four mappings, made in the order [0x3000], [0x1000], [0x2000],
    [0x5000]. *)
Lemma distinct_starts_strictly_sorted_witness :
  exists core,
    Core_init linux 0 no_memory core_nt_file_replaced = Ok core /\
    map start (objs core) = [0x3000; 0x1000; 0x2000; 0x5000] /\
    map start (mapping_list core) = [0x1000; 0x2000; 0x3000; 0x5000] /\
    strictly_sorted (mapping_list core).
Proof.
  eexists. split; [vm_compute; reflexivity|].
  split; [vm_compute; reflexivity|]. split; [vm_compute; reflexivity|].
  refine (distinct_starts_strictly_sorted linux 0 no_memory
            core_nt_file_replaced _ ltac:(vm_compute; reflexivity) _).
  apply (bool_decide_unpack _). vm_compute. exact I.
Defined.

(** ** Without a mapped-file note *)

(** X12. Loadable segments alone give no mappings: when no note of the file
    is a mapped-file note, the constructed image has an empty mapping list,
    [self.stack] is never a mapping, and the environment is empty, whatever
    the segments, the other notes and the memory hold. *)
Theorem no_nt_file_no_mappings k fuel mem elf core :
  Core_init k fuel mem elf = Ok core ->
  Forall (fun n => n_type_is (n_type n) (NT_FILE k) = false) (all_notes elf) ->
  mappings core = [] /\ mapping_list core = [] /\
  env core = ∅ /\ forall id, stack core <> StackMapping id.
Proof.
  intros H Hno.
  pose proof (Core_init_stack_state_ok _ _ _ _ _ H) as Hst.
  apply Core_init_Ok in H as (_ & sizeof & self & _ & Hparse & Hloc).
  pose proof (parse_notes_env _ _ _ _ _ Hparse) as Henv.
  apply parse_notes_all_notes in Hparse.
  apply (for_each_handle_note_mappings _ _ _ _ Hno) in Hparse
    as (Ho & Hm & Ha).
  unfold locate_stack in Hloc. rewrite Hm in Hloc. simpl in Hloc.
  rewrite andb_false_r in Hloc. injection Hloc as <-.
  unfold mapping_list. rewrite Hm.
  repeat split; try assumption.
  intros id Hid. unfold stack_state_ok in Hst. rewrite Hid, Hm in Hst.
  destruct Hst as (v & m & _ & _ & Hin & _). exact Hin.
Qed.

(** Two loadable segments, a process-status note and an auxiliary vector
    that points into the first segment, where the memory holds a stack with
    an environment: no mapping is made, [self.stack] stays the address
    [0x2000], and the environment stays empty. *)
Lemma no_nt_file_no_mappings_witness :
  exists core,
    Core_init linux 64 good_stack core_without_nt_file = Ok core /\
    stack core = StackTop 0x2000 /\
    mappings core = [] /\ mapping_list core = [] /\ env core = ∅.
Proof.
  assert (E : exists core,
             Core_init linux 64 good_stack core_without_nt_file = Ok core /\
             stack core = StackTop 0x2000).
  { eexists. split; vm_compute; reflexivity. }
  destruct E as (core & E & Hs). exists core. split; [exact E|].
  split; [exact Hs|].
  destruct (no_nt_file_no_mappings linux 64 good_stack core_without_nt_file
              core E ltac:(vm_compute; repeat constructor))
    as (Hm & Hl & He & _).
  auto.
Defined.

(** ** The environment *)

Lemma fill_env_sound fuel mem ec slots :
  forall e e',
  fill_env fuel mem ec slots e = Ok e' ->
  forall nm a,
  e' !! nm = Some a ->
  e !! nm = Some a \/
  exists value, mem_string fuel mem a = Ok value /\
                bytes2str (split_first value) = nm.
Proof.
  induction slots as [|slot slots IH]; intros e e' H nm a Hl; simpl in H.
  - injection H as <-. left. exact Hl.
  - inv_bind H. rename a0 into envaddr. inv_bind H. rename a0 into value.
    destruct (IH _ _ H nm a Hl) as [Hin | Hnew]; [|right; exact Hnew].
    destruct (decide (bytes2str (split_first value) = nm)) as [<-|Hne].
    + rewrite lookup_insert_eq in Hin. injection Hin as <-. right. eauto.
    + rewrite lookup_insert_ne in Hin by assumption. left. exact Hin.
Qed.

Lemma _parse_stack_env_sound fuel mem elf self self' :
  _parse_stack fuel mem elf self = Ok self' ->
  forall nm a,
  env self' !! nm = Some a ->
  env self !! nm = Some a \/
  exists value, mem_string fuel mem a = Ok value /\
                bytes2str (split_first value) = nm.
Proof.
  unfold _parse_stack. intros H nm a Hl.
  destruct (at_execfn self); [|discriminate].
  destruct (b <- u8 mem (z - 1);; py_assert (b =? 0)) as [u|e|].
  - unfold reconstruct in H. repeat inv_bind H. injection H as <-.
    simpl in Hl. eapply fill_env_sound; eassumption.
  - destruct e; try discriminate; injection H as <-; left; exact Hl.
  - discriminate.
Qed.

(** X13. Every entry of the environment of a constructed image points at a
    string of the process memory whose part before the first ['='] is the
    entry's name, and [getenv] of that name succeeds and returns the rest of
    that string. *)
Theorem getenv_of_reconstructed_name k fuel mem elf core nm a :
  Core_init k fuel mem elf = Ok core ->
  env core !! nm = Some a ->
  exists value,
    mem_string fuel mem a = Ok value /\
    bytes2str (split_first value) = nm /\
    getenv fuel mem core nm = Ok (PyStr (bytes2str (split_last value))).
Proof.
  intros H Hl.
  assert (Hsound : forall nm a, env core !! nm = Some a ->
            exists value, mem_string fuel mem a = Ok value /\
                          bytes2str (split_first value) = nm).
  { revert H. apply (Core_init_invariant
      (fun c => env c = ∅)
      (fun c => forall nm a, env c !! nm = Some a ->
         exists value, mem_string fuel mem a = Ok value /\
                       bytes2str (split_first value) = nm)).
    - reflexivity.
    - intros self note st HP. exact HP.
    - intros self note self' HP Hp.
      apply _parse_nt_file_Ok in Hp as (ms & addrs & _ & ->). exact HP.
    - intros self v HP. exact HP.
    - intros self HP nm' a' Hl'. rewrite HP, lookup_empty in Hl'. discriminate.
    - intros self id HQ _ _. exact HQ.
    - intros self self' HQ Hp nm' a' Hl'.
      destruct (_parse_stack_env_sound _ _ _ _ _ Hp _ _ Hl') as [Hold|Hnew];
        [exact (HQ _ _ Hold) | exact Hnew]. }
  destruct (Hsound _ _ Hl) as (value & Hv & Hn). exists value.
  split; [exact Hv|]. split; [exact Hn|].
  unfold getenv. rewrite Hl. simpl. rewrite Hv. reflexivity.
Qed.

Lemma getenv_of_reconstructed_name_witness :
  exists core value,
    Core_init linux 64 good_stack core_with_stack = Ok core /\
    mem_string 64 good_stack 0x1fe8 = Ok value /\
    getenv 64 good_stack core "X" = Ok (PyStr (bytes2str (split_last value))).
Proof.
  assert (E : exists core,
             Core_init linux 64 good_stack core_with_stack = Ok core /\
             env core !! "X"%string = Some 0x1fe8).
  { eexists. split; vm_compute; reflexivity. }
  destruct E as (core & E & Hl).
  destruct (getenv_of_reconstructed_name linux 64 good_stack core_with_stack
              core "X" 0x1fe8 E Hl) as (value & Hv & _ & Hg).
  exists core, value. auto.
Defined.

Lemma mem_string_Raise fuel mem :
  forall address e, mem_string fuel mem address = Raise e -> e = ValueError.
Proof.
  induction fuel as [|fuel IH]; intros address e H; simpl in H; [discriminate|].
  destruct (mem address) as [b|]; [|congruence].
  destruct (byte_val b =? 0); [discriminate|].
  destruct (mem_string fuel mem (address + 1)) eqn:Hs; simpl in H;
    try discriminate.
  injection H as <-. eapply IH. exact Hs.
Qed.

(** X14. [getenv] fails with the error of [log.error] exactly when the name
    is not in the environment; a name that is there can only fail through
    the memory read. *)
Theorem getenv_error_iff_absent fuel mem self nm :
  getenv fuel mem self nm = Raise PwnlibException <-> env self !! nm = None.
Proof.
  unfold getenv. split.
  - destruct (env self !! nm) as [a|]; [|reflexivity]. simpl.
    destruct (mem_string fuel mem a) eqn:Hs; simpl; try discriminate.
    intros [= He]. apply mem_string_Raise in Hs. congruence.
  - intros ->. reflexivity.
Qed.

(** ** Splitting at the first ['='] *)

Lemma is_equals_true (b : byte) : is_equals b = true <-> b = x3d.
Proof.
  unfold is_equals, byte_val. split.
  - intros H. apply Z.eqb_eq in H.
    assert (Hn : Byte.to_N b = 61%N) by lia.
    pose proof (Byte.of_to_N b) as Hof. rewrite Hn in Hof.
    simpl in Hof. congruence.
  - intros ->. reflexivity.
Qed.

(** X15. The two splits used for names and values fit together: a string
    with an ['='] is its [split('=',1)[0]], the ['='], and its
    [split('=',1)[-1]], and the first part holds no ['=']; a string without
    ['='] is both its first and its last part. *)
Theorem split_at_first_equals (value : list byte) :
  (In x3d value ->
     value = split_first value ++ x3d :: split_last value /\
     ~ In x3d (split_first value)) /\
  (~ In x3d value -> split_first value = value /\ split_last value = value).
Proof.
  assert (Haux : forall whole v,
            (In x3d v ->
               v = split_first v ++ x3d :: split_last_aux whole v /\
               ~ In x3d (split_first v)) /\
            (~ In x3d v -> split_first v = v /\ split_last_aux whole v = whole)).
  { intros whole v. induction v as [|b r [IH1 IH2]]; simpl.
    - split; [contradiction | auto].
    - destruct (is_equals b) eqn:Hb.
      + apply is_equals_true in Hb as ->. split.
        * intros _. split; [reflexivity | auto].
        * intros Hn. destruct Hn. left. reflexivity.
      + assert (Hne : b <> x3d).
        { intros ->. rewrite (proj2 (is_equals_true x3d) eq_refl) in Hb.
          discriminate. }
        split.
        * intros [Heq | Hin]; [congruence|].
          destruct (IH1 Hin) as [E Hnot]. split.
          -- simpl. f_equal. exact E.
          -- simpl. intros [Heq | Hin']; [congruence | exact (Hnot Hin')].
        * intros Hn. destruct IH2 as [E1 E2]; [tauto|].
          split; [f_equal; exact E1 | exact E2]. }
  exact (Haux value value).
Qed.

(** ** Permissions *)

Lemma land_pow2_eqb (f k : Z) :
  0 <= k -> (Z.land f (2 ^ k) =? 0) = negb (Z.testbit f k).
Proof.
  intros Hk. destruct (Z.testbit f k) eqn:Hb; simpl.
  - apply Z.eqb_neq. intros H0.
    assert (Ht : Z.testbit (Z.land f (2 ^ k)) k = true)
      by (rewrite Z.land_spec, Hb, Z.pow2_bits_true by lia; reflexivity).
    rewrite H0, Z.bits_0 in Ht. discriminate.
  - apply Z.eqb_eq. apply Z.bits_inj'. intros n Hn.
    rewrite Z.land_spec, Z.bits_0, Z.pow2_bits_eqb by lia.
    destruct (Z.eqb_spec k n) as [->|_]; [rewrite Hb; reflexivity|].
    apply andb_false_r.
Qed.

(** X16. [permstr] reads the three low bits of the flags and nothing else:
    ['r'] is bit 2, ['w'] bit 1, ['x'] bit 0, each ['-'] when the bit is
    clear, and the last character is always ['p']. *)
Theorem permstr_reads_three_bits (m : Mapping) :
  permstr m =
    ((if Z.testbit (flags m) 2 then "r" else "-") ++
     (if Z.testbit (flags m) 1 then "w" else "-") ++
     (if Z.testbit (flags m) 0 then "x" else "-") ++ "p")%string.
Proof.
  unfold permstr.
  pose proof (land_pow2_eqb (flags m) 2 ltac:(lia)) as H4.
  pose proof (land_pow2_eqb (flags m) 1 ltac:(lia)) as H2.
  pose proof (land_pow2_eqb (flags m) 0 ltac:(lia)) as H1.
  change (2 ^ 2) with 4 in H4. change (2 ^ 1) with 2 in H2.
  change (2 ^ 0) with 1 in H1. rewrite H4, H2, H1.
  destruct (Z.testbit (flags m) 2), (Z.testbit (flags m) 1),
    (Z.testbit (flags m) 0); reflexivity.
Qed.

(** ** The first sanity check *)

(** X17. When the byte before the executable's name is missing from the
    dump or is not NUL, the stack is left alone: the constructor returns an
    image, and its environment is empty. *)
Theorem failed_sanity_check_is_silent k fuel mem elf sizeof self x :
  elftype elf = ET_CORE ->
  prstatus_sizeof k (arch elf) = Ok sizeof ->
  parse_notes k elf sizeof Core_new = Ok self ->
  at_execfn self = Some x ->
  (mem (x - 1) = None \/ exists b, mem (x - 1) = Some b /\ byte_val b <> 0) ->
  exists core, Core_init k fuel mem elf = Ok core /\ env core = ∅.
Proof.
  intros Htype Hsz Hparse Hx Hm. unfold Core_init. rewrite Htype. simpl.
  assert (Harch : match arch elf with
                  | arch_other => Raise NameError
                  | _ => Ok tt
                  end = Ok tt).
  { destruct (arch elf); try reflexivity. discriminate. }
  rewrite Harch, Hsz. simpl. rewrite Hparse. simpl.
  pose proof (parse_notes_env _ _ _ _ _ Hparse) as He. simpl in He.
  unfold locate_stack. destruct (_ && _); [|eauto].
  destruct (stack_loop_total
              (fun c => at_execfn c = Some x /\ env c = ∅)
              (_parse_stack fuel mem elf)) with (ms := mappings self) (c := self)
    as (core & Hcore & _ & Henv); auto.
  - intros c [Hc1 Hc2]. exists c. split; [|auto].
    unfold _parse_stack, u8. rewrite Hc1.
    destruct Hm as [-> | (b & -> & Hb)]; [reflexivity|]. simpl.
    destruct (Z.eqb_spec (byte_val b) 0); [contradiction | reflexivity].
  - eauto.
Qed.

Lemma failed_sanity_check_is_silent_witness :
  exists core,
    Core_init linux 8 (memory_at 0x1fe0 (str "0123456789abcdef"))
      core_with_stack = Ok core /\ env core = ∅.
Proof.
  assert (E : exists self,
             parse_notes linux core_with_stack 336 Core_new = Ok self /\
             at_execfn self = Some 0x1ff0).
  { eexists. split; vm_compute; reflexivity. }
  destruct E as (self & E & Hx).
  refine (failed_sanity_check_is_silent linux 8
            (memory_at 0x1fe0 (str "0123456789abcdef")) core_with_stack 336
            self 0x1ff0 eq_refl eq_refl E Hx _).
  right. exists "f"%byte.
  split; [vm_compute; reflexivity | vm_compute; discriminate].
Defined.

(** ** The register state *)





(** ** Decoding an encoded auxiliary vector *)

Lemma encode_auxv_cons ec p pairs :
  encode_auxv ec (p :: pairs) =
  (encode_word ec (fst p) ++ encode_word ec (snd p)) ++ encode_auxv ec pairs.
Proof. reflexivity. Qed.

(** The loop of [_parse_auxv] on encoded pairs. *)
Lemma auxv_loop_encode_auxv k ec pairs :
  Forall (fun p => word_ok ec (fst p) /\ word_ok ec (snd p)) pairs ->
  forall idx self,
  length idx = length pairs ->
  auxv_loop k ec idx (encode_auxv ec pairs) self =
    Ok (foldl (fun c p => if fst p =? AT_EXECFN k then set_execfn (snd p) c
                          else c) self pairs).
Proof.
  induction 1 as [|[key value] pairs [Hk Hv] _ IH]; intros idx self Hlen.
  - destruct idx; [reflexivity | discriminate].
  - destruct idx as [|i idx]; [discriminate|].
    rewrite encode_auxv_cons. cbn [fst snd auxv_loop].
    rewrite <- app_assoc.
    rewrite (tube_unpack_encode_word ec key) by exact Hk. simpl.
    rewrite (tube_unpack_encode_word ec value) by exact Hv. simpl.
    apply IH. simpl in Hlen. lia.
Qed.

Lemma length_encode_auxv ec pairs :
  Z.of_nat (length (encode_auxv ec pairs)) =
  Z.of_nat (length pairs) * (bytes ec * 2).
Proof.
  induction pairs as [|p pairs IH]; [reflexivity|].
  rewrite encode_auxv_cons. cbn [length]. rewrite !length_app.
  unfold encode_word at 1 2.
  rewrite !length_le_encode, !Nat2Z.inj_add, Nat2Z.inj_succ, IH.
  rewrite Z2Nat.id by (destruct ec; simpl; lia). lia.
Qed.

Lemma foldl_execfn k pairs :
  forall self,
  let self' := foldl (fun c p => if fst p =? AT_EXECFN k
                                 then set_execfn (snd p) c else c) self pairs in
  match last_execfn k pairs with
  | Some v => at_execfn self' = Some v /\ stack self' = StackTop (next_page v)
  | None => at_execfn self' = at_execfn self /\ stack self' = stack self
  end.
Proof.
  unfold last_execfn.
  induction pairs as [|p pairs IH] using rev_ind; intros self; simpl.
  - auto.
  - rewrite !foldl_app. simpl.
    destruct (fst p =? AT_EXECFN k).
    + split; [reflexivity | apply set_execfn_next_page].
    + apply IH.
Qed.

(** X19. Decoding an encoded auxiliary vector.  A descriptor made of
    key/value pairs of pointer-width words is decoded without error;
    afterwards [at_execfn] is the value of the last pair whose key is
    [AT_EXECFN] and [self.stack] is the page boundary above it, and when no
    pair has that key both are left as they were. *)
Theorem auxv_round_trip k elf self note pairs :
  Forall (fun p => word_ok (ei_class elf) (fst p) /\
                   word_ok (ei_class elf) (snd p)) pairs ->
  n_desc note = encode_auxv (ei_class elf) pairs ->
  n_descsz note = Z.of_nat (length (n_desc note)) ->
  exists self',
    _parse_auxv k elf self note = Ok self' /\
    match last_execfn k pairs with
    | Some v => at_execfn self' = Some v /\ stack self' = StackTop (next_page v)
    | None => at_execfn self' = at_execfn self /\ stack self' = stack self
    end.
Proof.
  intros Hpairs Hdesc Hsz. unfold _parse_auxv. rewrite Hdesc.
  rewrite (auxv_loop_encode_auxv k (ei_class elf) pairs Hpairs).
  - eexists. split; [reflexivity|]. apply foldl_execfn.
  - apply Nat2Z.inj.
    rewrite py_range_length
      by (rewrite ?Hsz; destruct (ei_class elf); simpl; lia).
    rewrite Hsz, Hdesc, length_encode_auxv.
    assert (Hb : 0 < bytes (ei_class elf) * 2)
      by (destruct (ei_class elf); simpl; lia).
    symmetry.
    apply Z.div_unique_pos with (r := bytes (ei_class elf) * 2 - 1); lia.
Qed.

Lemma auxv_round_trip_witness :
  exists self',
    _parse_auxv linux core_with_stack Core_new
      (mkNote 5 48 (NT_int 6) 0 "CORE"
         (encode_auxv ELFCLASS64 [(31, 0x1ff0); (31, 0x2ff8); (0, 0)]) 68)
      = Ok self' /\
    at_execfn self' = Some 0x2ff8 /\ stack self' = StackTop 0x3000.
Proof.
  exact (auxv_round_trip linux core_with_stack Core_new
           (mkNote 5 48 (NT_int 6) 0 "CORE"
              (encode_auxv ELFCLASS64 [(31, 0x1ff0); (31, 0x2ff8); (0, 0)]) 68)
           [(31, 0x1ff0); (31, 0x2ff8); (0, 0)]
           ltac:(repeat constructor; unfold word_ok; simpl; lia)
           eq_refl eq_refl).
Defined.

(** ** An empty range *)

(** X20. [iter_notes] yields nothing and raises nothing exactly when the
    segment has no bytes in the file: with [p_filesz <= 0] the loop is not
    entered, and any other range gives a first note or an error. *)
Theorem iter_notes_empty_iff stream p_offset p_filesz :
  iter_notes stream p_offset p_filesz = ([], None) <-> p_filesz <= 0.
Proof.
  unfold iter_notes. split.
  - intros H. apply iter_notes_from_nil in H as [[Hge _] | (_ & x & _ & Hx)];
      [lia | discriminate].
  - intros Hle. rewrite iter_notes_from_unfold.
    destruct (Z.ltb_spec p_offset (p_offset + p_filesz)); [lia | reflexivity].
Qed.

(** ** What a successful reconstruction found *)

Lemma scan_env_start_post mem fuel :
  forall a a',
  scan_env_start fuel mem a = Ok a' ->
  a' <= a /\ u8 mem (a' - 1) = Ok 0 /\
  forall y, a' <= y < a -> exists b, u8 mem y = Ok b /\ b <> 0.
Proof.
  induction fuel as [|fuel IH]; intros a a' H; simpl in H; [discriminate|].
  inv_bind H. rename a0 into b.
  destruct (Z.eqb_spec b 0) as [->|Hb]; simpl in H.
  - injection H as <-. split; [lia|]. split; [exact Ha|]. intros y Hy. lia.
  - apply IH in H as (Hle & Hz & Hall). split; [lia|]. split; [exact Hz|].
    intros y Hy. destruct (Z.eq_dec y (a - 1)) as [->|Hne]; [eauto|].
    apply Hall. lia.
Qed.

Lemma scan_envp_last_post mem ec last fuel :
  forall a a',
  scan_envp_last fuel mem ec last a = Ok a' ->
  exists n : nat,
    a' = a - Z.of_nat n * bytes ec /\
    mem_unpack mem ec a' = Ok last /\
    forall i : nat, (i < n)%nat ->
      exists v, mem_unpack mem ec (a - Z.of_nat i * bytes ec) = Ok v /\
                v <> last.
Proof.
  induction fuel as [|fuel IH]; intros a a' H; simpl in H; [discriminate|].
  inv_bind H. rename a0 into w.
  destruct (Z.eqb_spec w last) as [->|Hw]; simpl in H.
  - injection H as <-. exists O. split; [lia|]. split; [exact Ha|].
    intros i Hi. lia.
  - apply IH in H as (n & -> & Hl & Hall). exists (S n).
    split; [lia|]. split; [exact Hl|].
    intros [|i] Hi.
    + exists w. rewrite Z.sub_0_r. auto.
    + destruct (Hall i ltac:(lia)) as (v & Hv & Hne). exists v.
      split; [|exact Hne]. rewrite <- Hv. f_equal. lia.
Qed.

Lemma scan_envp_first_post mem ec fuel :
  forall a a',
  scan_envp_first fuel mem ec a = Ok a' ->
  exists n : nat,
    a' = a - Z.of_nat n * bytes ec /\
    mem_unpack mem ec (a' - bytes ec) = Ok 0 /\
    forall i : nat, (1 <= i <= n)%nat ->
      exists v, mem_unpack mem ec (a - Z.of_nat i * bytes ec) = Ok v /\
                v <> 0.
Proof.
  induction fuel as [|fuel IH]; intros a a' H; simpl in H; [discriminate|].
  inv_bind H. rename a0 into w.
  destruct (Z.eqb_spec w 0) as [->|Hw]; simpl in H.
  - injection H as <-. exists O. split; [lia|].
    split; [rewrite <- Ha; f_equal; lia|]. intros i Hi. lia.
  - apply IH in H as (n & -> & Hz & Hall). exists (S n).
    split; [lia|]. split; [rewrite <- Hz; f_equal; lia|].
    intros i Hi. destruct (Nat.eq_dec i 1%nat) as [->|Hne].
    + exists w. split; [rewrite <- Ha; f_equal; lia | exact Hw].
    + destruct (Hall (i - 1)%nat ltac:(lia)) as (v & Hv & Hv0). exists v.
      split; [|exact Hv0]. rewrite <- Hv. f_equal. lia.
Qed.

(** Every slot of the loop leaves its name in the environment. *)
Lemma fill_env_complete fuel mem ec slots :
  forall e e',
  fill_env fuel mem ec slots e = Ok e' ->
  (forall nm, is_Some (e !! nm) -> is_Some (e' !! nm)) /\
  forall slot, In slot slots ->
    exists a value,
      mem_unpack mem ec slot = Ok a /\ mem_string fuel mem a = Ok value /\
      is_Some (e' !! bytes2str (split_first value)).
Proof.
  induction slots as [|s slots IH]; intros e e' H; simpl in H.
  - injection H as <-. split; [auto | contradiction].
  - inv_bind H. rename a into envaddr. inv_bind H. rename a into value.
    apply IH in H as [Hkeep Hall]. split.
    + intros nm Hnm. apply Hkeep. apply lookup_insert_is_Some.
      destruct (decide (bytes2str (split_first value) = nm)); auto.
    + intros slot [<- | Hin]; [|exact (Hall slot Hin)].
      exists envaddr, value. split; [exact Ha|]. split; [exact Ha0|].
      apply Hkeep. rewrite lookup_insert_eq. eauto.
Qed.

Lemma py_range_slots start step (n : nat) :
  0 < step ->
  py_range start (start + Z.of_nat n * step) step =
  map (fun i => start + Z.of_nat i * step) (seq 0 n).
Proof.
  intros Hstep. unfold py_range.
  destruct (Z.leb_spec (start + Z.of_nat n * step) start) as [Hle|Hgt].
  - assert (n = O) as -> by nia. reflexivity.
  - replace ((start + Z.of_nat n * step - start + step - 1) / step)
      with (Z.of_nat n).
    + rewrite Nat2Z.id. reflexivity.
    + apply Z.div_unique_pos with (r := step - 1); lia.
Qed.

(** X21. What a reconstruction that went through found in memory.  Below
    the NUL before the executable's name lies a string without NUL, the last
    environment string, with a NUL before it.  A word holding that string's
    address is followed by a NULL word: the end of envp.  Going down from
    there the words are non-zero until a NULL word, the end of argv.  Every
    word of envp between the two NULL words points at a string in memory,
    and the part of that string before its first ['='] is a name of the
    resulting environment. *)
Theorem reconstruction_found_envp fuel mem elf self self' x :
  _parse_stack fuel mem elf self = Ok self' ->
  at_execfn self = Some x ->
  u8 mem (x - 1) = Ok 0 ->
  let w := bytes (ei_class elf) in
  exists (last envp_last : Z) (n : nat),
    (last <= x - 1 /\ u8 mem (last - 1) = Ok 0 /\
     forall y, last <= y < x - 1 -> exists b, u8 mem y = Ok b /\ b <> 0) /\
    (mem_unpack mem (ei_class elf) envp_last = Ok last /\
     mem_unpack mem (ei_class elf) (envp_last + w) = Ok 0) /\
    (mem_unpack mem (ei_class elf) (envp_last - Z.of_nat (S n) * w) = Ok 0 /\
     forall i : nat, (1 <= i <= n)%nat ->
       exists v, mem_unpack mem (ei_class elf) (envp_last - Z.of_nat i * w)
                 = Ok v /\ v <> 0) /\
    (forall i : nat, (i <= n)%nat ->
       exists a value,
         mem_unpack mem (ei_class elf) (envp_last - Z.of_nat i * w) = Ok a /\
         mem_string fuel mem a = Ok value /\
         is_Some (env self' !! bytes2str (split_first value))).
Proof.
  intros H Hx Hz.
  assert (Hw : 0 < bytes (ei_class elf))
    by (destruct (ei_class elf); simpl; lia).
  intros w. fold w in Hw.
  unfold _parse_stack in H. rewrite Hx, Hz in H.
  simpl in H. unfold reconstruct in H. fold w in H.
  apply bind_Ok in H as (last & H1 & H).
  apply bind_Ok in H as (envp_last & H2 & H).
  apply bind_Ok in H as (term & H3 & H).
  apply bind_Ok in H as (u & H4 & H).
  apply bind_Ok in H as (first & H5 & H).
  apply bind_Ok in H as (e & H6 & H).
  injection H as <-.
  apply scan_env_start_post in H1 as (Hle & Hnul & Hstr).
  apply scan_envp_last_post in H2 as (k & _ & Hlast & _).
  unfold py_assert in H4. destruct (Z.eqb_spec term 0) as [->|]; [|discriminate].
  apply scan_envp_first_post in H5 as (n & -> & Hbelow & Hwords).
  fold w in Hbelow, Hwords.
  exists last, envp_last, n.
  split; [auto|]. split; [auto|]. split.
  - split; [rewrite <- Hbelow; f_equal; lia | exact Hwords].
  - replace (envp_last + w)
      with (envp_last - Z.of_nat n * w + Z.of_nat (S n) * w) in H6 by lia.
    rewrite py_range_slots in H6 by exact Hw.
    apply fill_env_complete in H6 as [_ Hall].
    intros i Hi.
    destruct (Hall (envp_last - Z.of_nat i * w)) as (a & value & E1 & E2 & E3).
    + apply in_map_iff. exists (n - i)%nat.
      split; [rewrite Nat2Z.inj_sub by lia; lia|].
      apply in_seq. lia.
    + exists a, value. auto.
Qed.

Lemma reconstruction_found_envp_witness :
  exists self' (last envp_last : Z),
    _parse_stack 64 good_stack core_with_stack
      (set_execfn 0x1ff0 Core_new) = Ok self' /\
    mem_unpack good_stack ELFCLASS64 envp_last = Ok last /\
    mem_unpack good_stack ELFCLASS64 (envp_last + 8) = Ok 0.
Proof.
  assert (E : exists self',
             _parse_stack 64 good_stack core_with_stack
               (set_execfn 0x1ff0 Core_new) = Ok self').
  { eexists. vm_compute. reflexivity. }
  destruct E as (self' & E).
  destruct (reconstruction_found_envp 64 good_stack core_with_stack
              (set_execfn 0x1ff0 Core_new) self' 0x1ff0 E eq_refl
              ltac:(vm_compute; reflexivity))
    as (last & envp_last & n & _ & [H1 H2] & _).
  exists self', last, envp_last. auto.
Defined.

(** ** The scans end *)

Lemma bind_not_OutOfFuel {A B} (r : result A) (k : A -> result B) :
  r <> OutOfFuel -> (forall a, r = Ok a -> k a <> OutOfFuel) ->
  bind r k <> OutOfFuel.
Proof.
  intros Hr Hk. destruct r as [a|e|]; simpl; [auto | discriminate | contradiction].
Qed.

Lemma mem_read_not_OutOfFuel mem count :
  forall address, mem_read mem address count <> OutOfFuel.
Proof.
  induction count as [|count IH]; intros address; simpl; [discriminate|].
  destruct (mem address); [|discriminate].
  apply bind_not_OutOfFuel; [apply IH | discriminate].
Qed.

Lemma mem_unpack_not_OutOfFuel mem ec address :
  mem_unpack mem ec address <> OutOfFuel.
Proof.
  apply bind_not_OutOfFuel; [apply mem_read_not_OutOfFuel | discriminate].
Qed.

Lemma mem_unpack_unmapped mem ec address :
  mem address = None -> mem_unpack mem ec address = Raise ValueError.
Proof.
  intros H. unfold mem_unpack.
  destruct (Z.to_nat (bytes ec)) as [|n] eqn:Hn;
    [destruct ec; simpl in Hn; lia|].
  simpl. rewrite H. reflexivity.
Qed.

Section Bounded.

Variable mem : memory.
Variables lo hi : Z.
Hypothesis below : forall a, a < lo -> mem a = None.
Hypothesis above : forall a, hi <= a -> mem a = None.

Lemma scan_env_start_ends fuel :
  forall a, (Z.to_nat (a - lo) < fuel)%nat ->
  scan_env_start fuel mem a <> OutOfFuel.
Proof.
  induction fuel as [|fuel IH]; intros a Hf; [lia|]. simpl. unfold u8.
  destruct (mem (a - 1)) as [b|] eqn:Hb; [|discriminate]. simpl.
  destruct (Z.lt_ge_cases (a - 1) lo) as [Hlt|Hge];
    [rewrite below in Hb by exact Hlt; discriminate|].
  destruct (byte_val b =? 0); simpl; [discriminate|].
  apply IH. lia.
Qed.

Lemma scan_envp_last_ends ec last fuel :
  forall a, (Z.to_nat (a - lo + 1) < fuel)%nat ->
  scan_envp_last fuel mem ec last a <> OutOfFuel.
Proof.
  induction fuel as [|fuel IH]; intros a Hf; [lia|]. simpl.
  destruct (Z.lt_ge_cases a lo) as [Hlt|Hge].
  - rewrite mem_unpack_unmapped by (apply below; exact Hlt). discriminate.
  - apply bind_not_OutOfFuel; [apply mem_unpack_not_OutOfFuel|].
    intros w _. destruct (w =? last); simpl; [discriminate|].
    apply IH. destruct ec; simpl; lia.
Qed.

Lemma scan_envp_first_ends ec fuel :
  forall a, (Z.to_nat (a - lo) < fuel)%nat ->
  scan_envp_first fuel mem ec a <> OutOfFuel.
Proof.
  induction fuel as [|fuel IH]; intros a Hf; [lia|]. simpl.
  destruct (Z.lt_ge_cases (a - bytes ec) lo) as [Hlt|Hge].
  - rewrite mem_unpack_unmapped by (apply below; exact Hlt). discriminate.
  - apply bind_not_OutOfFuel; [apply mem_unpack_not_OutOfFuel|].
    intros w _. destruct (w =? 0); simpl; [discriminate|].
    apply IH. destruct ec; simpl in *; lia.
Qed.

Lemma mem_string_ends fuel :
  forall a, (0 < fuel)%nat ->
  (lo <= a -> (Z.to_nat (hi - a) < fuel)%nat) ->
  mem_string fuel mem a <> OutOfFuel.
Proof.
  induction fuel as [|fuel IH]; intros a Hf Ha; [lia|]. simpl.
  destruct (mem a) as [b|] eqn:Hb; [|discriminate].
  destruct (Z.lt_ge_cases a lo) as [Hlt|Hge];
    [rewrite below in Hb by exact Hlt; discriminate|].
  destruct (Z.lt_ge_cases a hi) as [Hlt|Hge'];
    [|rewrite above in Hb by exact Hge'; discriminate].
  destruct (byte_val b =? 0); [discriminate|].
  apply bind_not_OutOfFuel; [|discriminate].
  specialize (Ha Hge). apply IH; lia.
Qed.

Lemma fill_env_ends ec fuel slots :
  (Z.to_nat (hi - lo) < fuel)%nat ->
  forall e, fill_env fuel mem ec slots e <> OutOfFuel.
Proof.
  intros Hf. induction slots as [|slot slots IH]; intros e; simpl;
    [discriminate|].
  apply bind_not_OutOfFuel; [apply mem_unpack_not_OutOfFuel|].
  intros envaddr _.
  apply bind_not_OutOfFuel; [|intros value _; apply IH].
  apply mem_string_ends; [lia|]. intros Hge. lia.
Qed.

End Bounded.

Lemma align_down_le (ec : elfclass) (a : Z) :
  Z.land a (Z.lnot (bytes ec - 1)) <= a.
Proof.
  rewrite <- Z.ldiff_land.
  assert (H : exists n, 0 <= n /\ bytes ec - 1 = Z.ones n /\ 0 < 2 ^ n).
  { destruct ec; [exists 2 | exists 3]; simpl; repeat split; lia. }
  destruct H as (n & Hn & -> & Hpos).
  rewrite Z.ldiff_ones_r by exact Hn.
  rewrite Z.shiftl_mul_pow2, Z.shiftr_div_pow2 by exact Hn.
  pose proof (Z.div_mod a (2 ^ n) ltac:(lia)).
  pose proof (Z.mod_pos_bound a (2 ^ n) Hpos). lia.
Qed.

(** X22. The scans of [_parse_stack] end.  When the dump holds no memory
    below [lo] and none from [hi] on, reconstruction from an executable name
    at [x] is decided within [(x - lo) + (hi - lo) + 2] turns: every
    backward scan stops at a NUL, at the word it looks for, or by reading
    below [lo], and every string read stops at a NUL or at [hi].  It returns
    or raises; it cannot go on for ever. *)
Theorem _parse_stack_ends fuel mem elf self x lo hi :
  (forall a, a < lo -> mem a = None) ->
  (forall a, hi <= a -> mem a = None) ->
  at_execfn self = Some x ->
  (Z.to_nat (x - lo) + Z.to_nat (hi - lo) + 2 <= fuel)%nat ->
  _parse_stack fuel mem elf self <> OutOfFuel.
Proof.
  intros Hbelow Habove Hx Hfuel. unfold _parse_stack. rewrite Hx.
  destruct (b <- u8 mem (x - 1);; py_assert (b =? 0)) as [u|e|] eqn:Hcheck.
  - unfold reconstruct.
    apply bind_not_OutOfFuel;
      [eapply scan_env_start_ends; [exact Hbelow | lia]|].
    intros last Hlast. apply scan_env_start_post in Hlast as (Hle & _ & _).
    pose proof (align_down_le (ei_class elf) last) as Halign.
    apply bind_not_OutOfFuel;
      [eapply scan_envp_last_ends; [exact Hbelow | lia]|].
    intros envp_last Hel.
    apply scan_envp_last_post in Hel as (n & Hn & _ & _).
    assert (envp_last <= last).
    { assert (0 <= Z.of_nat n * bytes (ei_class elf))
        by (destruct (ei_class elf); simpl; lia). lia. }
    apply bind_not_OutOfFuel; [apply mem_unpack_not_OutOfFuel|]. intros w _.
    apply bind_not_OutOfFuel; [unfold py_assert; destruct (w =? 0); discriminate|].
    intros _ _.
    apply bind_not_OutOfFuel;
      [eapply scan_envp_first_ends; [exact Hbelow | lia]|].
    intros first _.
    apply bind_not_OutOfFuel; [|discriminate].
    eapply fill_env_ends; [exact Hbelow | exact Habove | lia].
  - destruct e; discriminate.
  - unfold u8, py_assert in Hcheck.
    destruct (mem (x - 1)); simpl in Hcheck; [|discriminate].
    destruct (byte_val b =? 0); discriminate.
Qed.

Lemma _parse_stack_ends_witness :
  exists r,
    _parse_stack 162 truncated_stack core_with_stack
      (set_execfn 0x1ff0 Core_new) = r /\ r <> OutOfFuel.
Proof.
  eexists. split; [reflexivity|].
  apply (_parse_stack_ends 162 truncated_stack core_with_stack
           (set_execfn 0x1ff0 Core_new) 0x1ff0 0x1fec 0x2000).
  - intros a Ha. unfold truncated_stack, memory_at.
    destruct (Z.leb_spec 0x1fec a); [lia | reflexivity].
  - intros a Ha. unfold truncated_stack, memory_at.
    change (Z.of_nat (length (cstr "A=b" ++ cstr "/bin/sh" ++ le_encode 8 0)))
      with 20.
    destruct (Z.ltb_spec a (0x1fec + 20)); [lia|].
    rewrite andb_false_r. reflexivity.
  - reflexivity.
  - vm_compute. lia.
Defined.
(** ** The sizes of the notes of a well-formed range *)

(** Padding to four bytes rounds the length up to a multiple of four. *)
Lemma length_pad4_round_up (bs : list byte) :
  Z.of_nat (length (pad4 bs)) = round_up (Z.of_nat (length bs)) 4.
Proof.
  unfold pad4, round_up. rewrite length_app, repeat_length, Nat2Z.inj_add.
  set (n := Z.of_nat (length bs)).
  assert (Hn : 0 <= n) by (unfold n; lia).
  rewrite Z2Nat.id by (apply Z.mod_pos_bound; lia).
  pose proof (Z.div_mod (- n) 4 ltac:(lia)) as E1.
  pose proof (Z.mod_pos_bound (- n) 4 ltac:(lia)) as B1.
  pose proof (Z.div_mod (n + 4 - 1) 4 ltac:(lia)) as E2.
  pose proof (Z.mod_pos_bound (n + 4 - 1) 4 ltac:(lia)) as B2.
  lia.
Qed.

(** An encoded note takes the header, the padded name and the padded
    descriptor. *)
Lemma length_encode_note nm ty desc :
  Z.of_nat (length (encode_note nm ty desc)) =
  Elf_Nhdr_sizeof + round_up (Z.of_nat (length (cstr nm))) 4
  + round_up (Z.of_nat (length desc)) 4.
Proof.
  unfold encode_note, Elf_Nhdr_sizeof.
  rewrite !length_app, !length_le_encode, !Nat2Z.inj_add,
    !length_pad4_round_up.
  lia.
Qed.

(** C8. For a byte range holding well-formed notes (notes laid out one
    after the other, each as its header, its terminated name padded to four
    bytes and its descriptor padded to four bytes, and nothing else), the
    iteration ends without error, every yielded note carries the name and
    descriptor lengths of the note laid out there, the size recorded in it
    is the header size plus the name length rounded up to four plus the
    descriptor length rounded up to four, and the sizes of the yielded notes
    add up to the length of the range. *)
Theorem iter_notes_well_formed_range_sizes specs (pre post : list byte) :
  Forall note_spec_ok specs ->
  exists notes,
    iter_notes (pre ++ encode_notes specs ++ post)
      (Z.of_nat (length pre)) (Z.of_nat (length (encode_notes specs)))
    = (notes, None) /\
    map note_lengths notes =
      map (fun s : note_spec =>
             (fst (fst s), Z.of_nat (length (cstr (fst (fst s)))),
              snd s, Z.of_nat (length (snd s)))) specs /\
    Forall (fun n => n_size n = Elf_Nhdr_sizeof + round_up (n_namesz n) 4
                                + round_up (n_descsz n) 4) notes /\
    total_size notes = Z.of_nat (length (encode_notes specs)).
Proof.
  intros H. unfold iter_notes. revert pre post.
  induction H as [|[[nm ty] desc] specs Hs _ IH]; intros pre post.
  - exists []. split; [|split; [reflexivity|split; [constructor|reflexivity]]].
    rewrite iter_notes_from_unfold.
    change (encode_notes []) with (@nil byte).
    match goal with
    | |- context [?a <? ?b] => destruct (Z.ltb_spec a b) as [Hlt|_]
    end; [simpl in Hlt; lia | reflexivity].
  - rewrite encode_notes_cons.
    pose proof (length_encode_note_pos nm ty desc) as Hpos.
    rewrite iter_notes_from_unfold.
    match goal with
    | |- context [?a <? ?b] => destruct (Z.ltb_spec a b) as [_|Hge]
    end; [|rewrite length_app in Hge; lia].
    rewrite <- app_assoc.
    rewrite (read_note_encode_note pre (encode_notes specs ++ post) nm ty desc Hs).
    destruct (IH (pre ++ encode_note nm ty desc) post)
      as (notes & Hrun & Hc & Hf & Ht).
    rewrite <- app_assoc in Hrun.
    rewrite length_app, Nat2Z.inj_add in Hrun.
    rewrite length_app, Nat2Z.inj_add, Z.add_assoc. rewrite Hrun.
    eexists. split; [reflexivity|].
    split; [|split].
    + cbn [map fst snd note_lengths n_name n_namesz n_desc n_descsz].
      rewrite Hc. reflexivity.
    + constructor; [|exact Hf].
      cbn [n_size n_namesz n_descsz]. apply length_encode_note.
    + change ((notes, @None exn).1) with notes.
      change (total_size (?x :: notes)) with (n_size x + total_size notes).
      cbn [n_size]. rewrite Ht. reflexivity.
Qed.

(** Three notes of twenty-four, fifty-two and twenty-four bytes between other
    bytes of a file: names of five, six and two bytes with the terminator,
    descriptors of two, thirty-two and five bytes. *)
Lemma iter_notes_well_formed_range_sizes_witness :
  exists notes,
    iter_notes
      (str "ELF" ++
       encode_notes [("CORE"%string, 1, str "ab");
                     ("LINUX"%string, 6, auxv_execfn);
                     ("X"%string, 7, str "12345")] ++ str "tail")
      3 100 = (notes, None) /\
    map note_lengths notes =
      [("CORE"%string, 5, str "ab", 2);
       ("LINUX"%string, 6, auxv_execfn, 32);
       ("X"%string, 2, str "12345", 5)] /\
    Forall (fun n => n_size n = Elf_Nhdr_sizeof + round_up (n_namesz n) 4
                                + round_up (n_descsz n) 4) notes /\
    total_size notes = 100.
Proof.
  exact (iter_notes_well_formed_range_sizes
           [("CORE"%string, 1, str "ab"); ("LINUX"%string, 6, auxv_execfn);
            ("X"%string, 7, str "12345")]
           (str "ELF") (str "tail")
           ltac:(repeat constructor; simpl; try lia; vm_compute; discriminate)).
Defined.

(** The sizes that the three notes carry. *)
Lemma iter_notes_sizes_example :
  exists notes,
    iter_notes
      (str "ELF" ++
       encode_notes [("CORE"%string, 1, str "ab");
                     ("LINUX"%string, 6, auxv_execfn);
                     ("X"%string, 7, str "12345")] ++ str "tail")
      3 100 = (notes, None) /\
    map n_size notes = [24; 52; 24].
Proof. eexists. split; vm_compute; reflexivity. Qed.

(** ** The last mapped-file note, by its contents *)

Lemma loadable_cons s segs key : loadable segs key -> loadable (s :: segs) key.
Proof. intros (s' & Hin & Ht & Hk). exists s'. split; [right|]; auto. Qed.

(** The segment loop keeps start, end and name of the mappings it finds, and
    what it appends comes from loadable segments. *)
Lemma merge_segments_keys segs :
  forall (ms : list Mapping) addrs,
  index_ok ms addrs ->
  exists ms' addrs' extra,
    merge_segments segs ms addrs = Ok (ms', addrs') /\
    map mapping_key ms' = map mapping_key ms ++ extra /\
    Forall (loadable segs) extra.
Proof.
  induction segs as [|s segs IH]; intros ms addrs Hok; simpl.
  - exists ms, addrs, []. split; [reflexivity|].
    split; [symmetry; apply app_nil_r | constructor].
  - destruct (p_type s) eqn:Ht;
      try (destruct (IH ms addrs Hok) as (ms' & addrs' & extra & E & Hk & Hx);
           exists ms', addrs', extra; split; [exact E|]; split; [exact Hk|];
           eapply List.Forall_impl; [|exact Hx];
           intros key; apply loadable_cons).
    destruct (addrs !! p_vaddr s) as [id|] eqn:Hl.
    + destruct Hok as [H1 H2]. destruct (H1 _ _ Hl) as (m & Hm & Hs).
      unfold store_update. rewrite Hm. simpl.
      destruct (IH (<[id := set_flags (p_flags s) m]> ms) addrs)
        as (ms' & addrs' & extra & -> & Hk & Hx).
      { eapply index_ok_insert; [split; eassumption|exact Hm|reflexivity]. }
      exists ms', addrs', extra. split; [reflexivity|]. split.
      * rewrite Hk. f_equal. rewrite list_fmap_insert. apply list_insert_id.
        rewrite list_lookup_fmap, Hm. reflexivity.
      * eapply List.Forall_impl; [|exact Hx]. intros key; apply loadable_cons.
    + destruct (IH (ms ++ [Mapping_init None (p_vaddr s)
                             (p_vaddr s + p_memsz s) (p_flags s)])
                  (<[p_vaddr s := length ms]> addrs))
        as (ms' & addrs' & extra & -> & Hk & Hx).
      { exact (index_ok_snoc ms addrs _ Hok). }
      exists ms', addrs', (segment_mapping_key s :: extra).
      split; [reflexivity|]. split.
      * rewrite Hk, map_app, <- app_assoc. reflexivity.
      * constructor.
        -- exists s. split; [left; reflexivity|]. split; [exact Ht|reflexivity].
        -- eapply List.Forall_impl; [|exact Hx].
           intros key; apply loadable_cons.
Qed.

(** What a descriptor laid out as count, page size, triples and names
    gives: a mapping for each file, in their order, then mappings for
    loadable segments. *)
Lemma build_mappings_encoded elf page_size entries :
  word_ok (ei_class elf) (Z.of_nat (length entries)) ->
  word_ok (ei_class elf) page_size ->
  Forall (entry_ok (ei_class elf)) entries ->
  exists ms addrs extra,
    build_mappings elf (encode_nt_file (ei_class elf) page_size entries)
      = Ok (ms, addrs) /\
    map mapping_key ms
      = map (fun e => mapping_key (entry_mapping e)) entries ++ extra /\
    Forall (loadable (segments elf)) extra.
Proof.
  intros Hcount Hpage Hentries. unfold build_mappings, encode_nt_file.
  rewrite (tube_unpack_encode_word _ _ _ Hcount). simpl.
  rewrite (tube_unpack_encode_word _ _ _ Hpage). simpl.
  rewrite Nat2Z.id.
  destruct (read_triples_encode (ei_class elf) entries Hentries
              (concat (map (fun e => cstr (entry_name e)) entries)) [] ∅)
    as [addrs1 Ht].
  rewrite Ht. simpl.
  assert (Hnames : Forall (fun e => Forall (fun b => byte_val b <> 0)
                                      (str (entry_name e))) entries).
  { eapply List.Forall_impl; [|exact Hentries].
    intros [[[s e] o] n] (_ & _ & _ & Hn). exact Hn. }
  pose proof (read_names_encode entries Hnames [] []) as Hr.
  simpl in Hr. rewrite app_nil_r in Hr. rewrite Hr. simpl.
  assert (Hok : index_ok (map entry_mapping entries) addrs1).
  { pose proof (read_triples_index _ _ _ _ _ _ _ _ index_ok_empty Ht) as Hi.
    pose proof (read_names_index _ addrs1 _ _ _ _ Hi Hr) as Hi'. exact Hi'. }
  destruct (merge_segments_keys (segments elf) _ _ Hok)
    as (ms & addrs & extra & -> & Hk & Hx).
  exists ms, addrs, extra. split; [reflexivity|].
  split; [|exact Hx]. rewrite Hk, map_map. reflexivity.
Qed.

(** The list made of a store by sorting its identities holds the objects of
    the store, each once. *)
Lemma sorted_store_Permutation (ms : list Mapping) :
  Permutation
    (omap (fun id => ms !! id)
       (sorted_by (obj_start ms) (seq 0 (length ms)))) ms.
Proof.
  rewrite (omap_Permutation _ _ _ (sorted_by_Permutation _ _)).
  pose proof (omap_lookup_seq [] ms) as H. simpl in H. rewrite H. reflexivity.
Qed.

(** C10. Each parse of a mapped-file note builds the mapping list and the
    start-address index anew from that note's descriptor and the loadable
    segments: whatever state the note pass started from and whatever notes
    came before, after the pass the store, the mapping list and the index
    are those of the last mapped-file note alone.  By its contents: when the
    descriptor of that note is a table of files, the store holds a mapping
    with the start, end and name of each file of that table, in their order,
    then mappings made for loadable segments, and the mapping list holds
    these and nothing else; nothing of an earlier mapped-file note is
    left. *)
Theorem last_nt_file_note_contents k elf sizeof self0 self pre note post :
  parse_notes k elf sizeof self0 = Ok self ->
  all_notes elf = pre ++ note :: post ->
  n_type_is (n_type note) (NT_FILE k) = true ->
  Forall (fun m => n_type_is (n_type m) (NT_FILE k) = false) post ->
  build_mappings elf (n_desc note) = Ok (objs self, addresses self) /\
  mappings self
    = sorted_by (obj_start (objs self)) (seq 0 (length (objs self))) /\
  forall page_size entries,
    n_desc note = encode_nt_file (ei_class elf) page_size entries ->
    word_ok (ei_class elf) (Z.of_nat (length entries)) ->
    word_ok (ei_class elf) page_size ->
    Forall (entry_ok (ei_class elf)) entries ->
    exists extra,
      map mapping_key (objs self)
        = map (fun e => mapping_key (entry_mapping e)) entries ++ extra /\
      Forall (loadable (segments elf)) extra /\
      Permutation (map mapping_key (mapping_list self))
        (map (fun e => mapping_key (entry_mapping e)) entries ++ extra).
Proof.
  intros Hparse Hnotes Hq Hpost.
  destruct (parse_notes_last_nt_file _ _ _ _ _ _ _ _ Hparse Hnotes Hq Hpost)
    as (ms & addrs & Hb & Ho & Hm & Ha).
  subst ms addrs. split; [exact Hb|]. split; [exact Hm|].
  intros page_size entries Hdesc Hcount Hpage Hentries.
  destruct (build_mappings_encoded elf page_size entries Hcount Hpage Hentries)
    as (ms & addrs & extra & Hb' & Hk & Hx).
  rewrite Hdesc, Hb' in Hb. injection Hb as Ho Ha.
  exists extra. rewrite <- Ho. split; [exact Hk|]. split; [exact Hx|].
  rewrite <- Hk. apply Permutation_map.
  unfold mapping_list. rewrite Hm, <- Ho. apply sorted_store_Permutation.
Qed.

(** A note with the file ["/lib/x"] at [0x5000], then a note with the files
    ["/bin/b"] at [0x3000] and ["/bin/a"] at [0x1000]: the two files of the
    second note are mapped, and the segments at [0x2000] and [0x5000] get
    mappings without a name. *)
Lemma last_nt_file_note_contents_witness :
  exists self,
    parse_notes linux core_nt_file_replaced 336 Core_new = Ok self /\
    map mapping_key (mapping_list self) =
      [(0x1000, 0x2000, Some "/bin/a"%string); (0x2000, 0x3000, None);
       (0x3000, 0x4000, Some "/bin/b"%string); (0x5000, 0x6000, None)] /\
    exists extra,
      map mapping_key (objs self)
        = [(0x3000, 0x4000, Some "/bin/b"%string);
           (0x1000, 0x2000, Some "/bin/a"%string)] ++ extra /\
      Forall (loadable (segments core_nt_file_replaced)) extra /\
      Permutation (map mapping_key (mapping_list self))
        ([(0x3000, 0x4000, Some "/bin/b"%string);
          (0x1000, 0x2000, Some "/bin/a"%string)] ++ extra).
Proof.
  eexists. split; [vm_compute; reflexivity|].
  split; [vm_compute; reflexivity|].
  refine (proj2 (proj2
            (last_nt_file_note_contents linux core_nt_file_replaced 336
               Core_new _ [_]
               (mkNote 5 78 (NT_int 0x46494c45) 68 "CORE" nt_file_unsorted 100)
               []
               ltac:(vm_compute; reflexivity) ltac:(vm_compute; reflexivity)
               ltac:(vm_compute; reflexivity) ltac:(constructor)))
            4096
            [(0x3000, 0x4000, 0, "/bin/b"%string);
             (0x1000, 0x2000, 1, "/bin/a"%string)]
            ltac:(reflexivity) ltac:(unfold word_ok; simpl; lia)
            ltac:(unfold word_ok; simpl; lia) _).
  repeat constructor; unfold word_ok; simpl; try lia; vm_compute; discriminate.
Defined.

(** ** The index and the mapping list *)

Lemma NoDup_map_In_inj {A B} (f : A -> B) (l : list A) x y :
  NoDup (map f l) -> In x l -> In y l -> f x = f y -> x = y.
Proof.
  induction l as [|a l IH]; simpl; [contradiction|].
  intros Hnd Hx Hy Hf. apply NoDup_cons in Hnd as [Hnotin Hnd].
  destruct Hx as [-> | Hx], Hy as [-> | Hy]; auto.
  - exfalso. apply Hnotin. rewrite Hf. apply list_elem_of_In.
    apply in_map. exact Hy.
  - exfalso. apply Hnotin. rewrite <- Hf. apply list_elem_of_In.
    apply in_map. exact Hx.
Qed.

Lemma lookup_In {A} (l : list A) i x : l !! i = Some x -> In x l.
Proof. intros H. apply list_elem_of_In. eapply list_elem_of_lookup_2. exact H. Qed.

(** X2. On every constructed image the start-address index and the mapping
    list agree as far as shared start addresses allow: [addresses[a]] is a
    mapping of the list that starts at [a]; the start address of every
    mapping of the list is a key of [addresses], under which a mapping of
    the list with that start address is found, which can be another one
    than the mapping itself; and when no two mapping objects start at the
    same address, every mapping of the list is found in [addresses] under
    its own start address. *)
Theorem addresses_index_agrees k fuel mem elf core :
  Core_init k fuel mem elf = Ok core ->
  (forall a id, addresses core !! a = Some id ->
     exists m, objs core !! id = Some m /\ start m = a /\
               In m (mapping_list core)) /\
  (forall m, In m (mapping_list core) ->
     exists id m', addresses core !! start m = Some id /\
                   objs core !! id = Some m' /\ start m' = start m /\
                   In m' (mapping_list core)) /\
  (NoDup (map start (objs core)) ->
   forall m, In m (mapping_list core) ->
     exists id, addresses core !! start m = Some id /\
                objs core !! id = Some m).
Proof.
  intros H.
  pose proof (mapping_list_Permutation _ _ _ _ _ H) as Hp.
  assert (Hok : index_ok (objs core) (addresses core)).
  { revert H. apply (Core_init_invariant
      (fun c => index_ok (objs c) (addresses c))
      (fun c => index_ok (objs c) (addresses c))).
    - exact index_ok_empty.
    - intros self note st HP. exact HP.
    - intros self note self' _ Hp'.
      apply _parse_nt_file_Ok in Hp' as (ms & addrs & Hb & ->). simpl.
      eapply build_mappings_index; eassumption.
    - intros self v HP. exact HP.
    - intros self HP. exact HP.
    - intros self id HQ _ _. simpl. apply index_ok_set_name. exact HQ.
    - intros self self' HQ Hp'. apply _parse_stack_Ok in Hp' as [e ->].
      exact HQ. }
  destruct Hok as [H1 H2].
  assert (Hlist : forall id m, objs core !! id = Some m ->
                               In m (mapping_list core)).
  { intros id m Hm. apply (Permutation_in _ (Permutation_sym Hp)).
    eapply lookup_In. exact Hm. }
  assert (Hsnd : forall m, In m (mapping_list core) ->
            exists id m', addresses core !! start m = Some id /\
                          objs core !! id = Some m' /\ start m' = start m /\
                          In m' (mapping_list core)).
  { intros m Hm. apply mapping_list_In in Hm as (id & _ & Hid).
    destruct (H2 _ _ Hid) as [id' Hl].
    destruct (H1 _ _ Hl) as (m' & Hm' & Hs).
    exists id', m'. repeat split; try assumption. eapply Hlist. exact Hm'. }
  split; [|split].
  - intros a id Hl. destruct (H1 _ _ Hl) as (m & Hm & Hs).
    exists m. repeat split; try assumption. eapply Hlist. exact Hm.
  - exact Hsnd.
  - intros Hnd m Hm. destruct (Hsnd m Hm) as (id & m' & Hl & Hm' & Hs & Hin).
    exists id. split; [exact Hl|]. rewrite Hm'. f_equal.
    apply (NoDup_map_In_inj start (objs core)); try assumption.
    + eapply lookup_In. exact Hm'.
    + apply (Permutation_in _ Hp). exact Hm.
Qed.

(** Two files that start at [0x1000]: the index leads from there to the
    second, ["/bin/b"], also for the first, ["/bin/a"], which is in the
    list. *)
Lemma addresses_index_agrees_witness :
  exists core m',
    Core_init linux 0 no_memory core_shared_start = Ok core /\
    In (mkMapping (Some "/bin/a"%string) 0x1000 0x3000 0x2000 0)
      (mapping_list core) /\
    addresses core !! 0x1000 = Some 1%nat /\
    objs core !! 1%nat = Some m' /\ start m' = 0x1000 /\
    name m' = Some "/bin/b"%string.
Proof.
  assert (E : exists core,
             Core_init linux 0 no_memory core_shared_start = Ok core /\
             In (mkMapping (Some "/bin/a"%string) 0x1000 0x3000 0x2000 0)
               (mapping_list core) /\
             addresses core !! 0x1000 = Some 1%nat /\
             (forall m, objs core !! 1%nat = Some m ->
                        name m = Some "/bin/b"%string)).
  { eexists. split; [vm_compute; reflexivity|].
    split; [vm_compute; auto|]. split; [vm_compute; reflexivity|].
    intros m Hm. vm_compute in Hm. injection Hm as <-. reflexivity. }
  destruct E as (core & Hinit & Hin & Hl & Hn).
  destruct (proj1 (proj2 (addresses_index_agrees linux 0 no_memory
                            core_shared_start core Hinit)) _ Hin)
    as (id & m' & Hl' & Hm' & Hs & _).
  simpl in Hl', Hs. rewrite Hl in Hl'. injection Hl' as <-.
  exists core, m'. auto 10.
Defined.
